(** * SPHinXsys: neighbour search, particle configuration and particle dynamics

    A shallow embedding of the parts of SPHinXsys that the specification
    talks about: the cell-linked-list neighbour search
    ([CellLinkedList::searchNeighborsByParticles]), interaction kernels
    that consume the neighbourhood table ([LaplacianInner],
    [FreeSurfaceIndicationInner], [ViscousForceFromFluid],
    [ParticleSmoothing]), the execution drivers of two periodic test cases,
    the limited explicit update of a diffusion coefficient and the return
    mapping of [HardeningPlasticSolid]; and of the code around them: the
    free-surface kernels, the average velocity of a solid, the Laplacian
    with a contact relation, the steady-state check, the evolution of the
    diffusion coefficient with its learning loop, and the drivers without
    periodic conditions.

    Conventions of the embedding.
    - [Real] (a C++ [double]) is modelled by the rationals [Q].  Arithmetic
      is exact, except where a property depends on rounding: in
      [CoefficientEvolution.update] every operation and literal is followed
      by a rounding function [fl], for which [binary64] (IEEE 754 round to
      nearest) or the identity (exact arithmetic) can be taken, and the
      region bounds of [HeatFluxSteady] are the [double] values the code
      computes.  A division whose denominator is zero has no rational
      value; the model reports it as [DivisionByZero] (IEEE arithmetic would
      continue with an infinity or a NaN), except in
      [SteadyCheck.checkSteady], where the quotient is only compared and
      the model gives the result of the comparison.
    - [StdLargeVec<T>] is a [list T]; reading or writing past its end is
      undefined behaviour in C++ and is reported as [OutOfRange].
    - [sqrt] and [pow] from the C math library are parameters ([LibM]). *)

From Stdlib Require Import ZArith QArith Qround Qabs Qpower Lia Lra Psatz.
From Stdlib Require Import List Permutation String.
From stdpp Require Import base list.

(* ===================================================================== *)
(** * Part I: the model                                                   *)
(* ===================================================================== *)

(** ** Base data types *)

Definition Real : Type := Q.
Bind Scope Q_scope with Real.

(** Result of running a piece of code of the model. *)
Inductive outcome (A : Type) : Type :=
| Ok (a : A)
| DivisionByZero
| OutOfRange.
Arguments Ok {A} a.
Arguments DivisionByZero {A}.
Arguments OutOfRange {A}.

#[global] Instance outcome_bind : MBind outcome := fun A B k c =>
  match c with
  | Ok a => k a
  | DivisionByZero => DivisionByZero
  | OutOfRange => OutOfRange
  end.

(** [v[i]] on a [StdLargeVec]. *)
Definition read {A : Type} (v : list A) (i : nat) : outcome A :=
  match v !! i with
  | Some a => Ok a
  | None => OutOfRange
  end.

(** [v[i] = a] on a [StdLargeVec]. *)
Definition write {A : Type} (v : list A) (i : nat) (a : A) : outcome (list A) :=
  if decide (i < length v)%nat then Ok (<[i := a]> v) else OutOfRange.

(** [a / b] on [Real]. *)
Definition real_div (a b : Real) : outcome Real :=
  if Qeq_bool b 0 then DivisionByZero else Ok (a / b)%Q.

Definition Qlt_bool (a b : Q) : bool := negb (Qle_bool b a).

(** The helper [SMIN] of the base data package, on [Real]. *)
Definition SMIN (a b : Real) : Real := if Qlt_bool b a then b else a.

(** ** Rounding to [double] *)

(** The integer nearest to [x]; of the two nearest to a half-integer, the
    even one. *)
Definition round_half_even (x : Q) : Z :=
  let f := Qfloor x in
  match (x - inject_Z f ?= 1 # 2)%Q with
  | Lt => f
  | Gt => (f + 1)%Z
  | Eq => if Z.even f then f else (f + 1)%Z
  end.

(** The exponent [e] with [2 ^ e <= x < 2 ^ (e + 1)], for a positive [x]. *)
Definition binade (x : Q) : Z :=
  let e := (Z.log2 (Qnum x) - Z.log2 (Zpos (Qden x)))%Z in
  if Qle_bool (2 ^ e) x then e else (e - 1)%Z.

(** The [double] nearest to a positive [x]: a multiple of [2 ^ (e - 52)] in
    the binade [e] of [x] (53 significant bits), and of [2 ^ (-1074)] below
    the normal range. *)
Definition binary64_positive (x : Q) : Q :=
  let ulp := (2 ^ (Z.max (binade x) (-1022) - 52))%Q in
  Qred (inject_Z (round_half_even (x / ulp)) * ulp).

(** IEEE 754 binary64 rounding to nearest, ties to even, of the exact result
    [x] of an operation.  The exponent has no upper bound here: where the
    result is beyond the largest [double] and IEEE arithmetic returns an
    infinity, [binary64 x] is a rational that is not below the largest
    [double]. *)
Definition binary64 (x : Real) : Real :=
  match (x ?= 0)%Q with
  | Eq => 0%Q
  | Gt => binary64_positive x
  | Lt => (- binary64_positive (- x))%Q
  end.

(** The unit roundoff of [double], half the spacing of the subnormal
    numbers, the largest [double], and the machine epsilon
    [std::numeric_limits<double>::epsilon()]. *)
Definition binary64_unit_roundoff : Real := (2 ^ (-53))%Q.
Definition binary64_underflow : Real := (2 ^ (-1075))%Q.
Definition binary64_largest : Real := ((2 ^ 53 - 1) * 2 ^ 971)%Q.
Definition binary64_epsilon : Real := (2 ^ (-52))%Q.

(** What the rounding analysis uses of a rounding function [fl]: it keeps
    the sign; up to the largest number [Omega] the result is off by at most
    the fraction [u] of the exact value plus [eta_min], and stays within
    [Omega]; beyond [Omega] the result is not below [Omega]. *)
Record FloatingPoint (fl : Real -> Real) (u eta_min Omega : Real) : Prop := {
  unit_roundoff_small : (0 <= u /\ u <= 1 # 8)%Q;
  underflow_small : (0 <= eta_min /\ eta_min <= 1 # 8)%Q;
  largest_above_one : (1 <= Omega)%Q;
  fl_nonneg : forall x, (0 <= x -> 0 <= fl x)%Q;
  fl_nonpos : forall x, (x <= 0 -> fl x <= 0)%Q;
  fl_error_nonneg : forall x, (0 <= x -> x <= Omega ->
    (1 - u) * x - eta_min <= fl x /\ fl x <= (1 + u) * x + eta_min)%Q;
  fl_error_nonpos : forall x, (- Omega <= x -> x <= 0 ->
    (1 + u) * x - eta_min <= fl x /\ fl x <= (1 - u) * x + eta_min)%Q;
  fl_range : forall x,
    (- Omega <= x -> x <= Omega -> - Omega <= fl x /\ fl x <= Omega)%Q;
  fl_overflow : forall x, (Omega <= x -> Omega <= fl x)%Q
}.

(** ** Loops *)

(** Left-to-right monadic loop over a list: [for (x : l) st = body(st, x)]. *)
Fixpoint for_each {S A : Type} (body : S -> A -> outcome S) (l : list A) (st : S)
  : outcome S :=
  match l with
  | [] => Ok st
  | x :: l' => st' ← body st x; for_each body l' st'
  end.

(** The C math library functions used by the code. *)
Class LibM : Type := {
  real_sqrt : Real -> Real;
  real_pow : Real -> Real -> Real
}.

(** An instance for evaluation: square root and power that are exact where
    the result is rational (perfect squares; base one or integer exponents)
    and truncate otherwise. *)
Definition exact_sqrt (q : Real) : Real :=
  Z.sqrt (Qnum q * Zpos (Qden q)) # Qden q.
Definition exact_pow (b e : Real) : Real :=
  if Qeq_bool b 1 then 1%Q else Qpower b (Qfloor e).

Definition ExactLibM : LibM :=
  {| real_sqrt := exact_sqrt; real_pow := exact_pow |}.

(** [Vecd] of the three-dimensional build. *)
Definition Vecd : Type := (Real * Real * Real)%type.

Definition vec_zero : Vecd := (0, 0, 0)%Q.
Definition vec_add (a b : Vecd) : Vecd :=
  let '(ax, ay, az) := a in let '(bx, by_, bz) := b in
  (ax + bx, ay + by_, az + bz)%Q.
Definition vec_sub (a b : Vecd) : Vecd :=
  let '(ax, ay, az) := a in let '(bx, by_, bz) := b in
  (ax - bx, ay - by_, az - bz)%Q.
Definition vec_scale (s : Real) (a : Vecd) : Vecd :=
  let '(ax, ay, az) := a in (s * ax, s * ay, s * az)%Q.
Definition vec_div (a : Vecd) (s : Real) : outcome Vecd :=
  let '(ax, ay, az) := a in
  x ← real_div ax s; y ← real_div ay s; z ← real_div az s; Ok (x, y, z).
Definition squaredNorm (a : Vecd) : Real :=
  let '(ax, ay, az) := a in (ax * ax + ay * ay + az * az)%Q.
Definition vec_norm `{LibM} (a : Vecd) : Real := real_sqrt (squaredNorm a).

(** ** The neighbourhood table *)

(** [Neighborhood]: parallel arrays of neighbour records, of which the first
    [current_size_] are in use. *)
Record Neighborhood : Type := mkNeighborhood {
  current_size_ : nat;
  j_ : list nat;
  W_ij_ : list Real;
  dW_ijV_j_ : list Real;
  r_ij_ : list Real;
  e_ij_ : list Vecd
}.

(** [ParticleConfiguration]: one neighbourhood per particle. *)
Abbreviation ParticleConfiguration := (list Neighborhood).

(** The neighbour indices in use: [j_[0 .. current_size_)]. *)
Definition neighbors (nb : Neighborhood) : list nat :=
  take (current_size_ nb) (j_ nb).

(** ** Limited explicit evolution of the diffusion coefficient
    (shell_shell_collision_bugFix.cpp, [CoefficientEvolutionExplicitTem]) *)

Module CoefficientEvolution.

Record CoefficientEvolutionExplicitTem : Type := mkCoefficientEvolution {
  change_rate_ : list Real;
  eta_ : list Real
}.

Section Rounded.

(** [fl x] is the [double] that an operation returns whose exact result is
    [x], and the [double] a literal [x] of the source stands for. *)
Variable fl : Real -> Real.

(** The floor the limiter aims at: the value of [0.01 + Eps], where [Eps] is
    the machine epsilon constant of the base data package. *)
Definition eta_floor (Eps : Real) : Real := fl (fl 0.01 + Eps)%Q.

(** [CoefficientEvolutionExplicitTem::update]. *)
Definition update (Eps : Real) (this : CoefficientEvolutionExplicitTem)
    (index_i : nat) (dt : Real) : outcome CoefficientEvolutionExplicitTem :=
  change_rate_i ← read (change_rate_ this) index_i;
  let increment := fl (change_rate_i * dt)%Q in
  eta_i ← read (eta_ this) index_i;
  theta ← (if Qlt_bool increment 0
           then q ← real_div (fl (eta_floor Eps - eta_i)%Q) increment;
                Ok (SMIN (fl q) 1%Q)
           else Ok 1%Q);
  eta' ← write (eta_ this) index_i (fl (eta_i + fl (increment * theta))%Q);
  Ok {| change_rate_ := change_rate_ this; eta_ := eta' |}.

End Rounded.

(** The case of the rounding analysis: a coefficient of one, which the
    change rate would take below the floor within the time step. *)
Definition limited_particle : CoefficientEvolutionExplicitTem :=
  {| change_rate_ := [(-3.25)%Q]; eta_ := [1%Q] |}.

End CoefficientEvolution.

(** ** Return mapping of the hardening plastic solid
    (inelastic_solid.cpp, [HardeningPlasticSolid]) *)

Module Plasticity.

(** The matrix interface ([Matd] of Eigen) the constitutive relation uses. *)
Class EigenMatd (Matd : Type) : Type := {
  mat_identity : Matd;
  mat_mul : Matd -> Matd -> Matd;
  mat_transpose : Matd -> Matd;
  mat_inverse : Matd -> Matd;
  mat_determinant : Matd -> Real;
  mat_trace : Matd -> Real;
  mat_norm : Matd -> Real;
  mat_add : Matd -> Matd -> Matd;
  mat_sub : Matd -> Matd -> Matd;
  mat_scale : Real -> Matd -> Matd;
  mat_div : Matd -> Real -> Matd
}.

(** The members of [HardeningPlasticSolid] the relation reads and writes.
    [DeviatoricKirchhoff] and [VolumetricKirchhoff] are virtual functions of
    the elastic base class. *)
Record HardeningPlasticSolid (Matd : Type) : Type := mkHardeningPlasticSolid {
  G0_ : Real;
  yield_stress_ : Real;
  hardening_modulus_ : Real;
  sqrt_2_over_3_ : Real;
  DeviatoricKirchhoff : Matd -> Matd;
  VolumetricKirchhoff : Real -> Real;
  inverse_plastic_strain_ : list Matd;
  hardening_parameter_ : list Real
}.
Arguments G0_ {Matd} _.
Arguments yield_stress_ {Matd} _.
Arguments hardening_modulus_ {Matd} _.
Arguments sqrt_2_over_3_ {Matd} _.
Arguments DeviatoricKirchhoff {Matd} _ _.
Arguments VolumetricKirchhoff {Matd} _ _.
Arguments inverse_plastic_strain_ {Matd} _.
Arguments hardening_parameter_ {Matd} _.

Section Relation.
Context `{LibM} {Matd : Type} `{EigenMatd Matd}.
Variable OneOverDimensions : Real.

(** [normalized_be] of the elastic trial state. *)
Definition trial_normalized_be (F inverse_plastic_strain : Matd) : Matd :=
  let be := mat_mul (mat_mul F inverse_plastic_strain) (mat_transpose F) in
  mat_scale (real_pow (mat_determinant be) (- OneOverDimensions)%Q) be.

(** [renormalized_shear_modulus] of the elastic trial state. *)
Definition trial_shear_modulus (this : HardeningPlasticSolid Matd)
    (F inverse_plastic_strain : Matd) : Real :=
  (mat_trace (trial_normalized_be F inverse_plastic_strain) * OneOverDimensions
   * G0_ this)%Q.

(** [HardeningPlasticSolid::PlasticConstitutiveRelation]. *)
Definition PlasticConstitutiveRelation (this : HardeningPlasticSolid Matd)
    (F : Matd) (index_i : nat) (dt : Real)
  : outcome (Matd * HardeningPlasticSolid Matd) :=
  inverse_plastic_strain_i ← read (inverse_plastic_strain_ this) index_i;
  let be := mat_mul (mat_mul F inverse_plastic_strain_i) (mat_transpose F) in
  let normalized_be :=
    mat_scale (real_pow (mat_determinant be) (- OneOverDimensions)%Q) be in
  let normalized_be_isentropic := (mat_trace normalized_be * OneOverDimensions)%Q in
  let deviatoric_PK :=
    DeviatoricKirchhoff this
      (mat_sub normalized_be (mat_scale normalized_be_isentropic mat_identity)) in
  let deviatoric_PK_norm := mat_norm deviatoric_PK in
  hardening_parameter_i ← read (hardening_parameter_ this) index_i;
  let trial_function :=
    (deviatoric_PK_norm -
     sqrt_2_over_3_ this *
       (hardening_modulus_ this * hardening_parameter_i + yield_stress_ this))%Q in
  relaxed ←
    (if Qlt_bool 0 trial_function
     then
       let renormalized_shear_modulus := (normalized_be_isentropic * G0_ this)%Q in
       relax_increment ←
         real_div (0.5 * trial_function)%Q
                  (renormalized_shear_modulus + hardening_modulus_ this / 3.0)%Q;
       hardening' ←
         write (hardening_parameter_ this) index_i
               (hardening_parameter_i + sqrt_2_over_3_ this * relax_increment)%Q;
       let deviatoric_PK' :=
         mat_sub deviatoric_PK
           (mat_div
              (mat_scale (2.0 * renormalized_shear_modulus * relax_increment)%Q
                         deviatoric_PK)
              deviatoric_PK_norm) in
       let relaxed_be :=
         mat_add (mat_div deviatoric_PK' (G0_ this))
                 (mat_scale normalized_be_isentropic mat_identity) in
       Ok (hardening', deviatoric_PK',
           mat_scale (real_pow (mat_determinant relaxed_be) (- OneOverDimensions)%Q)
                     relaxed_be)
     else Ok (hardening_parameter_ this, deviatoric_PK, normalized_be));
  let '(hardening', deviatoric_PK', normalized_be') := relaxed in
  let inverse_F := mat_inverse F in
  let inverse_F_T := mat_transpose inverse_F in
  inverse_plastic_strain' ←
    write (inverse_plastic_strain_ this) index_i
          (mat_mul (mat_mul inverse_F normalized_be') inverse_F_T);
  Ok (mat_mul
        (mat_add deviatoric_PK'
           (mat_scale (VolumetricKirchhoff this (mat_determinant F)) mat_identity))
        inverse_F_T,
      {| G0_ := G0_ this;
         yield_stress_ := yield_stress_ this;
         hardening_modulus_ := hardening_modulus_ this;
         sqrt_2_over_3_ := sqrt_2_over_3_ this;
         DeviatoricKirchhoff := DeviatoricKirchhoff this;
         VolumetricKirchhoff := VolumetricKirchhoff this;
         inverse_plastic_strain_ := inverse_plastic_strain';
         hardening_parameter_ := hardening' |}).

End Relation.

(** *** A concrete instance: the two-dimensional build *)

(** [Mat2d]: rows [(m00, m01)] and [(m10, m11)]. *)
Record Mat2d : Type := mkMat2d { m00 : Real; m01 : Real; m10 : Real; m11 : Real }.

Definition Mat2d_det (a : Mat2d) : Real := (m00 a * m11 a - m01 a * m10 a)%Q.

Definition Mat2dOps (M : LibM) : EigenMatd Mat2d :=
  {| mat_identity := mkMat2d 1 0 0 1;
     mat_mul a b :=
       mkMat2d (m00 a * m00 b + m01 a * m10 b) (m00 a * m01 b + m01 a * m11 b)
               (m10 a * m00 b + m11 a * m10 b) (m10 a * m01 b + m11 a * m11 b);
     mat_transpose a := mkMat2d (m00 a) (m10 a) (m01 a) (m11 a);
     mat_inverse a :=
       let d := Mat2d_det a in
       mkMat2d (m11 a / d) (- m01 a / d) (- m10 a / d) (m00 a / d);
     mat_determinant := Mat2d_det;
     mat_trace a := (m00 a + m11 a)%Q;
     mat_norm a :=
       real_sqrt (m00 a * m00 a + m01 a * m01 a + m10 a * m10 a + m11 a * m11 a)%Q;
     mat_add a b :=
       mkMat2d (m00 a + m00 b) (m01 a + m01 b) (m10 a + m10 b) (m11 a + m11 b);
     mat_sub a b :=
       mkMat2d (m00 a - m00 b) (m01 a - m01 b) (m10 a - m10 b) (m11 a - m11 b);
     mat_scale s a := mkMat2d (s * m00 a) (s * m01 a) (s * m10 a) (s * m11 a);
     mat_div a s := mkMat2d (m00 a / s) (m01 a / s) (m10 a / s) (m11 a / s) |}%Q.

(** A neo-Hookean base material with shear modulus [G] and bulk modulus [K],
    one particle, no plastic strain yet; [sqrt_2_over_3_] is the square root
    of two thirds to four decimals. *)
Definition neo_hookean (G K yield hardening_modulus hardening : Real)
  : HardeningPlasticSolid Mat2d :=
  {| G0_ := G;
     yield_stress_ := yield;
     hardening_modulus_ := hardening_modulus;
     sqrt_2_over_3_ := 0.8165;
     DeviatoricKirchhoff b := mkMat2d (G * m00 b) (G * m01 b) (G * m10 b) (G * m11 b);
     VolumetricKirchhoff J := (0.5 * K * (J * J - 1));
     inverse_plastic_strain_ := [mkMat2d 1 0 0 1];
     hardening_parameter_ := [hardening] |}%Q.

(** A simple shear: unit determinant, and the trial deviatoric stress of a
    fresh particle has norm [4 G]. *)
Definition simple_shear : Mat2d := mkMat2d 1 2 0 1.

(** A hardening material and a softening one (negative hardening modulus). *)
Definition hardening_solid : HardeningPlasticSolid Mat2d :=
  neo_hookean 1 1 1 3 0.
Definition softening_solid : HardeningPlasticSolid Mat2d :=
  neo_hookean 1 1 1 (-12) 0.

(** The hardening material with a second particle, which has yielded
    before: its plastic strain and hardening parameter are not those of a
    fresh particle. *)
Definition two_particle_solid : HardeningPlasticSolid Mat2d :=
  {| G0_ := G0_ hardening_solid;
     yield_stress_ := yield_stress_ hardening_solid;
     hardening_modulus_ := hardening_modulus_ hardening_solid;
     sqrt_2_over_3_ := sqrt_2_over_3_ hardening_solid;
     DeviatoricKirchhoff := DeviatoricKirchhoff hardening_solid;
     VolumetricKirchhoff := VolumetricKirchhoff hardening_solid;
     inverse_plastic_strain_ :=
       inverse_plastic_strain_ hardening_solid ++ [mkMat2d 2 0 0 0.5];
     hardening_parameter_ := hardening_parameter_ hardening_solid ++ [0.25%Q] |}.

End Plasticity.

(** ** Interaction kernels over the neighbourhood table *)

Module ParticleDynamics.

(** The particle arrays and configuration tables the kernels hold references
    to.  One store is shared by all kernels of a body, as in the code. *)
Record ParticleData : Type := mkParticleData {
  inner_configuration_ : ParticleConfiguration;
  contact_configuration_ : list ParticleConfiguration;
  pos_ : list Vecd;
  pos_div_ : list Real;               (* FreeSurfaceIndicationInner *)
  in_variable_ : list Real;           (* LaplacianInner *)
  out_variable_ : list Real;
  W0_ : Real;                         (* ParticleSmoothing *)
  smoothed_ : list Real;
  temp_ : list Real;
  Vol_ : list Real;                   (* ViscousForceFromFluid *)
  vel_ave_ : list Vecd;
  mu_ : list Real;
  smoothing_length_ : list Real;
  contact_vel_n_ : list (list Vecd);
  force_from_fluid_ : list Vecd
}.

Definition set_pos_ (f : list Vecd) (d : ParticleData) : ParticleData :=
  mkParticleData (inner_configuration_ d) (contact_configuration_ d)
    f (pos_div_ d) (in_variable_ d) (out_variable_ d) (W0_ d)
    (smoothed_ d) (temp_ d) (Vol_ d) (vel_ave_ d) (mu_ d) (smoothing_length_ d)
    (contact_vel_n_ d) (force_from_fluid_ d).
Definition set_pos_div_ (f : list Real) (d : ParticleData) : ParticleData :=
  mkParticleData (inner_configuration_ d) (contact_configuration_ d)
    (pos_ d) f (in_variable_ d) (out_variable_ d) (W0_ d)
    (smoothed_ d) (temp_ d) (Vol_ d) (vel_ave_ d) (mu_ d) (smoothing_length_ d)
    (contact_vel_n_ d) (force_from_fluid_ d).
Definition set_out_variable_ (f : list Real) (d : ParticleData) : ParticleData :=
  mkParticleData (inner_configuration_ d) (contact_configuration_ d)
    (pos_ d) (pos_div_ d) (in_variable_ d) f (W0_ d)
    (smoothed_ d) (temp_ d) (Vol_ d) (vel_ave_ d) (mu_ d) (smoothing_length_ d)
    (contact_vel_n_ d) (force_from_fluid_ d).
Definition set_smoothed_ (f : list Real) (d : ParticleData) : ParticleData :=
  mkParticleData (inner_configuration_ d) (contact_configuration_ d)
    (pos_ d) (pos_div_ d) (in_variable_ d) (out_variable_ d) (W0_ d)
    f (temp_ d) (Vol_ d) (vel_ave_ d) (mu_ d) (smoothing_length_ d)
    (contact_vel_n_ d) (force_from_fluid_ d).
Definition set_temp_ (f : list Real) (d : ParticleData) : ParticleData :=
  mkParticleData (inner_configuration_ d) (contact_configuration_ d)
    (pos_ d) (pos_div_ d) (in_variable_ d) (out_variable_ d) (W0_ d)
    (smoothed_ d) f (Vol_ d) (vel_ave_ d) (mu_ d) (smoothing_length_ d)
    (contact_vel_n_ d) (force_from_fluid_ d).
Definition set_force_from_fluid_ (f : list Vecd) (d : ParticleData) : ParticleData :=
  mkParticleData (inner_configuration_ d) (contact_configuration_ d)
    (pos_ d) (pos_div_ d) (in_variable_ d) (out_variable_ d) (W0_ d)
    (smoothed_ d) (temp_ d) (Vol_ d) (vel_ave_ d) (mu_ d) (smoothing_length_ d)
    (contact_vel_n_ d) f.

(** [for (size_t n = 0; n != neighborhood.current_size_; ++n)]. *)
Definition loop_neighbors {S : Type} (nb : Neighborhood)
    (body : S -> nat -> outcome S) (init : S) : outcome S :=
  for_each body (seq 0 (current_size_ nb)) init.

(** [FreeSurfaceIndicationInner::interaction] (fluid_surface_inner.hpp). *)
Definition FreeSurfaceIndicationInner_interaction (d : ParticleData)
    (index_i : nat) (dt : Real) : outcome ParticleData :=
  inner_neighborhood ← read (inner_configuration_ d) index_i;
  pos_div ←
    loop_neighbors inner_neighborhood
      (fun pos_div n =>
         dW ← read (dW_ijV_j_ inner_neighborhood) n;
         r ← read (r_ij_ inner_neighborhood) n;
         Ok (pos_div - dW * r)%Q)
      0%Q;
  pos_div' ← write (pos_div_ d) index_i pos_div;
  Ok (set_pos_div_ pos_div' d).

(** [LaplacianInner<Real>::loopNeighbors] (laplacian_operators.h). *)
Definition LaplacianInner_loopNeighbors (d : ParticleData) (index_i : nat)
    (coefficient : nat -> nat -> Real) : outcome ParticleData :=
  neighborhood ← read (inner_configuration_ d) index_i;
  sum ←
    loop_neighbors neighborhood
      (fun sum n =>
         index_j ← read (j_ neighborhood) n;
         in_i ← read (in_variable_ d) index_i;
         in_j ← read (in_variable_ d) index_j;
         dW ← read (dW_ijV_j_ neighborhood) n;
         r ← read (r_ij_ neighborhood) n;
         term ← real_div (2.0 * coefficient index_i index_j * (in_i - in_j) * dW)%Q r;
         Ok (sum + term)%Q)
      0%Q;
  out' ← write (out_variable_ d) index_i sum;
  Ok (set_out_variable_ out' d).


(** [ParticleSmoothing<Real>::interaction] (general_dynamics.h). *)
Definition ParticleSmoothing_interaction (TinyReal : Real) (d : ParticleData)
    (index_i : nat) (dt : Real) : outcome ParticleData :=
  let weight := W0_ d in
  smoothed_i ← read (smoothed_ d) index_i;
  let summation := (W0_ d * smoothed_i)%Q in
  inner_neighborhood ← read (inner_configuration_ d) index_i;
  acc ←
    loop_neighbors inner_neighborhood
      (fun '(summation, weight) n =>
         index_j ← read (j_ inner_neighborhood) n;
         W_ij ← read (W_ij_ inner_neighborhood) n;
         smoothed_j ← read (smoothed_ d) index_j;
         Ok (summation + W_ij * smoothed_j, weight + W_ij)%Q)
      (summation, weight);
  let '(summation, weight) := acc in
  value ← real_div summation (weight + TinyReal)%Q;
  temp' ← write (temp_ d) index_i value;
  Ok (set_temp_ temp' d).

(** The value [interaction] stores for particle [index_i]: the kernel-weighted
    average of the smoothed field over the particle and its neighbours. *)
Definition smoothing_average (TinyReal : Real) (d : ParticleData) (index_i : nat)
  : outcome Real :=
  smoothed_i ← read (smoothed_ d) index_i;
  inner_neighborhood ← read (inner_configuration_ d) index_i;
  acc ←
    loop_neighbors inner_neighborhood
      (fun '(summation, weight) n =>
         index_j ← read (j_ inner_neighborhood) n;
         W_ij ← read (W_ij_ inner_neighborhood) n;
         smoothed_j ← read (smoothed_ d) index_j;
         Ok (summation + W_ij * smoothed_j, weight + W_ij)%Q)
      ((W0_ d * smoothed_i)%Q, W0_ d);
  real_div acc.1 (acc.2 + TinyReal)%Q.

(** [ParticleSmoothing<Real>::update]. *)
Definition ParticleSmoothing_update (d : ParticleData) (index_i : nat) (dt : Real)
  : outcome ParticleData :=
  temp_i ← read (temp_ d) index_i;
  smoothed' ← write (smoothed_ d) index_i temp_i;
  Ok (set_smoothed_ smoothed' d).

(** [ViscousForceFromFluid::interaction] (fluid_structure_interaction.cpp). *)
Definition ViscousForceFromFluid_interaction (d : ParticleData) (index_i : nat)
    (dt : Real) : outcome ParticleData :=
  Vol_i ← read (Vol_ d) index_i;
  vel_ave_i ← read (vel_ave_ d) index_i;
  force ←
    for_each
      (fun force k =>
         mu_k ← read (mu_ d) k;
         smoothing_length_k ← read (smoothing_length_ d) k;
         vel_n_k ← read (contact_vel_n_ d) k;
         configuration_k ← read (contact_configuration_ d) k;
         contact_neighborhood ← read configuration_k index_i;
         loop_neighbors contact_neighborhood
           (fun force n =>
              index_j ← read (j_ contact_neighborhood) n;
              vel_j ← read vel_n_k index_j;
              r ← read (r_ij_ contact_neighborhood) n;
              vel_derivative ←
                vec_div (vec_scale 2.0%Q (vec_sub vel_ave_i vel_j))
                        (r + 0.01 * smoothing_length_k)%Q;
              dW ← read (dW_ijV_j_ contact_neighborhood) n;
              Ok (vec_add force
                    (vec_scale dW
                       (vec_scale Vol_i
                          (vec_scale (2.0 * mu_k)%Q vel_derivative)))))
           force)
      (seq 0 (length (contact_configuration_ d)))
      vec_zero;
  force' ← write (force_from_fluid_ d) index_i force;
  Ok (set_force_from_fluid_ force' d).

(** [ImposingSourceTerm<Vecd>::update] bound to the position variable: a
    simple dynamics that moves a particle. *)
Definition ImposingSourceTerm_update (source_strength : Vecd) (d : ParticleData)
    (index_i : nat) (dt : Real) : outcome ParticleData :=
  variable_i ← read (pos_ d) index_i;
  pos' ← write (pos_ d) index_i (vec_add variable_i (vec_scale dt source_strength));
  Ok (set_pos_ pos' d).

(** One call of a kernel on one particle. *)
Inductive kernel_call : Type :=
| CallFreeSurfaceIndication (index_i : nat) (dt : Real)
| CallLaplacian (coefficient : nat -> nat -> Real) (index_i : nat)
| CallSmoothingInteraction (index_i : nat) (dt : Real)
| CallSmoothingUpdate (index_i : nat) (dt : Real)
| CallViscousForce (index_i : nat) (dt : Real)
| CallImposingSource (source_strength : Vecd) (index_i : nat) (dt : Real).

Definition run_kernel (TinyReal : Real) (d : ParticleData) (c : kernel_call)
  : outcome ParticleData :=
  match c with
  | CallFreeSurfaceIndication i dt => FreeSurfaceIndicationInner_interaction d i dt
  | CallLaplacian coefficient i => LaplacianInner_loopNeighbors d i coefficient
  | CallSmoothingInteraction i dt => ParticleSmoothing_interaction TinyReal d i dt
  | CallSmoothingUpdate i dt => ParticleSmoothing_update d i dt
  | CallViscousForce i dt => ViscousForceFromFluid_interaction d i dt
  | CallImposingSource s i dt => ImposingSourceTerm_update s d i dt
  end.

(** The physics of a step between two configuration updates: any sequence of
    kernel calls. *)
Definition run_kernels (TinyReal : Real) (calls : list kernel_call) (d : ParticleData)
  : outcome ParticleData :=
  for_each (run_kernel TinyReal) calls d.

(** The two phases of [InteractionWithUpdate<ParticleSmoothing>]: the
    interaction of every particle of [order1], then the update of every
    particle of [order2]. *)
Definition ParticleSmoothing_exec (TinyReal : Real) (order1 order2 : list nat)
    (dt : Real) (d : ParticleData) : outcome ParticleData :=
  d1 ← for_each (fun d i => ParticleSmoothing_interaction TinyReal d i dt) order1 d;
  for_each (fun d i => ParticleSmoothing_update d i dt) order2 d1.

(** The neighbourhood tables of [d'] are those of [d]. *)
Definition same_configuration (d d' : ParticleData) : Prop :=
  inner_configuration_ d' = inner_configuration_ d /\
  contact_configuration_ d' = contact_configuration_ d.

(** Two particles at distance [r] along the first axis: each is the single
    neighbour of the other. *)
Definition pair_neighborhood (r : Real) (j : nat) : Neighborhood :=
  {| current_size_ := 1; j_ := [j]; W_ij_ := [(1 - r)%Q]; dW_ijV_j_ := [(- r)%Q];
     r_ij_ := [r]; e_ij_ := [(1, 0, 0)%Q] |}.

Definition pair_at_distance (r : Real) : ParticleData :=
  {| inner_configuration_ := [pair_neighborhood r 1; pair_neighborhood r 0];
     contact_configuration_ := [[pair_neighborhood r 1; pair_neighborhood r 0]];
     pos_ := [vec_zero; (r, 0, 0)%Q];
     pos_div_ := [0; 0]%Q;
     in_variable_ := [1; 2]%Q;
     out_variable_ := [0; 0]%Q;
     W0_ := 1;
     smoothed_ := [1; 2]%Q;
     temp_ := [0; 0]%Q;
     Vol_ := [1; 1]%Q;
     vel_ave_ := [vec_zero; vec_zero];
     mu_ := [1%Q];
     smoothing_length_ := [1.3%Q];
     contact_vel_n_ := [[(1, 0, 0); (0, 1, 0)]%Q];
     force_from_fluid_ := [vec_zero; vec_zero] |}.


(** A step's worth of kernel calls on the first particle of a pair. *)
Definition example_calls : list kernel_call :=
  [CallFreeSurfaceIndication 0 0.001;
   CallLaplacian (fun _ _ => 1%Q) 0;
   CallSmoothingInteraction 0 0.001;
   CallSmoothingUpdate 0 0.001;
   CallViscousForce 0 0.001;
   CallImposingSource (1, 0, 0)%Q 0 0.001].

End ParticleDynamics.

(** ** The cell linked list and the neighbour search *)

Module Mesh.

(** An entry of a cell's list ([ListData], declared outside the sources at
    hand): the particle index and, since the neighbour relation is told
    nothing else about the candidate, its position. *)
Definition ListData : Type := (nat * Vecd)%type.

(** The conversion [int(x)] of an unsigned value. *)
Definition to_int (z : Z) : Z := ((z + 2 ^ 31) mod 2 ^ 32 - 2 ^ 31)%Z.

(** The members of [CellLinkedList] (a [BaseMeshField]) that the search
    reads.  [cell_data_lists_] is the three-dimensional array of the per-cell
    lists. *)
Record CellLinkedList : Type := mkCellLinkedList {
  mesh_lower_bound_ : Vecd;
  grid_spacing_ : Real;
  number_of_cells_ : Z * Z * Z;
  cell_data_lists_ : Z -> Z -> Z -> list ListData
}.

Definition set_cell_data_lists_ (f : Z -> Z -> Z -> list ListData)
    (cll : CellLinkedList) : CellLinkedList :=
  mkCellLinkedList (mesh_lower_bound_ cll) (grid_spacing_ cll)
    (number_of_cells_ cll) f.

Definition clamp_index (number_of_cells c : Z) : Z :=
  Z.max 0 (Z.min c (number_of_cells - 1)).

(** Modelled from the spec: [CellIndexFromPosition] is declared in the mesh
    base class, which is not part of the sources at hand.  Section 4.1: it
    computes [floor((pos - domain_lower_bound) / cell_size)] per axis, and
    out-of-domain positions are clamped to valid cell bounds. *)
Definition CellIndexFromPosition (cll : CellLinkedList) (pos : Vecd) : Z * Z * Z :=
  let '(x, y, z) := pos in
  let '(lx, ly, lz) := mesh_lower_bound_ cll in
  let '(n0, n1, n2) := number_of_cells_ cll in
  (clamp_index n0 (Qfloor ((x - lx) / grid_spacing_ cll)),
   clamp_index n1 (Qfloor ((y - ly) / grid_spacing_ cll)),
   clamp_index n2 (Qfloor ((z - lz) / grid_spacing_ cll))).

(** Modelled from the spec: the insertion step of [updateCellLists],
    [cell_data_lists_[l][m][q].push_back(d)]. *)
Definition insert_list_data (cll : CellLinkedList) (c : Z * Z * Z) (d : ListData)
  : CellLinkedList :=
  set_cell_data_lists_
    (fun l m q =>
       if decide ((l, m, q) = c)
       then cell_data_lists_ cll l m q ++ [d]
       else cell_data_lists_ cll l m q)
    cll.

(** Modelled from the spec: the clearing step of [updateCellLists]. *)
Definition clear_cell_lists (cll : CellLinkedList) : CellLinkedList :=
  set_cell_data_lists_ (fun _ _ _ => []) cll.

(** Modelled from the spec: [updateCellLists] is defined in
    cell_linked_list.cpp, which is not part of the sources at hand.
    Section 4.1: it clears all cell particle-lists, then for each particle
    inserts its index into the cell its current position maps to.  The
    particles are inserted in the order [order]; a parallel run may pick any
    order. *)
Definition updateCellLists (order : list nat) (pos : list Vecd)
    (cll : CellLinkedList) : outcome CellLinkedList :=
  for_each
    (fun cll index_i =>
       pos_i ← read pos index_i;
       Ok (insert_list_data cll (CellIndexFromPosition cll pos_i) (index_i, pos_i)))
    order (clear_cell_lists cll).

(** The loop [for (int l = lo; l <= hi; ++l)]. *)
Definition int_range (lo hi : Z) : list Z :=
  (fun n => (lo + Z.of_nat n)%Z) <$> seq 0 (Z.to_nat (hi - lo + 1)).

Definition neighbor_relation : Type :=
  Neighborhood -> Vecd -> nat -> ListData -> outcome Neighborhood.

(** The three nested cell loops and the loop over a cell's list of
    [CellLinkedList::searchNeighborsByParticles] (cell_linked_list.hpp), for
    one particle.  The casts to [int] wrap; the [int] additions and
    subtractions are those of [Z], since a signed overflow is undefined. *)
Definition search_cells (cll : CellLinkedList) (pos_i : Vecd) (index_i : nat)
    (search_depth : Z) (get_neighbor_relation : neighbor_relation)
    (neighborhood : Neighborhood) : outcome Neighborhood :=
  let '(c0, c1, c2) := CellIndexFromPosition cll pos_i in
  let i := to_int c0 in
  let j := to_int c1 in
  let k := to_int c2 in
  let '(n0, n1, n2) := number_of_cells_ cll in
  for_each
    (fun neighborhood l =>
       for_each
         (fun neighborhood m =>
            for_each
              (fun neighborhood q =>
                 let target_particles := cell_data_lists_ cll l m q in
                 for_each
                   (fun neighborhood list_data =>
                      get_neighbor_relation neighborhood pos_i index_i list_data)
                   target_particles neighborhood)
              (int_range (Z.max (k - search_depth) 0)
                         (Z.min (k + search_depth) (to_int n2 - 1)))
              neighborhood)
         (int_range (Z.max (j - search_depth) 0)
                    (Z.min (j + search_depth) (to_int n1 - 1)))
         neighborhood)
    (int_range (Z.max (i - search_depth) 0)
               (Z.min (i + search_depth) (to_int n0 - 1)))
    neighborhood.

(** [CellLinkedList::searchNeighborsByParticles].  [dynamics_range] lists
    [getParticleIndex(num)] for [num] in [0, SizeOfLoopRange())]. *)
Definition searchNeighborsByParticles (cll : CellLinkedList) (pos : list Vecd)
    (dynamics_range : list nat) (particle_configuration : ParticleConfiguration)
    (get_search_depth : nat -> Z) (get_neighbor_relation : neighbor_relation)
  : outcome ParticleConfiguration :=
  for_each
    (fun particle_configuration index_i =>
       pos_i ← read pos index_i;
       let search_depth := get_search_depth index_i in
       neighborhood ← read particle_configuration index_i;
       neighborhood' ←
         search_cells cll pos_i index_i search_depth get_neighbor_relation
                      neighborhood;
       write particle_configuration index_i neighborhood')
    dynamics_range particle_configuration.

(** The cells the three nested loops visit, in the order of the visit. *)
Definition scanned_cells (cll : CellLinkedList) (pos_i : Vecd) (search_depth : Z)
  : list (Z * Z * Z) :=
  let '(c0, c1, c2) := CellIndexFromPosition cll pos_i in
  let '(n0, n1, n2) := number_of_cells_ cll in
  l ← int_range (Z.max (to_int c0 - search_depth) 0)
                (Z.min (to_int c0 + search_depth) (to_int n0 - 1));
  m ← int_range (Z.max (to_int c1 - search_depth) 0)
                (Z.min (to_int c1 + search_depth) (to_int n1 - 1));
  q ← int_range (Z.max (to_int c2 - search_depth) 0)
                (Z.min (to_int c2 + search_depth) (to_int n2 - 1));
  [(l, m, q)].

(** The candidates handed to the neighbour relation, in order. *)
Definition scanned_list_data (cll : CellLinkedList) (pos_i : Vecd) (search_depth : Z)
  : list ListData :=
  c ← scanned_cells cll pos_i search_depth;
  cell_data_lists_ cll c.1.1 c.1.2 c.2.

(** *** The neighbour relation of an inner body relation *)

(** Modelled from the spec: the kernel class is not part of the sources at
    hand.  A kernel has a cutoff radius, a value and a gradient that depend
    on the distance only. *)
Record SmoothingKernel : Type := mkSmoothingKernel {
  CutOffRadius : Real;
  W : Real -> Real;
  dW : Real -> Real
}.

(** Modelled from the spec: storing one field of a neighbour record.  Writes
    [a] into slot [n] of the array, growing the array when the slot is not
    allocated yet. *)
Definition store_record {A : Type} (l : list A) (n : nat) (a : A) : list A :=
  if decide (n < length l)%nat then <[n := a]> l else l ++ [a].

(** Modelled from the spec: the [Neighborhood] class is not part of the
    sources at hand.  Sections 3 and 4.2: a neighbour record is appended
    after the [current_size_] records in use, within the allocated capacity
    when there is room; a rebuild overwrites the records of the previous one. *)
Definition add_neighbor (nb : Neighborhood) (index_j : nat) (distance : Real)
    (W_ij dW_ijV_j : Real) (e_ij : Vecd) : Neighborhood :=
  let n := current_size_ nb in
  {| current_size_ := S n;
     j_ := store_record (j_ nb) n index_j;
     W_ij_ := store_record (W_ij_ nb) n W_ij;
     dW_ijV_j_ := store_record (dW_ijV_j_ nb) n dW_ijV_j;
     r_ij_ := store_record (r_ij_ nb) n distance;
     e_ij_ := store_record (e_ij_ nb) n e_ij |}.

(** Modelled from the spec: the cutoff test of the neighbour relation.  The
    candidate lies within the cutoff radius, the maximum distance at which
    two particles influence each other.  Distances are compared through
    their squares. *)
Definition within_cutoff (kernel : SmoothingKernel) (displacement : Vecd) : bool :=
  Qle_bool (squaredNorm displacement) (CutOffRadius kernel * CutOffRadius kernel).

(** Modelled from the spec: the neighbour-relation functor of an inner
    relation is defined in neighborhood.cpp, which is not part of the
    sources at hand.  Section 4.2: it tests the cutoff distance and, if
    within range, appends a neighbour record with the precomputed
    kernel-gradient-weighted volume and separation data.  A particle is not
    a neighbour of itself: the kernels add the self contribution on their
    own ([W0_] in [ParticleSmoothing]). *)
Definition NeighborBuilderInner `{LibM} (kernel : SmoothingKernel)
    (Vol : list Real) (TinyReal : Real) : neighbor_relation :=
  fun neighborhood pos_i index_i list_data =>
    let '(index_j, pos_j) := list_data in
    let displacement := vec_sub pos_i pos_j in
    if within_cutoff kernel displacement && negb (index_i =? index_j)%nat
    then
      let distance := vec_norm displacement in
      Vol_j ← read Vol index_j;
      e_ij ← vec_div displacement (distance + TinyReal)%Q;
      Ok (add_neighbor neighborhood index_j distance (W kernel distance)
                       (dW kernel distance * Vol_j)%Q e_ij)
    else Ok neighborhood.

(** Modelled from the spec: the records of the previous rebuild are given
    up for overwriting; the storage stays allocated. *)
Definition reset_current_size (nb : Neighborhood) : Neighborhood :=
  {| current_size_ := 0;
     j_ := j_ nb; W_ij_ := W_ij_ nb; dW_ijV_j_ := dW_ijV_j_ nb;
     r_ij_ := r_ij_ nb; e_ij_ := e_ij_ nb |}.

(** Modelled from the spec: [updateConfiguration] of a body relation is
    defined in the body-relation sources, which are not at hand.
    Sections 4.2 and 4.3: it triggers the neighbourhood builder to
    repopulate every particle's neighbourhood, overwriting the records of
    the previous rebuild. *)
Definition updateConfiguration (cll : CellLinkedList) (pos : list Vecd)
    (dynamics_range : list nat) (get_search_depth : nat -> Z)
    (get_neighbor_relation : neighbor_relation)
    (particle_configuration : ParticleConfiguration)
  : outcome ParticleConfiguration :=
  searchNeighborsByParticles cll pos dynamics_range
    (reset_current_size <$> particle_configuration)
    get_search_depth get_neighbor_relation.

(** A rebuild: [updateCellLists()] followed by [updateConfiguration()]. *)
Definition rebuild (order : list nat) (pos : list Vecd) (dynamics_range : list nat)
    (get_search_depth : nat -> Z) (get_neighbor_relation : neighbor_relation)
    (st : CellLinkedList * ParticleConfiguration)
  : outcome (CellLinkedList * ParticleConfiguration) :=
  cll' ← updateCellLists order pos st.1;
  configuration' ←
    updateConfiguration cll' pos dynamics_range get_search_depth
                        get_neighbor_relation st.2;
  Ok (cll', configuration').

(** Squared distance between two particles. *)
Definition distance_sqr (p q : Vecd) : Real := squaredNorm (vec_sub p q).

(** *** What a rebuild computes *)

(** The entries [updateCellLists] distributes over the cells. *)
Definition list_data_of (pos : list Vecd) (order : list nat) : list ListData :=
  omap (fun index_i => pos_i ← pos !! index_i; Some (index_i, pos_i)) order.

(** The entry lies in cell [c]. *)
Definition in_cell (cll : CellLinkedList) (c : Z * Z * Z) (d : ListData) : Prop :=
  CellIndexFromPosition cll d.2 = c.

#[global] Instance in_cell_dec (cll : CellLinkedList) (c : Z * Z * Z) (d : ListData)
  : Decision (in_cell cll c d) :=
  decide (CellIndexFromPosition cll d.2 = c).

(** The candidates the inner neighbour relation turns into records. *)
Definition accepts (kernel : SmoothingKernel) (pos_i : Vecd) (index_i : nat)
    (d : ListData) : bool :=
  within_cutoff kernel (vec_sub pos_i d.2) && negb (index_i =? d.1)%nat.

(** The inner neighbour relation can build the record of the candidate. *)
Definition buildable `{LibM} (kernel : SmoothingKernel) (Vol : list Real)
    (TinyReal : Real) (pos_i : Vecd) (index_i : nat) (d : ListData) : Prop :=
  accepts kernel pos_i index_i d = true ->
  is_Some (Vol !! d.1) /\
  ~ (vec_norm (vec_sub pos_i d.2) + TinyReal == 0)%Q.

(** The neighbour indices one search of particle [index_i] appends. *)
Definition found_neighbors (cll : CellLinkedList) (kernel : SmoothingKernel)
    (pos : list Vecd) (get_search_depth : nat -> Z) (index_i : nat) : list nat :=
  match pos !! index_i with
  | Some pos_i =>
      (filter (fun d => accepts kernel pos_i index_i d = true)
              (scanned_list_data cll pos_i (get_search_depth index_i))).*1
  | None => []
  end.

(** The search of particle [index_i] can run: the particle has a position
    and a neighbourhood, and every candidate's record can be built. *)
Definition searchable `{LibM} (kernel : SmoothingKernel) (Vol : list Real)
    (TinyReal : Real) (cll : CellLinkedList) (pos : list Vecd)
    (get_search_depth : nat -> Z) (size : nat) (index_i : nat) : Prop :=
  (index_i < size)%nat /\
  exists pos_i, pos !! index_i = Some pos_i /\
    Forall (buildable kernel Vol TinyReal pos_i index_i)
           (scanned_list_data cll pos_i (get_search_depth index_i)).

(** Two cell linked lists over the same mesh. *)
Definition same_mesh (cll cll' : CellLinkedList) : Prop :=
  mesh_lower_bound_ cll' = mesh_lower_bound_ cll /\
  grid_spacing_ cll' = grid_spacing_ cll /\
  number_of_cells_ cll' = number_of_cells_ cll.

(** The number of cells per axis fits the [int] type. *)
Definition cells_fit_int (cll : CellLinkedList) : Prop :=
  let '(n0, n1, n2) := number_of_cells_ cll in
  (1 <= n0 < 2 ^ 31 /\ 1 <= n1 < 2 ^ 31 /\ 1 <= n2 < 2 ^ 31)%Z.

(** The per-axis window of the search around cell index [c]: [search_depth]
    cells to either side, cut off at the first and the last cell. *)
Definition in_window (number_of_cells c search_depth l : Z) : Prop :=
  (0 <= l <= number_of_cells - 1 /\ c - search_depth <= l <= c + search_depth)%Z.

(** *** The three-particle scenario of the specification *)

Definition scenario_kernel : SmoothingKernel :=
  {| CutOffRadius := 1.0%Q; W := fun r => (1 - r)%Q; dW := fun _ => (-1)%Q |}.

(** The mesh puts the three particles into three cells in a row, one cell
    deep along the third axis. *)
Definition scenario_mesh : CellLinkedList :=
  {| mesh_lower_bound_ := (-1, -1.5, 0)%Q;
     grid_spacing_ := 1.0%Q;
     number_of_cells_ := (3, 5, 1)%Z;
     cell_data_lists_ := fun _ _ _ => [] |}.

Definition scenario_pos : list Vecd := [(0, 0, 0); (0, 0.5, 0); (0, 2.0, 0)]%Q.

Definition empty_neighborhood : Neighborhood :=
  {| current_size_ := 0; j_ := []; W_ij_ := []; dW_ijV_j_ := []; r_ij_ := [];
     e_ij_ := [] |}.

Definition scenario_rebuild (order : list nat)
    (st : CellLinkedList * ParticleConfiguration)
  : outcome (CellLinkedList * ParticleConfiguration) :=
  rebuild order scenario_pos [0; 1; 2]%nat (fun _ => 1%Z)
    (@NeighborBuilderInner ExactLibM scenario_kernel [1; 1; 1]%Q (1 # 1000000))
    st.

(** Records left over from an earlier configuration. *)
Definition stale_neighborhood : Neighborhood :=
  {| current_size_ := 2; j_ := [7; 8]%nat; W_ij_ := [0; 0]%Q;
     dW_ijV_j_ := [0; 0]%Q; r_ij_ := [0; 0]%Q; e_ij_ := [vec_zero; vec_zero] |}.

Definition scenario_start : CellLinkedList * ParticleConfiguration :=
  (scenario_mesh, [stale_neighborhood; empty_neighborhood; stale_neighborhood]).

End Mesh.

(** ** The execution drivers of the periodic test cases *)

Module Driver.

Inductive axis : Type := xAxis | yAxis.

(** What the driver calls, in the order of the calls.  The dynamics
    objects are classified by their declaration: an [InteractionDynamics],
    [InteractionWithUpdate] or [Dynamics1Level] object, or a relaxation
    step over a body relation, reads the neighbourhood table; a
    [SimpleDynamics] or [ReduceDynamics] object and the file output do not. *)
Inductive event : Type :=
| Bounding (a : axis)                  (* periodic_condition.bounding_.parallel_exec() *)
| CellLinkedListRebuild                (* updateCellLinkedList(), updateSystemCellLinkedLists() *)
| GhostCellLinkedListUpdate (a : axis) (* periodic_condition.update_cell_linked_list_.parallel_exec() *)
| ConfigurationRebuild                 (* updateConfiguration(), updateSystemRelations() *)
| Interaction (name : string)
| Other (name : string).

Definition is_bounding (e : event) : bool :=
  match e with Bounding _ => true | _ => false end.
Definition is_cell_list_rebuild (e : event) : bool :=
  match e with
  | CellLinkedListRebuild | GhostCellLinkedListUpdate _ => true
  | _ => false
  end.
Definition is_configuration_rebuild (e : event) : bool :=
  match e with ConfigurationRebuild => true | _ => false end.
Definition reads_neighbors (e : event) : bool :=
  match e with Interaction _ => true | _ => false end.

(** The rebuild sequence both drivers share. *)
Definition periodic_rebuild : list event :=
  [Bounding xAxis; Bounding yAxis; CellLinkedListRebuild;
   GhostCellLinkedListUpdate xAxis; GhostCellLinkedListUpdate yAxis;
   ConfigurationRebuild].

(** One iteration of the relaxation loop [while (ite_p < 2000)] of
    relaxation_evolution.cpp, entered with the counter [ite_p]. *)
Definition relaxation_step (ite_p : Z) : list event :=
  [Bounding xAxis; Bounding yAxis; CellLinkedListRebuild;
   GhostCellLinkedListUpdate xAxis; GhostCellLinkedListUpdate yAxis;
   ConfigurationRebuild;
   Interaction "relaxation_inner_explicit"]
  ++ (if (ite_p =? 0)%Z
      then [Interaction "update_kinetic_energy"; Other "average_residue"]
      else [])
  ++ (if ((ite_p + 1) mod 50 =? 0)%Z
      then [Other "cout"; Interaction "update_kinetic_energy";
            Other "average_residue"; Other "write_insert_body_to_vtp"]
      else []).

(** One pass of the acoustic loop [while (relaxation_time < Dt)] of
    2d_flow_around_cylinder.cpp. *)
Definition acoustic_step : list event :=
  [Other "get_fluid_time_step_size"; Interaction "pressure_relaxation";
   Interaction "pressure_force_on_cylinder"; Interaction "density_relaxation";
   Other "freestream_condition"].

(** One pass of the advection loop [while (integration_time <
    output_interval)], in which the acoustic loop runs [inner_ite_dt] times;
    the time steps come from floating-point reductions, so the count is a
    parameter.  The observation output that follows the advection loop is
    not part of a step. *)
Definition integration_step (inner_ite_dt : nat) (number_of_iterations : Z)
  : list event :=
  [Other "initialize_a_fluid_step"; Other "get_fluid_advection_time_step_size";
   Interaction "update_density_by_summation"; Interaction "viscous_acceleration";
   Interaction "transport_velocity_correction";
   Interaction "viscous_force_on_cylinder"]
  ++ (_ ← seq 0 inner_ite_dt; acoustic_step)
  ++ (if (number_of_iterations mod 100 =? 0)%Z then [Other "cout"] else [])
  ++ [Bounding xAxis; Bounding yAxis; CellLinkedListRebuild;
      GhostCellLinkedListUpdate xAxis; GhostCellLinkedListUpdate yAxis;
      ConfigurationRebuild].

(** The ordering requirement on the trace of one step: bounding, cell-list
    rebuild and configuration rebuild all happen, every bounding precedes
    every cell-list rebuild, every cell-list rebuild precedes every
    configuration rebuild, and nothing that reads neighbours runs between a
    bounding and a configuration rebuild. *)
Definition rebuild_ordered (t : list event) : Prop :=
  (exists e, e ∈ t /\ is_bounding e = true) /\
  (exists e, e ∈ t /\ is_cell_list_rebuild e = true) /\
  (exists e, e ∈ t /\ is_configuration_rebuild e = true) /\
  (forall i j ei ej, t !! i = Some ei -> t !! j = Some ej ->
     is_bounding ei = true -> is_cell_list_rebuild ej = true -> (i < j)%nat) /\
  (forall i j ei ej, t !! i = Some ei -> t !! j = Some ej ->
     is_cell_list_rebuild ei = true -> is_configuration_rebuild ej = true ->
     (i < j)%nat) /\
  (forall i j m ei ej em, t !! i = Some ei -> t !! j = Some ej -> t !! m = Some em ->
     is_bounding ei = true -> is_configuration_rebuild ej = true ->
     (i < m < j)%nat -> reads_neighbors em = false).

(** Events that take no part in a rebuild. *)
Definition no_rebuild_event (e : event) : bool :=
  negb (is_bounding e || is_cell_list_rebuild e || is_configuration_rebuild e).

(** A stretch of a trace without any event of a rebuild. *)
Definition quiet (t : list event) : Prop :=
  forall e, e ∈ t -> no_rebuild_event e = true.

End Driver.

(** ** Further helpers of the base data package *)

(** The helpers [ABS] and [SMAX] of the base data package, on [Real]. *)
Definition ABS (a : Real) : Real := if Qlt_bool a 0 then (- a)%Q else a.
Definition SMAX (a b : Real) : Real := if Qlt_bool a b then b else a.

(** [a.dot(b)] on [Vecd]. *)
Definition vec_dot (a b : Vecd) : Real :=
  let '(ax, ay, az) := a in let '(bx, by_, bz) := b in
  (ax * bx + ay * by_ + az * bz)%Q.

(** Two vectors with equal components. *)
Definition vec_eq (a b : Vecd) : Prop :=
  (a.1.1 == b.1.1 /\ a.1.2 == b.1.2 /\ a.2 == b.2)%Q.

(** ** The steady-state check (general_dynamics.h, [SteadySolutionCheck]) *)

Module SteadyCheck.

(** The members of [SteadySolutionCheck<Real>].  [variable_] refers to an
    array of the particles; [variable_temp_] is the check's own. *)
Record SteadySolutionCheck : Type := mkSteadySolutionCheck {
  steady_reference_ : Real;
  variable_ : list Real;
  variable_temp_ : list Real
}.

(** [const Real criterion_ = 1.0e-8]. *)
Definition criterion_ : Real := 1.0e-8%Q.

(** The constructor: [variable_temp_] is registered with the initial value
    [2.0 * variable_[index_i]]. *)
Definition new_SteadySolutionCheck (variable : list Real) (steady_reference : Real)
  : SteadySolutionCheck :=
  {| steady_reference_ := steady_reference;
     variable_ := variable;
     variable_temp_ := (fun variable_i => (2.0 * variable_i)%Q) <$> variable |}.

(** [SteadySolutionCheck<Real>::checkSteady(const Real &)].  No error is
    raised for a zero reference: the quotient is then an infinity or a NaN
    of IEEE arithmetic, and its comparison with [criterion_] is false. *)
Definition checkSteady (this : SteadySolutionCheck) (increment : Real) : bool :=
  if Qeq_bool (steady_reference_ this) 0 then false
  else Qlt_bool (increment * increment / steady_reference_ this
                 / steady_reference_ this)%Q criterion_.

(** [SteadySolutionCheck<Real>::reduce]: the result and the check after the
    call. *)
Definition reduce (this : SteadySolutionCheck) (index_i : nat) (dt : Real)
  : outcome (bool * SteadySolutionCheck) :=
  variable_i ← read (variable_ this) index_i;
  variable_temp_i ← read (variable_temp_ this) index_i;
  let increment := (variable_i - variable_temp_i)%Q in
  variable_temp' ← write (variable_temp_ this) index_i variable_i;
  let this' := {| steady_reference_ := steady_reference_ this;
                  variable_ := variable_ this;
                  variable_temp_ := variable_temp' |} in
  Ok (checkSteady this' increment, this').

End SteadyCheck.

(** ** The Laplacian with a contact relation
    (laplacian_operators.h, [LaplacianContact]) *)

Module Operators.
Import ParticleDynamics.






(** Two particles at distance [r] with the same value of the input variable,
    the first of which moves with the velocity of its fluid neighbour. *)
Definition uniform_pair (r : Real) : ParticleData :=
  {| inner_configuration_ := [pair_neighborhood r 1; pair_neighborhood r 0];
     contact_configuration_ := [[pair_neighborhood r 1; pair_neighborhood r 0]];
     pos_ := [vec_zero; (r, 0, 0)%Q];
     pos_div_ := [0; 0]%Q;
     in_variable_ := [3; 3]%Q;
     out_variable_ := [7; 7]%Q;
     W0_ := 1;
     smoothed_ := [1; 2]%Q;
     temp_ := [0; 0]%Q;
     Vol_ := [1; 1]%Q;
     vel_ave_ := [(0, 1, 0); vec_zero]%Q;
     mu_ := [1%Q];
     smoothing_length_ := [1.3%Q];
     contact_vel_n_ := [[(1, 0, 0); (0, 1, 0)]%Q];
     force_from_fluid_ := [(5, 5, 5); (5, 5, 5)]%Q |}.

End Operators.

(** ** The three-particle scenario with its cell lists filled *)

Module SearchScenario.
Import Mesh.

(** The cell lists of [scenario_mesh] with each particle of [scenario_pos]
    in the cell of its position. *)
Definition scenario_cells : CellLinkedList :=
  set_cell_data_lists_
    (fun l m q =>
       if decide ((l, m, q) = (1, 1, 0)%Z) then [(0%nat, (0, 0, 0)%Q)]
       else if decide ((l, m, q) = (1, 2, 0)%Z) then [(1%nat, (0, 0.5, 0)%Q)]
       else if decide ((l, m, q) = (1, 3, 0)%Z) then [(2%nat, (0, 2.0, 0)%Q)]
       else [])
    scenario_mesh.

(** The search of the scenario over the range [dynamics_range]. *)
Definition scenario_search (dynamics_range : list nat)
    (particle_configuration : ParticleConfiguration) : outcome ParticleConfiguration :=
  searchNeighborsByParticles scenario_cells scenario_pos dynamics_range
    particle_configuration (fun _ => 1%Z)
    (@NeighborBuilderInner ExactLibM scenario_kernel [1; 1; 1]%Q (1 # 1000000)).

End SearchScenario.

(** ** Free-surface kernels (fluid_surface_inner.hpp) *)

Module FluidSurface.
Import ParticleDynamics.

(** The arrays and constants the free-surface kernels hold references to,
    beside those of [ParticleData]. *)
Record FluidSurfaceData : Type := mkFluidSurfaceData {
  particles_ : ParticleData;
  threshold_by_dimensions_ : Real;
  surface_indicator_ : list Z;
  previous_surface_indicator_ : list Z;
  color_grad_ : list Vecd;
  surface_norm_ : list Vecd;
  gamma_ : Real;
  mass_ : list Real;
  acc_prior_ : list Vecd;
  rho0_ : Real;
  rho_ : list Real;
  rho_sum_ : list Real
}.

Definition set_particles_ (p : ParticleData) (d : FluidSurfaceData) : FluidSurfaceData :=
  mkFluidSurfaceData p (threshold_by_dimensions_ d) (surface_indicator_ d)
    (previous_surface_indicator_ d) (color_grad_ d) (surface_norm_ d) (gamma_ d)
    (mass_ d) (acc_prior_ d) (rho0_ d) (rho_ d) (rho_sum_ d).
Definition set_acc_prior_ (f : list Vecd) (d : FluidSurfaceData) : FluidSurfaceData :=
  mkFluidSurfaceData (particles_ d) (threshold_by_dimensions_ d) (surface_indicator_ d)
    (previous_surface_indicator_ d) (color_grad_ d) (surface_norm_ d) (gamma_ d)
    (mass_ d) f (rho0_ d) (rho_ d) (rho_sum_ d).
Definition set_rho_ (f : list Real) (d : FluidSurfaceData) : FluidSurfaceData :=
  mkFluidSurfaceData (particles_ d) (threshold_by_dimensions_ d) (surface_indicator_ d)
    (previous_surface_indicator_ d) (color_grad_ d) (surface_norm_ d) (gamma_ d)
    (mass_ d) (acc_prior_ d) (rho0_ d) f (rho_sum_ d).

(** [SpatialTemporalFreeSurfaceIdentification::checkNearPreviousFreeSurface]. *)
Definition checkNearPreviousFreeSurface (d : FluidSurfaceData) (index_i : nat)
  : outcome FluidSurfaceData :=
  previous_i ← read (previous_surface_indicator_ d) index_i;
  if negb (previous_i =? 1)%Z
  then
    inner_neighborhood ← read (inner_configuration_ (particles_ d)) index_i;
    is_near_previous_surface ←
      loop_neighbors inner_neighborhood
        (fun is_near_previous_surface n =>
           index_j ← read (j_ inner_neighborhood) n;
           previous_j ← read (previous_surface_indicator_ d) index_j;
           Ok (if (previous_j =? 1)%Z then true else is_near_previous_surface))
        false;
    if negb is_near_previous_surface
    then
      pos_div' ← write (pos_div_ (particles_ d)) index_i
                       (2.0 * threshold_by_dimensions_ d)%Q;
      Ok (set_particles_ (set_pos_div_ pos_div' (particles_ d)) d)
    else Ok d
  else Ok d.

(** [SpatialTemporalFreeSurfaceIdentification<FreeSurfaceIdentification>::
    interaction]; [base_interaction] is [FreeSurfaceIdentification::interaction]
    of the template parameter. *)
Definition SpatialTemporalFreeSurfaceIdentification_interaction
    (base_interaction : FluidSurfaceData -> nat -> Real -> outcome FluidSurfaceData)
    (d : FluidSurfaceData) (index_i : nat) (dt : Real) : outcome FluidSurfaceData :=
  d' ← base_interaction d index_i dt;
  pos_div_i ← read (pos_div_ (particles_ d')) index_i;
  if Qlt_bool pos_div_i (threshold_by_dimensions_ d')
  then checkNearPreviousFreeSurface d' index_i
  else Ok d'.

(** The template parameter [FreeSurfaceIndicationInner]. *)
Definition FreeSurfaceIndicationInner_base (d : FluidSurfaceData) (index_i : nat)
    (dt : Real) : outcome FluidSurfaceData :=
  p' ← FreeSurfaceIndicationInner_interaction (particles_ d) index_i dt;
  Ok (set_particles_ p' d).

(** The loop of [isNearSurface], which leaves at the first surface particle
    among the neighbours. *)
Fixpoint find_surface_neighbor (surface_indicator : list Z)
    (inner_neighborhood : Neighborhood) (ns : list nat) : outcome bool :=
  match ns with
  | [] => Ok false
  | n :: ns' =>
      index_j ← read (j_ inner_neighborhood) n;
      indicator_j ← read surface_indicator index_j;
      if (indicator_j =? 1)%Z then Ok true
      else find_surface_neighbor surface_indicator inner_neighborhood ns'
  end.

(** [DensitySummationFreeStream::isNearSurface]. *)
Definition isNearSurface (d : FluidSurfaceData) (index_i : nat) : outcome bool :=
  indicator_i ← read (surface_indicator_ d) index_i;
  if negb (indicator_i =? 1)%Z
  then
    inner_neighborhood ← read (inner_configuration_ (particles_ d)) index_i;
    find_surface_neighbor (surface_indicator_ d) inner_neighborhood
      (seq 0 (current_size_ inner_neighborhood))
  else Ok true.

Section Density.
(** [ReinitializedDensity(rho_sum, rho_0, rho_n)] is a member of the density
    summation base class, which is declared outside the sources at hand. *)
Variable ReinitializedDensity : Real -> Real -> Real -> Real.

(** [DensitySummationFreeSurface::update]. *)
Definition DensitySummationFreeSurface_update (d : FluidSurfaceData) (index_i : nat)
    (dt : Real) : outcome FluidSurfaceData :=
  rho_sum_i ← read (rho_sum_ d) index_i;
  rho_i ← read (rho_ d) index_i;
  rho' ← write (rho_ d) index_i (ReinitializedDensity rho_sum_i (rho0_ d) rho_i);
  Ok (set_rho_ rho' d).

(** [DensitySummationFreeStream::update]; [&&] evaluates [isNearSurface] only
    when the summation density is below the reference density. *)
Definition DensitySummationFreeStream_update (d : FluidSurfaceData) (index_i : nat)
    (dt : Real) : outcome FluidSurfaceData :=
  rho_sum_i ← read (rho_sum_ d) index_i;
  reinitialize ←
    (if Qlt_bool rho_sum_i (rho0_ d) then isNearSurface d index_i else Ok false);
  if (reinitialize : bool)
  then
    rho_i ← read (rho_ d) index_i;
    rho' ← write (rho_ d) index_i (ReinitializedDensity rho_sum_i (rho0_ d) rho_i);
    Ok (set_rho_ rho' d)
  else
    rho' ← write (rho_ d) index_i rho_sum_i;
    Ok (set_rho_ rho' d).

End Density.

(** [SurfaceTensionAccelerationInner::interaction]; [Dimensions] is the
    number of space dimensions of the build. *)
Definition SurfaceTensionAccelerationInner_interaction (Dimensions TinyReal : Real)
    (d : FluidSurfaceData) (index_i : nat) (dt : Real) : outcome FluidSurfaceData :=
  n_i ← read (surface_norm_ d) index_i;
  indicator_i ← read (surface_indicator_ d) index_i;
  acc ←
    (if (indicator_i =? 1)%Z
     then
       inner_neighborhood ← read (inner_configuration_ (particles_ d)) index_i;
       loop_neighbors inner_neighborhood
         (fun '(curvature, pos_div) n =>
            index_j ← read (j_ inner_neighborhood) n;
            indicator_j ← read (surface_indicator_ d) index_j;
            if (indicator_j =? 1)%Z
            then
              n_j ← read (surface_norm_ d) index_j;
              let n_ij := vec_sub n_i n_j in
              dW ← read (dW_ijV_j_ inner_neighborhood) n;
              e_ij ← read (e_ij_ inner_neighborhood) n;
              r ← read (r_ij_ inner_neighborhood) n;
              Ok (curvature - dW * vec_dot n_ij e_ij, pos_div - dW * r)%Q
            else Ok (curvature, pos_div))
         (0%Q, 0%Q)
     else Ok (0%Q, 0%Q));
  let '(curvature, pos_div) := acc in
  renormalized_curvature ←
    real_div (Dimensions * curvature)%Q (ABS (pos_div + TinyReal)%Q);
  color_grad_i ← read (color_grad_ d) index_i;
  Vol_i ← read (Vol_ (particles_ d)) index_i;
  let acceleration :=
    vec_scale Vol_i (vec_scale (gamma_ d * renormalized_curvature)%Q color_grad_i) in
  mass_i ← read (mass_ d) index_i;
  change ← vec_div acceleration mass_i;
  acc_prior_i ← read (acc_prior_ d) index_i;
  acc_prior' ← write (acc_prior_ d) index_i (vec_sub acc_prior_i change);
  Ok (set_acc_prior_ acc_prior' d).

(** The particle is a surface particle, or one of its neighbours in use is,
    by the indicator array [indicator]. *)
Definition near_surface (indicator : list Z) (d : FluidSurfaceData) (index_i : nat)
  : Prop :=
  indicator !! index_i = Some 1%Z \/
  exists inner_neighborhood n index_j,
    inner_configuration_ (particles_ d) !! index_i = Some inner_neighborhood /\
    (n < current_size_ inner_neighborhood)%nat /\
    j_ inner_neighborhood !! n = Some index_j /\
    indicator !! index_j = Some 1%Z.

(** The density reinitialisation of the library, for evaluation. *)
Definition example_ReinitializedDensity (rho_sum rho_0 rho_n : Real) : Real :=
  (rho_sum + SMAX 0 (rho_n - rho_sum) * rho_0 / rho_n)%Q.

(** Two fluid particles, each the neighbour of the other; the second one is
    a surface particle, and was one at the previous identification. *)
Definition surface_pair : FluidSurfaceData :=
  {| particles_ := pair_at_distance 1;
     threshold_by_dimensions_ := 1.5%Q;
     surface_indicator_ := [0; 1]%Z;
     previous_surface_indicator_ := [0; 1]%Z;
     color_grad_ := [(1, 0, 0); (0, 1, 0)]%Q;
     surface_norm_ := [(1, 0, 0); (0, 1, 0)]%Q;
     gamma_ := 1%Q;
     mass_ := [1; 1]%Q;
     acc_prior_ := [(0, -1, 0); (0, -1, 0)]%Q;
     rho0_ := 1%Q;
     rho_ := [1; 1]%Q;
     rho_sum_ := [0.9; 0.9]%Q |}.

(** The same pair in the bulk of the fluid: no surface particle, now or at
    the previous identification. *)
Definition bulk_pair : FluidSurfaceData :=
  {| particles_ := pair_at_distance 1;
     threshold_by_dimensions_ := 1.5%Q;
     surface_indicator_ := [0; 0]%Z;
     previous_surface_indicator_ := [0; 0]%Z;
     color_grad_ := [(1, 0, 0); (0, 1, 0)]%Q;
     surface_norm_ := [(1, 0, 0); (0, 1, 0)]%Q;
     gamma_ := 1%Q;
     mass_ := [1; 1]%Q;
     acc_prior_ := [(0, -1, 0); (0, -1, 0)]%Q;
     rho0_ := 1%Q;
     rho_ := [1; 1]%Q;
     rho_sum_ := [0.9; 0.9]%Q |}.

End FluidSurface.

(** ** Average velocity of a solid (fluid_structure_interaction.cpp) *)

Module FSI.

(** The arrays [InitializeDisplacement] and
    [UpdateAverageVelocityAndAcceleration] hold references to. *)
Record AverageVelocityData : Type := mkAverageVelocityData {
  pos_ : list Vecd;
  pos_temp_ : list Vecd;
  vel_ave_ : list Vecd;
  acc_ave_ : list Vecd
}.

(** [InitializeDisplacement::update]. *)
Definition InitializeDisplacement_update (d : AverageVelocityData) (index_i : nat)
    (dt : Real) : outcome AverageVelocityData :=
  pos_i ← read (pos_ d) index_i;
  pos_temp' ← write (pos_temp_ d) index_i pos_i;
  Ok {| pos_ := pos_ d; pos_temp_ := pos_temp';
        vel_ave_ := vel_ave_ d; acc_ave_ := acc_ave_ d |}.

(** [UpdateAverageVelocityAndAcceleration::update]; [Eps] is the machine
    epsilon constant of the base data package. *)
Definition UpdateAverageVelocityAndAcceleration_update (Eps : Real)
    (d : AverageVelocityData) (index_i : nat) (dt : Real)
  : outcome AverageVelocityData :=
  pos_i ← read (pos_ d) index_i;
  pos_temp_i ← read (pos_temp_ d) index_i;
  updated_vel_ave ← vec_div (vec_sub pos_i pos_temp_i) (dt + Eps)%Q;
  vel_ave_i ← read (vel_ave_ d) index_i;
  acc_ave_i ← vec_div (vec_sub updated_vel_ave vel_ave_i) (dt + Eps)%Q;
  acc_ave' ← write (acc_ave_ d) index_i acc_ave_i;
  vel_ave' ← write (vel_ave_ d) index_i updated_vel_ave;
  Ok {| pos_ := pos_ d; pos_temp_ := pos_temp_ d;
        vel_ave_ := vel_ave'; acc_ave_ := acc_ave' |}.

(** A solid particle that has moved since its position was stored. *)
Definition moved_particle : AverageVelocityData :=
  {| pos_ := [(1, 2, 3)%Q]; pos_temp_ := [(0, 0, 0)%Q];
     vel_ave_ := [(1, 0, 0)%Q]; acc_ave_ := [vec_zero] |}.

End FSI.

(** ** Evolution of the diffusion coefficient in heat_source_steady.cpp
    (shell_shell_collision_bugFix.cpp, second part) *)

Module HeatSourceSteady.
Import CoefficientEvolution.

(** Global parameters of the case. *)
Definition heat_source : Real := 100.0%Q.

(** The arrays and tables the coefficient-evolution classes hold references
    to.  [evolution_] holds [change_rate_] and [eta_]. *)
Record DissipationData : Type := mkDissipationData {
  evolution_ : CoefficientEvolutionExplicitTem;
  inner_configuration_ : ParticleConfiguration;
  contact_configuration_ : list ParticleConfiguration;
  rho_ : list Real;
  variable_ : list Real;
  variable_target_ : list Real;
  residue_ : list Real;
  wall_variable_ : list (list Real)
}.

Definition set_evolution_ (e : CoefficientEvolutionExplicitTem) (d : DissipationData)
  : DissipationData :=
  mkDissipationData e (inner_configuration_ d) (contact_configuration_ d) (rho_ d)
    (variable_ d) (variable_target_ d) (residue_ d) (wall_variable_ d).

Definition set_change_rate_ (f : list Real) (d : DissipationData) : DissipationData :=
  set_evolution_ {| change_rate_ := f; eta_ := eta_ (evolution_ d) |} d.


(** [CoefficientEvolutionExplicitTem::interaction]. *)
Definition CoefficientEvolutionExplicitTem_interaction (d : DissipationData)
    (index_i : nat) (dt : Real) : outcome DissipationData :=
  variable_i ← read (variable_target_ d) index_i;
  eta_i ← read (eta_ (evolution_ d)) index_i;
  residue_i ← read (residue_ d) index_i;
  inner_neighborhood ← read (inner_configuration_ d) index_i;
  change_rate ←
    ParticleDynamics.loop_neighbors inner_neighborhood
      (fun change_rate n =>
         dW ← read (dW_ijV_j_ inner_neighborhood) n;
         r ← read (r_ij_ inner_neighborhood) n;
         b_ij ← real_div (2.0 * dW)%Q r;
         index_j ← read (j_ inner_neighborhood) n;
         variable_j ← read (variable_target_ d) index_j;
         let variable_diff := (variable_i - variable_j)%Q in
         let variable_diff_abs := SMAX (ABS variable_diff) 5.0%Q in
         eta_j ← read (eta_ (evolution_ d)) index_j;
         let coefficient_ave := (0.5 * (eta_i + eta_j))%Q in
         let coefficient_diff := (0.5 * (eta_i - eta_j))%Q in
         Ok (change_rate +
             b_ij * (coefficient_ave * variable_diff +
                     coefficient_diff * variable_diff_abs))%Q)
      (heat_source - residue_i)%Q;
  rho_i ← read (rho_ d) index_i;
  rate ← real_div change_rate rho_i;
  change_rate' ← write (change_rate_ (evolution_ d)) index_i rate;
  Ok (set_change_rate_ change_rate' d).

(** [CoefficientEvolutionWithWallExplicitTem::interaction]. *)
Definition CoefficientEvolutionWithWallExplicitTem_interaction (d : DissipationData)
    (index_i : nat) (dt : Real) : outcome DissipationData :=
  d ← CoefficientEvolutionExplicitTem_interaction d index_i dt;
  variable_i ← read (variable_target_ d) index_i;
  change_rate ←
    for_each
      (fun change_rate k =>
         variable_k ← read (wall_variable_ d) k;
         configuration_k ← read (contact_configuration_ d) k;
         contact_neighborhood ← read configuration_k index_i;
         ParticleDynamics.loop_neighbors contact_neighborhood
           (fun change_rate n =>
              dW ← read (dW_ijV_j_ contact_neighborhood) n;
              r ← read (r_ij_ contact_neighborhood) n;
              b_ij ← real_div (2.0 * dW)%Q r;
              index_j ← read (j_ contact_neighborhood) n;
              variable_j ← read variable_k index_j;
              let variable_diff := (variable_i - variable_j)%Q in
              eta_i ← read (eta_ (evolution_ d)) index_i;
              Ok (change_rate + b_ij * eta_i * variable_diff)%Q)
           change_rate)
      (seq 0 (length (contact_configuration_ d)))
      0.0%Q;
  rho_i ← read (rho_ d) index_i;
  rate ← real_div change_rate rho_i;
  change_rate_i ← read (change_rate_ (evolution_ d)) index_i;
  change_rate' ← write (change_rate_ (evolution_ d)) index_i (change_rate_i + rate)%Q;
  Ok (set_change_rate_ change_rate' d).

(** [update] of both classes, on the arrays of [evolution_]; [fl] is the
    rounding of its operations. *)
Definition CoefficientEvolutionExplicitTem_update (fl : Real -> Real) (Eps : Real)
    (d : DissipationData) (index_i : nat) (dt : Real) : outcome DissipationData :=
  evolution' ← update fl Eps (evolution_ d) index_i dt;
  Ok (set_evolution_ evolution' d).

(** The two phases of
    [InteractionWithUpdate<CoefficientEvolutionWithWallExplicitTem>]: the
    interaction of every particle of [order1], then the update of every
    particle of [order2]. *)
Definition coefficient_evolution_with_wall_tem (fl : Real -> Real) (Eps : Real)
    (order1 order2 : list nat) (dt : Real) (d : DissipationData)
  : outcome DissipationData :=
  d1 ← for_each
         (fun d i => CoefficientEvolutionWithWallExplicitTem_interaction d i dt)
         order1 d;
  for_each (fun d i => CoefficientEvolutionExplicitTem_update fl Eps d i dt) order2 d1.







(** The variables [imposing_target], [equation_residue_max] and
    [equation_residue_ave] of [main]. *)
Record LearningControl : Type := mkLearningControl {
  imposing_target : bool;
  equation_residue_max : Real;
  equation_residue_ave : Real
}.

Definition allowed_equation_residue : Real := 30e4%Q.

(** The residue evaluation at the end of a pass of the learning loop of
    [main], given the two reductions over the residue. *)
Definition residue_evaluation (control : LearningControl)
    (residue_max_after_target residue_ave_after_target : Real) : LearningControl :=
  if Qlt_bool (equation_residue_max control) residue_max_after_target
     && Qlt_bool allowed_equation_residue residue_max_after_target
  then {| imposing_target := false;
          equation_residue_max := equation_residue_max control;
          equation_residue_ave := residue_ave_after_target |}
  else {| imposing_target := true;
          equation_residue_max := residue_max_after_target;
          equation_residue_ave := residue_ave_after_target |}.

(** The residue evaluations of consecutive passes, given the pairs of
    reductions the passes measure. *)
Definition residue_evaluations (measured : list (Real * Real))
    (control : LearningControl) : LearningControl :=
  foldl (fun control m => residue_evaluation control m.1 m.2) control measured.

(** Two diffusion particles, each the neighbour of the other, and one wall
    particle next to both. *)
Definition diffusion_pair : DissipationData :=
  {| evolution_ := {| change_rate_ := [0; 0]%Q; eta_ := [1; 1]%Q |};
     inner_configuration_ :=
       [ParticleDynamics.pair_neighborhood 1 1; ParticleDynamics.pair_neighborhood 1 0];
     contact_configuration_ :=
       [[ParticleDynamics.pair_neighborhood 1 0; ParticleDynamics.pair_neighborhood 1 0]];
     rho_ := [1; 1]%Q;
     variable_ := [320; 330]%Q;
     variable_target_ := [320; 330]%Q;
     residue_ := [0; 0]%Q;
     wall_variable_ := [[300%Q]] |}.

End HeatSourceSteady.

(** ** The execution drivers without periodic conditions *)

Module RelaxationDriver.
Import Driver.

(** The calls before the relaxation loop of the particle-relaxation branch
    of 2d_flow_around_cylinder.cpp. *)
Definition cylinder_relaxation_setup : list event :=
  [Other "random_inserted_body_particles"; Other "SurfaceBounding";
   CellLinkedListRebuild; ConfigurationRebuild;
   Other "write_inserted_body_to_vtp"].

(** One pass of the loop [while (ite_p < 1000)] of that branch, entered with
    the counter [ite_p]. *)
Definition cylinder_relaxation_step (ite_p : Z) : list event :=
  [Interaction "relaxation_step_inner"]
  ++ (if ((ite_p + 1) mod 200 =? 0)%Z
      then [Other "cout"; Other "write_inserted_body_to_vtp"]
      else [])
  ++ [CellLinkedListRebuild; ConfigurationRebuild].

(** The branch with the loop bound [iterations] in place of [1000]. *)
Definition cylinder_relaxation (iterations : nat) : list event :=
  cylinder_relaxation_setup
  ++ (ite_p ← seq 0 iterations; cylinder_relaxation_step (Z.of_nat ite_p))
  ++ [Other "cout"; Other "write_particle_reload_files"].

(** The calls of the branch that move particles. *)
Definition cylinder_relaxation_moves (e : event) : bool :=
  match e with
  | Other name =>
      (name =? "random_inserted_body_particles")%string
      || (name =? "SurfaceBounding")%string
  | Interaction name => (name =? "relaxation_step_inner")%string
  | _ => false
  end.

(** How far the neighbourhood table is behind the particle positions:
    particles have moved since the cell lists were rebuilt; the cell lists
    are rebuilt but the table is not; the table is rebuilt from rebuilt cell
    lists. *)
Inductive table_state : Type := Moved | CellListsRebuilt | TableRebuilt.

(** The effect of one call on the state of the table; [None] when the call
    reads a table that is not rebuilt. *)
Definition observe (moves : event -> bool) (st : table_state) (e : event)
  : option table_state :=
  match reads_neighbors e, st with
  | true, Moved | true, CellListsRebuilt => None
  | _, _ =>
      if moves e then Some Moved
      else if is_cell_list_rebuild e
           then Some (match st with Moved => CellListsRebuilt | _ => st end)
           else if is_configuration_rebuild e
                then Some (match st with CellListsRebuilt => TableRebuilt | _ => st end)
                else Some st
  end.

(** The state of the table after a trace. *)
Fixpoint observe_trace (moves : event -> bool) (st : table_state) (t : list event)
  : option table_state :=
  match t with
  | [] => Some st
  | e :: t' =>
      match observe moves st e with
      | Some st' => observe_trace moves st' t'
      | None => None
      end
  end.

End RelaxationDriver.

Module ContactDriver.

(** What the driver of the shell collision case calls: a dynamics object, a
    body's [updateCellLinkedList()], a body relation's
    [updateConfiguration()], and output. *)
Inductive event : Type :=
| Dynamics (name : string)
| UpdateCellLinkedList (body : string)
| UpdateConfiguration (relation : string)
| Output (name : string).

(** One pass of the loop [while (relaxation_time < Dt)] of
    shell_shell_collision_bugFix.cpp, entered with the counter [ite].  By
    their declarations in [main], [upperPlate_contact] is the relation of
    [upperPlate] with the contact body [wall_boundary], and
    [wall_upperPlate_contact] that of [wall_boundary] with the contact body
    [upperPlate]. *)
Definition collision_step (ite : Z) : list event :=
  [Dynamics "upperPlate_initialize_timestep"; Dynamics "wall_initialize_timestep"]
  ++ (if (ite mod 100 =? 0)%Z then [Output "cout"] else [])
  ++ [Dynamics "upperPlate_update_contact_density";
      Dynamics "upperPlate_compute_solid_contact_forces";
      Dynamics "wall_upperPlate_update_contact_density";
      Dynamics "wall_compute_solid_contact_forces";
      Dynamics "upperPlate_stress_relaxation_first_half";
      Dynamics "upperPlate_position_damping";
      Dynamics "upperPlate_rotation_damping";
      Dynamics "upperPlate_stress_relaxation_second_half";
      Dynamics "wall_stress_relaxation_first_half";
      Dynamics "constrain_holder";
      Dynamics "wall_position_damping";
      Dynamics "wall_rotation_damping";
      Dynamics "constrain_holder";
      Dynamics "wall_stress_relaxation_second_half";
      UpdateCellLinkedList "upperPlate";
      UpdateConfiguration "upperPlate_contact";
      UpdateCellLinkedList "wall_boundary";
      UpdateConfiguration "wall_upperPlate_contact";
      Dynamics "upperPlate_get_time_step_size"].

(** In the trace [t], event [e1] comes before event [e2]. *)
Definition precedes (t : list event) (e1 e2 : event) : Prop :=
  exists i j, t !! i = Some e1 /\ t !! j = Some e2 /\ (i < j)%nat.

End ContactDriver.

(** ** The steady heat-flux case (heat_flux_steady.cpp) *)

Module HeatFluxSteady.
Import Driver.

(** Global parameters of the case. *)
Definition L : Real := 1.0%Q.
Definition H : Real := 1.0%Q.
Definition left_temperature : Real := 300.0%Q.
Definition right_temperature : Real := 350.0%Q.
Definition heat_flux : Real := 2000.0%Q.

(** The arrays [WallBoundaryInitialCondition] holds references to;
    [species_n_phi_] is [species_n_[phi_]].  A position has its first two
    components in use. *)
Record WallBoundaryData : Type := mkWallBoundaryData {
  pos_ : list Vecd;
  species_n_phi_ : list Real;
  heat_flux_ : list Real
}.

(** A bound [c * L] of a region as the code computes it: the [double] of
    the literal [c] times [L], rounded; [0.7 * L] is
    [0.6999999999999999555910790149937...], below seven tenths. *)
Definition region_bound (c : Real) : Real := binary64 (binary64 c * L).

(** The regions the three conditions of [update] test. *)
Definition left_temperature_region (pos_i : Vecd) : bool :=
  Qlt_bool H pos_i.1.2 && Qlt_bool (region_bound 0.3) pos_i.1.1
  && Qlt_bool pos_i.1.1 (region_bound 0.4).
Definition right_temperature_region (pos_i : Vecd) : bool :=
  Qlt_bool H pos_i.1.2 && Qlt_bool (region_bound 0.6) pos_i.1.1
  && Qlt_bool pos_i.1.1 (region_bound 0.7).
Definition heat_flux_region (pos_i : Vecd) : bool :=
  Qlt_bool pos_i.1.2 0 && Qlt_bool (region_bound 0.45) pos_i.1.1
  && Qlt_bool pos_i.1.1 (region_bound 0.55).

(** [WallBoundaryInitialCondition::update] of heat_flux_steady.cpp. *)
Definition WallBoundaryInitialCondition_update (d : WallBoundaryData) (index_i : nat)
    (dt : Real) : outcome WallBoundaryData :=
  phi ← write (species_n_phi_ d) index_i (- 0.0)%Q;
  pos_i ← read (pos_ d) index_i;
  phi ← (if left_temperature_region pos_i
         then write phi index_i left_temperature else Ok phi);
  phi ← (if right_temperature_region pos_i
         then write phi index_i right_temperature else Ok phi);
  if heat_flux_region pos_i
  then
    heat_flux' ← write (heat_flux_ d) index_i heat_flux;
    phi ← write phi index_i 400%Q;
    Ok {| pos_ := pos_ d; species_n_phi_ := phi; heat_flux_ := heat_flux' |}
  else Ok {| pos_ := pos_ d; species_n_phi_ := phi; heat_flux_ := heat_flux_ d |}.

(** One pass of the loop [while (maximum_residual_T[1] > 1e-3 * 50)] of
    [main], entered with the counter [ite]. *)
Definition relaxation_step (ite : Z) : list event :=
  [Other "get_time_step_size"]
  ++ (if (ite mod 500 =? 0)%Z
      then [Other "write_states"; Other "write_solid_temperature"; Other "cout";
            Other "calculate_averaged_temperature"]
      else [])
  ++ [Interaction "temperature_relaxation"; Interaction "temperature_splitting_bc";
      Other "calculate_averaged_local_residual";
      Other "calculate_maximum_local_residual";
      Interaction "update_temperature_pde_residual";
      Other "calculate_maximum_global_residual"]
  ++ (if ((ite + 1) mod 1000 =? 0)%Z then [Other "restart_io"] else []).

(** The loop of [main].  The reduction [calculate_maximum_global_residual]
    is a floating-point computation over the particles: [residual ite] stands
    for its result in the pass entered with the counter [ite].  [fuel] bounds
    the number of passes. *)
Fixpoint relaxation_loop (fuel : nat) (residual : Z -> Real) (ite : Z)
    (maximum_residual_T_1 : Real) : list event :=
  match fuel with
  | O => []
  | S fuel' =>
      if Qlt_bool (1e-3 * 50)%Q maximum_residual_T_1
      then relaxation_step ite
           ++ relaxation_loop fuel' residual (ite + 1)%Z (residual ite)
      else []
  end.

(** The time stepping of [main]: [maximum_residual_T] is initialised to
    [(0.0, 0.0)], and the counter to the restart step. *)
Definition time_stepping (fuel : nat) (residual : Z -> Real) (restart_step : Z)
  : list event :=
  relaxation_loop fuel residual restart_step 0.0%Q.

(** Wall particles: above the domain at the left, above it at the right,
    below it in the middle, above it outside the regions, and above it at
    the [double] of [0.7], the bound of the right region.  The coordinates
    are [double] values. *)
Definition wall_particles : WallBoundaryData :=
  {| pos_ := [(0.375, 1.0078125, 0); (0.625, 1.0078125, 0); (0.5, -0.0078125, 0);
              (0.125, 1.0078125, 0); (binary64 0.7, 1.0078125, 0)]%Q;
     species_n_phi_ := [7; 7; 7; 7; 7]%Q;
     heat_flux_ := [0; 0; 0; 0; 0]%Q |}.

End HeatFluxSteady.

(* ===================================================================== *)
(** * Part II: properties                                                 *)
(* ===================================================================== *)

(** ** Basic facts about the model's primitives *)

Lemma Qlt_bool_true (a b : Q) : Qlt_bool a b = true <-> (a < b)%Q.
Proof.
  unfold Qlt_bool. rewrite negb_true_iff, <- not_true_iff_false, Qle_bool_iff.
  split; [apply Qnot_le_lt | apply Qlt_not_le].
Qed.

Lemma Qlt_bool_false (a b : Q) : Qlt_bool a b = false <-> (b <= a)%Q.
Proof.
  unfold Qlt_bool. rewrite negb_false_iff. apply Qle_bool_iff.
Qed.

Lemma read_Ok {A : Type} (v : list A) (i : nat) (a : A) :
  read v i = Ok a <-> v !! i = Some a.
Proof.
  unfold read. destruct (v !! i); split; intros E; inversion E; reflexivity.
Qed.

Lemma read_not_div {A : Type} (v : list A) (i : nat) : read v i <> DivisionByZero.
Proof. unfold read. destruct (v !! i); discriminate. Qed.

Lemma write_Ok {A : Type} (v v' : list A) (i : nat) (a : A) :
  write v i a = Ok v' <-> (i < length v)%nat /\ v' = <[i := a]> v.
Proof.
  unfold write. destruct (decide (i < length v)%nat); split.
  - intros E. inversion E. auto.
  - intros [_ ->]. reflexivity.
  - discriminate.
  - intros [? _]. contradiction.
Qed.

Lemma write_not_div {A : Type} (v : list A) (i : nat) (a : A) :
  write v i a <> DivisionByZero.
Proof. unfold write. destruct (decide _); discriminate. Qed.

Lemma real_div_Ok (a b q : Real) :
  real_div a b = Ok q <-> ~ (b == 0)%Q /\ q = (a / b)%Q.
Proof.
  unfold real_div. destruct (Qeq_bool b 0) eqn:E.
  - apply Qeq_bool_iff in E. split; [discriminate | intros [? _]; contradiction].
  - apply Qeq_bool_neq in E. split.
    + intros E'. inversion E'. auto.
    + intros [_ ->]. reflexivity.
Qed.

Lemma real_div_nonzero (a b : Real) : ~ (b == 0)%Q -> real_div a b = Ok (a / b)%Q.
Proof. intros. apply real_div_Ok. auto. Qed.

Lemma bind_Ok {A B : Type} (c : outcome A) (k : A -> outcome B) (b : B) :
  (c ≫= k) = Ok b <-> exists a, c = Ok a /\ k a = Ok b.
Proof.
  destruct c; simpl; split.
  - eauto.
  - intros (a' & E & ?). inversion E. subst. assumption.
  - discriminate.
  - intros (? & ? & _). discriminate.
  - discriminate.
  - intros (? & ? & _). discriminate.
Qed.

Lemma for_each_app {S A : Type} (body : S -> A -> outcome S) (l1 l2 : list A) (st : S) :
  for_each body (l1 ++ l2) st = (for_each body l1 st ≫= for_each body l2).
Proof.
  revert st. induction l1 as [|x l1 IH]; intros st; simpl; [reflexivity|].
  destruct (body st x); simpl; auto.
Qed.

(** An invariant of the loop body is an invariant of the loop. *)
Lemma for_each_invariant {S A : Type} (P : S -> Prop) (body : S -> A -> outcome S)
    (l : list A) (st st' : S) :
  (forall s x s', P s -> body s x = Ok s' -> P s') ->
  P st -> for_each body l st = Ok st' -> P st'.
Proof.
  intros Hbody. revert st. induction l as [|x l IH]; intros st HP E; simpl in E.
  - inversion E. subst. assumption.
  - apply bind_Ok in E as (s1 & E1 & E2). eauto.
Qed.

Lemma bind_not_div {A B : Type} (c : outcome A) (k : A -> outcome B) :
  c <> DivisionByZero -> (forall a, c = Ok a -> k a <> DivisionByZero) ->
  (c ≫= k) <> DivisionByZero.
Proof.
  intros Hc Hk. destruct c; simpl; [apply Hk; reflexivity | contradiction | discriminate].
Qed.

Lemma for_each_not_div {S A : Type} (body : S -> A -> outcome S) (l : list A) (st : S) :
  (forall s x, x ∈ l -> body s x <> DivisionByZero) ->
  for_each body l st <> DivisionByZero.
Proof.
  revert st. induction l as [|x l IH]; intros st Hbody; simpl; [discriminate|].
  apply bind_not_div.
  - apply Hbody. left.
  - intros s _. apply IH. intros s' y Hy. apply Hbody. right. assumption.
Qed.

Lemma vec_div_not_div (a : Vecd) (s : Real) :
  ~ (s == 0)%Q -> vec_div a s <> DivisionByZero.
Proof.
  intros Hs. destruct a as [[ax ay] az]. unfold vec_div.
  rewrite !real_div_nonzero by assumption. discriminate.
Qed.

Lemma for_each_swap {S A : Type} (body : S -> A -> outcome S) (l l' : list A) :
  (forall s x y s', (body s x ≫= fun s1 => body s1 y) = Ok s' ->
                    (body s y ≫= fun s1 => body s1 x) = Ok s') ->
  Permutation l l' ->
  forall s s', for_each body l s = Ok s' -> for_each body l' s = Ok s'.
Proof.
  intros Hswap Hperm. induction Hperm as [|x l l' _ IH|x y l|l l' l'' _ IH1 _ IH2];
    intros s s' E.
  - assumption.
  - simpl in *. apply bind_Ok in E as (s1 & E1 & E2).
    rewrite E1. simpl. auto.
  - simpl in *. apply bind_Ok in E as (s1 & E1 & E2).
    apply bind_Ok in E2 as (s2 & E2 & E3).
    assert (Hxy : (body s x ≫= fun s1 => body s1 y) = Ok s2).
    { apply Hswap. rewrite E1. simpl. assumption. }
    apply bind_Ok in Hxy as (s3 & E4 & E5).
    rewrite E4. simpl. rewrite E5. simpl. assumption.
  - auto.
Qed.

(** ** Rounding to [double] *)

Section Binary64.
Open Scope Q_scope.

(** [round_half_even] returns the floor or the integer after it, whichever
    is within one half. *)
Lemma round_half_even_cases (y : Q) :
  (round_half_even y = Qfloor y /\ y - inject_Z (Qfloor y) <= 1 # 2) \/
  (round_half_even y = (Qfloor y + 1)%Z /\ 1 # 2 <= y - inject_Z (Qfloor y)).
Proof.
  unfold round_half_even.
  destruct (Qcompare_spec (y - inject_Z (Qfloor y)) (1 # 2)) as [E|E|E].
  - destruct (Z.even (Qfloor y)); [left | right]; split; try reflexivity; lra.
  - left. split; [reflexivity | lra].
  - right. split; [reflexivity | lra].
Qed.

(** The nearest integer is within one half. *)
Lemma round_half_even_error (y : Q) :
  inject_Z (round_half_even y) - (1 # 2) <= y /\
  y <= inject_Z (round_half_even y) + (1 # 2).
Proof.
  pose proof (Qfloor_le y) as Hlo. pose proof (Qlt_floor y) as Hhi.
  rewrite inject_Z_plus in Hhi.
  destruct (round_half_even_cases y) as [[-> H]|[-> H]];
    rewrite ?inject_Z_plus; change (inject_Z 1) with 1 in *; lra.
Qed.

(** Rounding does not cross an integer. *)
Lemma round_half_even_ge (y : Q) (k : Z) :
  inject_Z k <= y -> (k <= round_half_even y)%Z.
Proof.
  intros H. apply Qfloor_resp_le in H. rewrite Qfloor_Z in H.
  destruct (round_half_even_cases y) as [[-> _]|[-> _]]; lia.
Qed.

Lemma round_half_even_le (y : Q) (k : Z) :
  y <= inject_Z k -> (round_half_even y <= k)%Z.
Proof.
  intros H.
  destruct (round_half_even_cases y) as [[-> _]|[-> Hhalf]].
  - apply Qfloor_resp_le in H. rewrite Qfloor_Z in H. assumption.
  - assert (Hlt : inject_Z (Qfloor y) < inject_Z k) by lra.
    rewrite <- Zlt_Qlt in Hlt. lia.
Qed.

Lemma pow2_pos (z : Z) : 0 < 2 ^ z.
Proof. apply Qpower_0_lt. reflexivity. Qed.

Lemma pow2_plus (a b : Z) : 2 ^ (a + b) == 2 ^ a * 2 ^ b.
Proof. apply Qpower_plus. discriminate. Qed.

Lemma pow2_le (a b : Z) : (a <= b)%Z -> 2 ^ a <= 2 ^ b.
Proof. intros H. apply Qpower_le_compat_l; [assumption | discriminate]. Qed.

(** [binade x] is the exponent of the power of two at or below [x]. *)
Lemma binade_spec (x : Q) :
  0 < x -> 2 ^ binade x <= x /\ x < 2 ^ (binade x + 1).
Proof.
  intros Hx. destruct x as [n d].
  assert (Hn : (0 < n)%Z).
  { unfold Qlt in Hx. simpl in Hx. lia. }
  destruct (Z.log2_spec n Hn) as [Hn1 Hn2].
  destruct (Z.log2_spec (Zpos d) eq_refl) as [Hd1 Hd2].
  pose proof (Z.log2_nonneg n) as Hln. pose proof (Z.log2_nonneg (Zpos d)) as Hld.
  unfold binade. simpl Qnum. simpl Qden.
  set (ln := Z.log2 n) in *. set (ld := Z.log2 (Zpos d)) in *.
  assert (EN : inject_Z (2 ^ ln) == 2 ^ ln) by (apply Zpower_Qpower; assumption).
  assert (ED : inject_Z (2 ^ ld) == 2 ^ ld) by (apply Zpower_Qpower; assumption).
  rewrite Zle_Qle, EN in Hn1. rewrite Zle_Qle, ED in Hd1.
  assert (EN' : inject_Z (2 ^ Z.succ ln) == 2 * 2 ^ ln).
  { rewrite Zpower_Qpower by lia. unfold Z.succ. rewrite pow2_plus. 
    change (2 ^ 1) with 2. ring. }
  assert (ED' : inject_Z (2 ^ Z.succ ld) == 2 * 2 ^ ld).
  { rewrite Zpower_Qpower by lia. unfold Z.succ. rewrite pow2_plus.
    change (2 ^ 1) with 2. ring. }
  rewrite Zlt_Qlt, EN' in Hn2. rewrite Zlt_Qlt, ED' in Hd2.
  pose proof (pow2_pos ln) as PN. pose proof (pow2_pos ld) as PD.
  assert (Ex : (n # d) * inject_Z (Zpos d) == inject_Z n).
  { rewrite (Qmake_Qdiv n d). field. discriminate. }
  set (x := n # d) in *. set (N := inject_Z n) in *. set (Dd := inject_Z (Zpos d)) in *.
  assert (Ee : 2 ^ (ln - ld) * 2 ^ ld == 2 ^ ln).
  { rewrite <- pow2_plus. replace (ln - ld + ld)%Z with ln by lia. reflexivity. }
  assert (Ee1 : 2 ^ (ln - ld + 1) == 2 * 2 ^ (ln - ld)).
  { rewrite pow2_plus. change (2 ^ 1) with 2. ring. }
  assert (Ee2 : 2 * 2 ^ (ln - ld - 1) == 2 ^ (ln - ld)).
  { replace (ln - ld)%Z with ((ln - ld - 1) + 1)%Z at 2 by lia.
    rewrite pow2_plus. change (2 ^ 1) with 2. ring. }
  pose proof (pow2_pos (ln - ld)) as PE. pose proof (pow2_pos (ln - ld - 1)) as PE'.
  destruct (Qle_bool (2 ^ (ln - ld)) x) eqn:E.
  - apply Qle_bool_iff in E. split; [assumption|].
    rewrite Ee1. nra.
  - assert (E' : x < 2 ^ (ln - ld)).
    { apply Qnot_le_lt. intros H. apply Qle_bool_iff in H. congruence. }
    replace (ln - ld - 1 + 1)%Z with (ln - ld)%Z by lia.
    split; [|assumption]. nra.
Qed.

Lemma binary64_positive_eq (x : Q) :
  binary64_positive x ==
  inject_Z (round_half_even (x / 2 ^ (Z.max (binade x) (-1022) - 52)))
  * 2 ^ (Z.max (binade x) (-1022) - 52).
Proof. unfold binary64_positive. apply Qred_correct. Qed.

Lemma binary64_positive_nonneg (x : Q) : 0 < x -> 0 <= binary64_positive x.
Proof.
  intros Hx. rewrite binary64_positive_eq.
  set (ulp := 2 ^ (Z.max (binade x) (-1022) - 52)).
  assert (Hulp : 0 < ulp) by apply pow2_pos.
  assert (Hy : inject_Z 0 <= x / ulp).
  { apply Qle_shift_div_l; [assumption|]. change (inject_Z 0) with 0. lra. }
  apply round_half_even_ge in Hy. rewrite Zle_Qle in Hy. change (inject_Z 0) with 0 in Hy.
  apply Qmult_le_0_compat; lra.
Qed.

(** The rounding error is at most half a unit in the last place: the unit
    roundoff times [x] in the normal range, [binary64_underflow] below it. *)
Lemma binary64_positive_error (x : Q) :
  0 < x ->
  (1 - binary64_unit_roundoff) * x - binary64_underflow <= binary64_positive x /\
  binary64_positive x <= (1 + binary64_unit_roundoff) * x + binary64_underflow.
Proof.
  intros Hx. rewrite binary64_positive_eq.
  destruct (binade_spec x Hx) as [Hlo _].
  set (e := binade x) in *.
  set (ulp := 2 ^ (Z.max e (-1022) - 52)).
  assert (Hulp : 0 < ulp) by apply pow2_pos.
  destruct (round_half_even_error (x / ulp)) as [H1 H2].
  set (r := inject_Z (round_half_even (x / ulp))) in *.
  assert (Ex : x / ulp * ulp == x) by (field; lra).
  set (y := x / ulp) in *.
  assert (Hhalf : ulp * (1 # 2) <= binary64_unit_roundoff * x + binary64_underflow).
  { assert (Hu : 0 <= binary64_unit_roundoff) by (apply Qpower_0_le; discriminate).
    assert (He : 0 <= binary64_underflow) by (apply Qpower_0_le; discriminate).
    unfold ulp. destruct (Z.max_spec e (-1022)) as [[Hc ->]|[Hc ->]].
    - assert (E : 2 ^ (-1022 - 52) * (1 # 2) == binary64_underflow)
        by (apply Qeq_bool_iff; vm_compute; reflexivity).
      rewrite E. nra.
    - replace (e - 52)%Z with (e + (-52))%Z by lia. rewrite pow2_plus.
      assert (E : 2 ^ (-52) * (1 # 2) == binary64_unit_roundoff)
        by (apply Qeq_bool_iff; vm_compute; reflexivity).
      rewrite <- Qmult_assoc, E. nra. }
  nra.
Qed.

Lemma binary64_largest_bounds :
  2 ^ 1023 <= binary64_largest /\ binary64_largest < 2 ^ 1024 /\
  binary64_largest == inject_Z (2 ^ 53 - 1) * 2 ^ 971.
Proof.
  split; [|split].
  - apply Qle_bool_iff. vm_compute. reflexivity.
  - apply Qlt_alt. vm_compute. reflexivity.
  - apply Qeq_bool_iff. vm_compute. reflexivity.
Qed.

(** Up to the largest [double], the result is at most the largest
    [double]. *)
Lemma binary64_positive_range (x : Q) :
  0 < x -> x <= binary64_largest -> binary64_positive x <= binary64_largest.
Proof.
  intros Hx Hmax. rewrite binary64_positive_eq.
  destruct (binade_spec x Hx) as [Hlo Hhi].
  destruct binary64_largest_bounds as (HL1 & HL2 & HL3).
  set (e := binade x) in *.
  assert (He : (e < 1024)%Z).
  { apply (Qpower_lt_compat_l_inv 2); [lra | reflexivity]. }
  set (E := (Z.max e (-1022) - 52)%Z).
  assert (HE : (e - 52 <= E <= 971)%Z) by (unfold E; lia).
  pose proof (pow2_pos E) as Hulp.
  destruct (Z.eq_dec E 971%Z) as [HE971|HE971].
  - rewrite HE971 in *.
    assert (Hy : x / 2 ^ 971 <= inject_Z (2 ^ 53 - 1)).
    { apply Qle_shift_div_r; [assumption|]. lra. }
    apply round_half_even_le in Hy. rewrite Zle_Qle in Hy. nra.
  - assert (Hx' : x < 2 ^ 53 * 2 ^ E).
    { rewrite <- pow2_plus. apply Qlt_le_trans with (1 := Hhi). apply pow2_le. lia. }
    assert (Hy : x / 2 ^ E <= inject_Z (2 ^ 53)).
    { apply Qle_shift_div_r; [assumption|].
      assert (Ez : inject_Z (2 ^ 53) == 2 ^ 53) by (apply Zpower_Qpower; lia).
      rewrite Ez. lra. }
    apply round_half_even_le in Hy. rewrite Zle_Qle in Hy.
    assert (Ez : inject_Z (2 ^ 53) == 2 ^ 53) by (apply Zpower_Qpower; lia).
    rewrite Ez in Hy.
    assert (Hp : 2 ^ 53 * 2 ^ E <= 2 ^ 1023).
    { rewrite <- pow2_plus. apply pow2_le. lia. }
    set (r := inject_Z (round_half_even (x / 2 ^ E))) in *.
    set (p53 := 2 ^ 53) in *. set (pE := 2 ^ E) in *. set (p1023 := 2 ^ 1023) in *.
    assert (r * pE <= p53 * pE) by nra. lra.
Qed.

(** Beyond the largest [double], the result is not below it. *)
Lemma binary64_positive_overflow (x : Q) :
  binary64_largest <= x -> binary64_largest <= binary64_positive x.
Proof.
  intros Hmax. destruct binary64_largest_bounds as (HL1 & HL2 & HL3).
  assert (Hx : 0 < x).
  { pose proof (pow2_pos 1023). lra. }
  rewrite binary64_positive_eq.
  destruct (binade_spec x Hx) as [Hlo Hhi].
  set (e := binade x) in *.
  assert (He : (1023 < e + 1)%Z).
  { apply (Qpower_lt_compat_l_inv 2); [lra | reflexivity]. }
  replace (Z.max e (-1022)) with e by lia.
  pose proof (pow2_pos (e - 52)) as Hulp.
  destruct (Z.eq_dec e 1023%Z) as [He1023|He1023].
  - rewrite He1023 in *. change (1023 - 52)%Z with 971%Z in *.
    assert (Hy : inject_Z (2 ^ 53 - 1) <= x / 2 ^ 971).
    { apply Qle_shift_div_l; [assumption|]. lra. }
    apply round_half_even_ge in Hy. rewrite Zle_Qle in Hy. nra.
  - assert (Ee : 2 ^ 52 * 2 ^ (e - 52) == 2 ^ e).
    { rewrite <- pow2_plus. replace (52 + (e - 52))%Z with e by lia. reflexivity. }
    assert (Ez : inject_Z (2 ^ 52) == 2 ^ 52) by (apply Zpower_Qpower; lia).
    assert (Hy : inject_Z (2 ^ 52) <= x / 2 ^ (e - 52)).
    { apply Qle_shift_div_l; [assumption|]. rewrite Ez. lra. }
    apply round_half_even_ge in Hy. rewrite Zle_Qle in Hy. rewrite Ez in Hy.
    assert (Hp : 2 ^ 1024 <= 2 ^ e) by (apply pow2_le; lia).
    set (r := inject_Z (round_half_even (x / 2 ^ (e - 52)))) in *.
    set (p52 := 2 ^ 52) in *. set (pE := 2 ^ (e - 52)) in *.
    set (p1024 := 2 ^ 1024) in *. set (pe := 2 ^ e) in *.
    assert (p52 * pE <= r * pE) by nra. lra.
Qed.

(** [binary64] satisfies what the rounding analysis asks of a rounding
    function. *)
Lemma binary64_floating_point :
  FloatingPoint binary64 binary64_unit_roundoff binary64_underflow binary64_largest.
Proof.
  assert (Hu : 0 <= binary64_unit_roundoff /\ binary64_unit_roundoff <= 1 # 8).
  { split; apply Qle_bool_iff; vm_compute; reflexivity. }
  assert (He : 0 <= binary64_underflow /\ binary64_underflow <= 1 # 8).
  { split; apply Qle_bool_iff; vm_compute; reflexivity. }
  assert (HW : 1 <= binary64_largest) by (apply Qle_bool_iff; vm_compute; reflexivity).
  split; try assumption.
  - intros x Hx. unfold binary64. destruct (Qcompare_spec x 0) as [E|E|E].
    + lra.
    + lra.
    + apply binary64_positive_nonneg. assumption.
  - intros x Hx. unfold binary64. destruct (Qcompare_spec x 0) as [E|E|E].
    + lra.
    + assert (0 <= binary64_positive (- x)) by (apply binary64_positive_nonneg; lra). lra.
    + lra.
  - intros x Hx _. unfold binary64. destruct (Qcompare_spec x 0) as [E|E|E].
    + nra.
    + lra.
    + apply binary64_positive_error. assumption.
  - intros x _ Hx. unfold binary64. destruct (Qcompare_spec x 0) as [E|E|E].
    + nra.
    + destruct (binary64_positive_error (- x)) as [H1 H2]; [lra|]. lra.
    + lra.
  - intros x Hlo Hhi. unfold binary64. destruct (Qcompare_spec x 0) as [E|E|E].
    + lra.
    + assert (0 <= binary64_positive (- x)) by (apply binary64_positive_nonneg; lra).
      assert (binary64_positive (- x) <= binary64_largest)
        by (apply binary64_positive_range; lra).
      lra.
    + assert (0 <= binary64_positive x) by (apply binary64_positive_nonneg; lra).
      assert (binary64_positive x <= binary64_largest)
        by (apply binary64_positive_range; lra).
      lra.
  - intros x Hx. unfold binary64. destruct (Qcompare_spec x 0) as [E|E|E].
    + lra.
    + lra.
    + apply binary64_positive_overflow. assumption.
Qed.

(** Exact arithmetic rounds nothing. *)
Lemma exact_floating_point (Omega : Real) :
  1 <= Omega -> FloatingPoint (fun x => x) 0 0 Omega.
Proof. intros HW. split; intros; lra. Qed.

End Binary64.

(** ** The floor of the diffusion coefficient *)

Section CoefficientEvolutionProperties.
Import CoefficientEvolution.
Open Scope Q_scope.
Variable fl : Real -> Real.
Variables u eta_min Omega : Real.
Hypothesis Hfl : FloatingPoint fl u eta_min Omega.

(** The limited negative increment undershoots the floor [F] by rounding
    errors only. *)
Lemma limited_increment_bound (F eta X : Real) :
  0 <= F -> F <= eta -> eta <= Omega -> - Omega <= X -> fl X < 0 ->
  F - 5 * u * eta - 4 * eta_min * (1 - X)
  <= fl (eta + fl (fl X * SMIN (fl (fl (F - eta) / fl X)) 1)).
Proof.
  intros HF Heta HetaW HX Hinc.
  destruct Hfl as [[Hu0 Hu] [He0 He] HW Hnn Hnp Herrp Herrn Hrange Hover].
  assert (HX0 : X < 0).
  { destruct (Qlt_le_dec X 0) as [|H0]; [assumption|]. specialize (Hnn X H0). lra. }
  set (inc := fl X) in *.
  assert (Hinc_lo : (1 + u) * X - eta_min <= inc) by (apply Herrn; lra).
  assert (Hinc_W : - Omega <= inc) by (apply Hrange; lra).
  set (a := fl (F - eta)).
  assert (Ha_lo : (1 + u) * (F - eta) - eta_min <= a) by (apply Herrn; lra).
  assert (Ha0 : a <= 0) by (apply Hnp; lra).
  set (x2 := a / inc).
  assert (Hx2 : x2 * inc == a) by (unfold x2; field; lra).
  assert (Hx2_0 : 0 <= x2).
  { destruct (Qlt_le_dec x2 0); [|assumption]. nra. }
  set (q := fl x2).
  assert (Hq0 : 0 <= q) by (apply Hnn; assumption).
  set (theta := SMIN q 1).
  assert (Hx3 : (1 + u) * a + eta_min * inc <= inc * theta /\
                inc <= inc * theta /\ inc * theta <= 0).
  { unfold theta, SMIN. destruct (Qlt_bool 1 q) eqn:E.
    - apply Qlt_bool_true in E.
      destruct (Qlt_le_dec Omega x2) as [Hbig|Hsmall].
      + assert (a <= inc) by nra. nra.
      + destruct (Herrp x2 Hx2_0 Hsmall) as [_ Hq_hi]. fold q in Hq_hi.
        assert (inc * ((1 + u) * x2 + eta_min) <= inc * 1) by nra.
        nra.
    - apply Qlt_bool_false in E.
      destruct (Qlt_le_dec Omega x2) as [Hbig|Hsmall].
      + assert (Omega <= q) by (apply Hover; lra).
        assert (a <= inc) by nra.
        assert (q == 1) by lra. nra.
      + destruct (Herrp x2 Hx2_0 Hsmall) as [_ Hq_hi]. fold q in Hq_hi.
        assert (inc * ((1 + u) * x2 + eta_min) <= inc * q) by nra.
        nra. }
  destruct Hx3 as (Hx3_lo & Hx3_inc & Hx3_0).
  set (x3 := inc * theta) in *.
  set (p := fl x3).
  assert (Hp_lo : (1 + u) * x3 - eta_min <= p) by (apply Herrn; lra).
  assert (Hp0 : p <= 0) by (apply Hnp; lra).
  assert (Hp_W : - Omega <= p) by (apply Hrange; lra).
  assert (HeX : 0 <= eta_min * (- X)) by (apply Qmult_le_0_compat; lra).
  assert (HuF : 0 <= u * F) by (apply Qmult_le_0_compat; lra).
  assert (Hueta : 0 <= u * eta) by (apply Qmult_le_0_compat; lra).
  set (D := eta - F) in *.
  assert (HD : 0 <= D) by (unfold D; lra).
  set (t := 1 + u).
  assert (Ht : 1 <= t /\ t <= 9 # 8) by (unfold t; lra).
  assert (Ha' : 0 <= a + t * D + eta_min) by (unfold D, t; lra).
  assert (Hi' : 0 <= inc - t * X + eta_min) by (unfold t; lra).
  assert (Hx' : 0 <= x3 - t * a - eta_min * inc) by (unfold t; lra).
  assert (Hp' : 0 <= p - t * x3 + eta_min) by (unfold t; lra).
  assert (Ht0 : 0 <= t) by lra.
  assert (Htt : 0 <= t * t) by (apply Qmult_le_0_compat; lra).
  assert (Hte : 0 <= t * eta_min) by (apply Qmult_le_0_compat; lra).
  pose proof (Qmult_le_0_compat _ _ Ht0 Hx') as M3.
  pose proof (Qmult_le_0_compat _ _ Htt Ha') as M1.
  pose proof (Qmult_le_0_compat _ _ Hte Hi') as M2.
  assert (P0 : - (t * t * t * D) - t * t * eta_min + t * t * eta_min * X
               - t * eta_min * eta_min - eta_min <= p) by lra.
  assert (c2 : 0 <= (81 # 64) - t * t).
  { assert (0 <= ((9 # 8) - t) * ((9 # 8) + t)) by (apply Qmult_le_0_compat; lra). lra. }
  assert (c1 : 0 <= 1 + (7 # 2) * u - t * t * t).
  { assert (0 <= u * ((1 # 8) - u)) by (apply Qmult_le_0_compat; lra).
    assert (0 <= u * (u * ((1 # 8) - u))) by (apply Qmult_le_0_compat; lra).
    unfold t. lra. }
  assert (c4 : 0 <= (9 # 64) - t * eta_min).
  { assert (0 <= ((9 # 8) - t) * eta_min) by (apply Qmult_le_0_compat; lra). lra. }
  assert (c5 : 0 <= 1 + 5 * u - t * (1 + (7 # 2) * u)).
  { assert (0 <= u * ((1 # 8) - u)) by (apply Qmult_le_0_compat; lra). unfold t. lra. }
  pose proof (Qmult_le_0_compat _ _ HD c1) as K1.
  pose proof (Qmult_le_0_compat _ _ He0 c2) as K2.
  pose proof (Qmult_le_0_compat _ _ HeX c2) as K3.
  pose proof (Qmult_le_0_compat _ _ He0 c4) as K4.
  assert (P1 : - ((1 + (7 # 2) * u) * D) - (5 # 2) * (eta_min * (1 - X)) <= p) by lra.
  destruct (Qlt_le_dec (eta + p) 0) as [Hneg|Hpos].
  - destruct (Herrn (eta + p)) as [Hlo _]; [lra | lra |]. fold t in Hlo.
    assert (Hp1 : 0 <= p + (1 + (7 # 2) * u) * D + (5 # 2) * (eta_min * (1 - X))) by lra.
    pose proof (Qmult_le_0_compat _ _ Ht0 Hp1) as N1.
    pose proof (Qmult_le_0_compat _ _ HD c5) as N2.
    assert (Hex : 0 <= eta_min * (1 - X)) by lra.
    assert (Ht9 : 0 <= (9 # 8) - t) by lra.
    pose proof (Qmult_le_0_compat _ _ Ht9 Hex) as N3.
    unfold D, t in *. lra.
  - destruct (Herrp (eta + p)) as [Hlo _]; [lra | lra |].
    assert (Hup : 0 <= u * (- p)) by (apply Qmult_le_0_compat; lra).
    unfold D, t in *. lra.
Qed.

(** An increment that is not negative is added as it is. *)
Lemma unlimited_increment_bound (F eta X : Real) :
  0 <= F -> F <= eta -> eta <= Omega -> 0 <= fl X ->
  F - u * eta - eta_min <= fl (eta + fl (fl X * 1)).
Proof.
  intros HF Heta HetaW Hinc.
  destruct Hfl as [[Hu0 Hu] [He0 He] HW Hnn Hnp Herrp Herrn Hrange Hover].
  assert (Hp : 0 <= fl (fl X * 1)) by (apply Hnn; lra).
  set (p := fl (fl X * 1)) in *.
  assert (Hueta : 0 <= u * eta) by (apply Qmult_le_0_compat; lra).
  destruct (Qlt_le_dec Omega (eta + p)) as [Hbig|Hsmall].
  - assert (Omega <= fl (eta + p)) by (apply Hover; lra). lra.
  - destruct (Herrp (eta + p)) as [Hlo _]; [lra | lra |].
    assert (0 <= (1 - u) * p) by (apply Qmult_le_0_compat; lra).
    lra.
Qed.

(** C8, amended: [CoefficientEvolutionExplicitTem::update] keeps the
    diffusion coefficient at or above its floor only up to rounding.  Let
    every operation keep the sign of its exact result, round it with a
    relative error of at most [u] plus an absolute error of at most
    [eta_min] while it is within the largest number [Omega], keep it within
    [Omega] then, and return at least [Omega] beyond it ([FloatingPoint];
    [binary64] does, by [binary64_floating_point]).  For every particle
    whose coefficient [eta_i] is at least the floor [0.01 + Eps] before
    the call and at most [Omega], with [Eps] not negative and an increment
    [change_rate_i * dt] that does not overflow, for either sign of the
    change rate and every [dt], the call returns and the coefficient is at
    least [0.01 + Eps - 5 u eta_i - 4 eta_min (1 + |change_rate_i dt|)]
    after it; in exact arithmetic ([u] and [eta_min] zero) this is the
    floor itself. *)
Theorem update_keeps_eta_floor (Eps : Real) (this : CoefficientEvolutionExplicitTem)
    (index_i : nat) (dt change_rate_i eta_i : Real) :
  change_rate_ this !! index_i = Some change_rate_i ->
  eta_ this !! index_i = Some eta_i ->
  0 <= Eps ->
  eta_floor fl Eps <= eta_i ->
  eta_i <= Omega ->
  - Omega <= change_rate_i * dt ->
  change_rate_i * dt <= Omega ->
  exists this' eta_i',
    update fl Eps this index_i dt = Ok this' /\
    eta_ this' !! index_i = Some eta_i' /\
    eta_floor fl Eps - 5 * u * eta_i - 4 * eta_min * (1 + Qabs (change_rate_i * dt))
    <= eta_i'.
Proof.
  intros Hrate Heta HEps Hfloor HetaW HXlo HXhi.
  assert (Hlen : (index_i < length (eta_ this))%nat) by (eapply lookup_lt_Some; eauto).
  assert (HF : 0 <= eta_floor fl Eps).
  { unfold eta_floor. apply (fl_nonneg _ _ _ _ Hfl).
    assert (0 <= fl 0.01) by (apply (fl_nonneg _ _ _ _ Hfl); lra). lra. }
  pose proof (unit_roundoff_small _ _ _ _ Hfl) as [Hu0 Hu].
  pose proof (underflow_small _ _ _ _ Hfl) as [He0 He].
  assert (Hueta : 0 <= u * eta_i) by (apply Qmult_le_0_compat; lra).
  set (X := change_rate_i * dt) in *. set (A := Qabs X).
  unfold update.
  apply read_Ok in Hrate. apply read_Ok in Heta. rewrite Hrate. simpl. rewrite Heta. simpl.
  fold X.
  destruct (Qlt_bool (fl X) 0) eqn:E.
  - apply Qlt_bool_true in E.
    rewrite real_div_nonzero by lra. simpl.
    unfold write. destruct (decide _); [|contradiction]. simpl.
    eexists _, _. split; [reflexivity|]. split; [simpl|].
    + apply list_lookup_insert_eq. assumption.
    + assert (HX0 : X <= 0).
      { destruct (Qlt_le_dec 0 X) as [H0|H0]; [|assumption].
        assert (0 <= fl X) by (apply (fl_nonneg _ _ _ _ Hfl); lra). lra. }
      assert (Habs : eta_min * A == eta_min * - X).
      { apply Qmult_comp; [reflexivity | apply Qabs_neg; assumption]. }
      pose proof (limited_increment_bound (eta_floor fl Eps) eta_i X
                    HF Hfloor HetaW HXlo E) as Hb.
      lra.
  - apply Qlt_bool_false in E. simpl.
    unfold write. destruct (decide _); [|contradiction]. simpl.
    eexists _, _. split; [reflexivity|]. split; [simpl|].
    + apply list_lookup_insert_eq. assumption.
    + pose proof (unlimited_increment_bound (eta_floor fl Eps) eta_i X
                    HF Hfloor HetaW E) as Hb.
      pose proof (Qabs_nonneg X) as Habs. fold A in Habs.
      assert (0 <= eta_min * A) by (apply Qmult_le_0_compat; lra).
      lra.
Qed.
End CoefficientEvolutionProperties.

(** C8 as stated fails in [double] arithmetic: a coefficient of one with the
    change rate [-3.25] and the time step one starts above the floor and
    ends below it. *)
Lemma update_rounds_below_eta_floor :
  (CoefficientEvolution.eta_floor binary64 binary64_epsilon <= 1)%Q /\
  (0 <= 1)%Q /\
  exists this' eta_i',
    CoefficientEvolution.update binary64 binary64_epsilon
      CoefficientEvolution.limited_particle 0 1%Q = Ok this' /\
    CoefficientEvolution.eta_ this' !! 0%nat = Some eta_i' /\
    (eta_i' < CoefficientEvolution.eta_floor binary64 binary64_epsilon)%Q.
Proof.
  split; [apply Qle_bool_iff; vm_compute; reflexivity|].
  split; [discriminate|].
  eexists _, _. split; [vm_compute; reflexivity|].
  split; [reflexivity|].
  apply Qlt_alt. vm_compute. reflexivity.
Qed.

Lemma update_keeps_eta_floor_witness :
  exists this' eta_i',
    CoefficientEvolution.update binary64 binary64_epsilon
      CoefficientEvolution.limited_particle 0 1%Q = Ok this' /\
    CoefficientEvolution.eta_ this' !! 0%nat = Some eta_i' /\
    (CoefficientEvolution.eta_floor binary64 binary64_epsilon
     - 5 * binary64_unit_roundoff * 1
     - 4 * binary64_underflow * (1 + Qabs (-3.25 * 1))
     <= eta_i')%Q.
Proof.
  apply (update_keeps_eta_floor binary64 binary64_unit_roundoff binary64_underflow
           binary64_largest binary64_floating_point binary64_epsilon
           CoefficientEvolution.limited_particle 0 1%Q (-3.25)%Q 1%Q).
  - reflexivity.
  - reflexivity.
  - apply Qle_bool_iff. vm_compute. reflexivity.
  - apply Qle_bool_iff. vm_compute. reflexivity.
  - apply Qle_bool_iff. vm_compute. reflexivity.
  - apply Qle_bool_iff. vm_compute. reflexivity.
  - apply Qle_bool_iff. vm_compute. reflexivity.
Defined.

(** ** The hardening parameter of the plastic solid *)

Section PlasticityProperties.
Import Plasticity.
Context `{LibM} {Matd : Type} `{EigenMatd Matd}.
Variable OneOverDimensions : Real.

Lemma relax_increment_nonneg (trial_function denominator : Real) :
  (0 < trial_function)%Q -> (0 < denominator)%Q ->
  (0 <= 0.5 * trial_function / denominator)%Q.
Proof.
  intros Ht Hd. apply Qle_shift_div_l; [assumption|]. lra.
Qed.

(** C9, amended: [PlasticConstitutiveRelation] never decreases the hardening
    parameter when the trial shear modulus is positive and stays positive
    after a third of the hardening modulus is added to it.  The call returns
    and the parameter of the particle is at least its value before the call. *)
Theorem hardening_parameter_never_decreases (this : HardeningPlasticSolid Matd)
    (F inverse_plastic_strain_i : Matd) (index_i : nat) (dt hardening_i : Real) :
  inverse_plastic_strain_ this !! index_i = Some inverse_plastic_strain_i ->
  hardening_parameter_ this !! index_i = Some hardening_i ->
  (0 < sqrt_2_over_3_ this)%Q ->
  (0 < trial_shear_modulus OneOverDimensions this F inverse_plastic_strain_i)%Q ->
  (0 < trial_shear_modulus OneOverDimensions this F inverse_plastic_strain_i
       + hardening_modulus_ this / 3.0)%Q ->
  exists stress this' hardening_i',
    PlasticConstitutiveRelation OneOverDimensions this F index_i dt
      = Ok (stress, this') /\
    hardening_parameter_ this' !! index_i = Some hardening_i' /\
    (hardening_i <= hardening_i')%Q.
Proof.
  intros Hips Hhard Hsqrt Hshear Hden.
  assert (Hlen1 : (index_i < length (inverse_plastic_strain_ this))%nat)
    by (eapply lookup_lt_Some; eauto).
  assert (Hlen2 : (index_i < length (hardening_parameter_ this))%nat)
    by (eapply lookup_lt_Some; eauto).
  unfold PlasticConstitutiveRelation, trial_shear_modulus, trial_normalized_be in *.
  apply read_Ok in Hips. apply read_Ok in Hhard.
  rewrite Hips. simpl. rewrite Hhard. simpl.
  match goal with |- context [Qlt_bool 0 ?t] => set (trial_function := t) end.
  destruct (Qlt_bool 0 trial_function) eqn:E.
  - apply Qlt_bool_true in E.
    rewrite real_div_nonzero by lra. simpl.
    unfold write at 1. destruct (decide _); [|contradiction]. simpl.
    unfold write. destruct (decide _); [|contradiction]. simpl.
    eexists _, _, _. split; [reflexivity|]. simpl. split.
    + apply list_lookup_insert_eq. assumption.
    + pose proof (relax_increment_nonneg _ _ E Hden) as Hinc.
      nra.
  - simpl. unfold write. destruct (decide _); [|contradiction]. simpl.
    eexists _, _, _. split; [reflexivity|]. simpl. split.
    + apply read_Ok. eassumption.
    + lra.
Qed.
End PlasticityProperties.

(** C9 as stated fails for a softening material: the trial shear modulus is
    positive, and the call lowers the hardening parameter from zero to a
    negative value. *)
Lemma hardening_parameter_decreases_on_softening :
  Plasticity.hardening_parameter_ Plasticity.softening_solid !! 0%nat = Some 0%Q /\
  (0 < @Plasticity.trial_shear_modulus ExactLibM Plasticity.Mat2d
         (Plasticity.Mat2dOps ExactLibM) 0.5 Plasticity.softening_solid
         Plasticity.simple_shear (Plasticity.mkMat2d 1 0 0 1))%Q /\
  exists stress this' hardening',
    @Plasticity.PlasticConstitutiveRelation ExactLibM Plasticity.Mat2d
        (Plasticity.Mat2dOps ExactLibM) 0.5
        Plasticity.softening_solid Plasticity.simple_shear 0 0.001
      = Ok (stress, this') /\
    Plasticity.hardening_parameter_ this' !! 0%nat = Some hardening' /\
    (hardening' < 0)%Q.
Proof.
  split; [reflexivity|]. split; [reflexivity|].
  eexists _, _, _. split; [vm_compute; reflexivity|].
  split; [reflexivity|]. reflexivity.
Qed.

Lemma hardening_parameter_never_decreases_witness :
  exists stress this' hardening',
    @Plasticity.PlasticConstitutiveRelation ExactLibM Plasticity.Mat2d
        (Plasticity.Mat2dOps ExactLibM) 0.5
        Plasticity.hardening_solid Plasticity.simple_shear 0 0.001
      = Ok (stress, this') /\
    Plasticity.hardening_parameter_ this' !! 0%nat = Some hardening' /\
    (0 <= hardening')%Q.
Proof.
  apply (@hardening_parameter_never_decreases ExactLibM Plasticity.Mat2d
           (Plasticity.Mat2dOps ExactLibM) 0.5 Plasticity.hardening_solid
           Plasticity.simple_shear (Plasticity.mkMat2d 1 0 0 1) 0 0.001 0).
  - reflexivity.
  - reflexivity.
  - reflexivity.
  - reflexivity.
  - reflexivity.
Defined.

(** ** Interaction kernels *)

Section KernelProperties.
Import ParticleDynamics.
Variable TinyReal : Real.

Lemma interaction_average (d d' : ParticleData) (index_i : nat) (dt : Real) :
  ParticleSmoothing_interaction TinyReal d index_i dt = Ok d' <->
  exists value, smoothing_average TinyReal d index_i = Ok value /\
                (index_i < length (temp_ d))%nat /\
                d' = set_temp_ (<[index_i := value]> (temp_ d)) d.
Proof.
  unfold ParticleSmoothing_interaction, smoothing_average. split.
  - intros E.
    apply bind_Ok in E as (smoothed_i & E1 & E).
    apply bind_Ok in E as (nb & E2 & E).
    apply bind_Ok in E as ([summation weight] & E3 & E).
    apply bind_Ok in E as (value & E4 & E).
    apply bind_Ok in E as (temp' & E5 & E).
    apply write_Ok in E5 as [Hlen ->]. inversion E. subst.
    exists value. rewrite E1. simpl. rewrite E2. simpl. rewrite E3. simpl.
    auto.
  - intros (value & E & Hlen & ->).
    apply bind_Ok in E as (smoothed_i & E1 & E).
    apply bind_Ok in E as (nb & E2 & E).
    apply bind_Ok in E as ([summation weight] & E3 & E).
    rewrite E1. simpl. rewrite E2. simpl. rewrite E3. simpl.
    simpl in E. rewrite E. simpl.
    unfold write. destruct (decide _); [reflexivity | contradiction].
Qed.

Lemma smoothing_average_set_temp_ (t : list Real) (d : ParticleData) (index_i : nat) :
  smoothing_average TinyReal (set_temp_ t d) index_i
  = smoothing_average TinyReal d index_i.
Proof. reflexivity. Qed.

Lemma interaction_swap (dt : Real) (d d' : ParticleData) (x y : nat) :
  (ParticleSmoothing_interaction TinyReal d x dt ≫=
     fun d1 => ParticleSmoothing_interaction TinyReal d1 y dt) = Ok d' ->
  (ParticleSmoothing_interaction TinyReal d y dt ≫=
     fun d1 => ParticleSmoothing_interaction TinyReal d1 x dt) = Ok d'.
Proof.
  intros E. apply bind_Ok in E as (d1 & E1 & E2).
  apply interaction_average in E1 as (vx & Ex & Hx & ->).
  apply interaction_average in E2 as (vy & Ey & Hy & ->).
  rewrite smoothing_average_set_temp_ in Ey. simpl in Hy.
  rewrite length_insert in Hy.
  apply bind_Ok. exists (set_temp_ (<[y := vy]> (temp_ d)) d). split.
  - apply interaction_average. eauto.
  - apply interaction_average. exists vx.
    rewrite smoothing_average_set_temp_. simpl. rewrite length_insert.
    split; [assumption|]. split; [assumption|].
    unfold set_temp_. simpl. f_equal.
    destruct (decide (x = y)) as [->|Hne].
    + rewrite Ex in Ey. inversion Ey. subst. reflexivity.
    + apply list_insert_insert_ne. congruence.
Qed.

Lemma update_swap (dt : Real) (d d' : ParticleData) (x y : nat) :
  (ParticleSmoothing_update d x dt ≫= fun d1 => ParticleSmoothing_update d1 y dt)
    = Ok d' ->
  (ParticleSmoothing_update d y dt ≫= fun d1 => ParticleSmoothing_update d1 x dt)
    = Ok d'.
Proof.
  unfold ParticleSmoothing_update. intros E.
  apply bind_Ok in E as (d1 & E1 & E).
  apply bind_Ok in E1 as (tx & E1 & E2).
  apply bind_Ok in E2 as (sx & E2 & E3).
  inversion E3. subst d1. clear E3.
  apply bind_Ok in E as (ty & E3 & E).
  apply bind_Ok in E as (sy & E4 & E).
  inversion E. subst d'. clear E.
  simpl in E3, E4.
  apply write_Ok in E2 as [Hx ->]. apply write_Ok in E4 as [Hy ->].
  rewrite length_insert in Hy.
  rewrite E3. simpl.
  unfold write. destruct (decide _); [|contradiction]. simpl.
  rewrite E1. simpl. rewrite length_insert.
  destruct (decide _); [|contradiction]. simpl.
  unfold set_smoothed_. simpl. do 2 f_equal.
  destruct (decide (x = y)) as [->|Hne].
  - rewrite E1 in E3. inversion E3. reflexivity.
  - apply list_insert_insert_ne. congruence.
Qed.

(** C10: particle smoothing does not depend on the order in which the
    particles are processed.  If running the interaction of every particle
    in one order and then the update of every particle in one order
    succeeds, then it succeeds with the same final particle data for any
    other order of either phase. *)
Theorem ParticleSmoothing_order_independent (dt : Real) (d d' : ParticleData)
    (order1 order1' order2 order2' : list nat) :
  Permutation order1 order1' ->
  Permutation order2 order2' ->
  ParticleSmoothing_exec TinyReal order1 order2 dt d = Ok d' ->
  ParticleSmoothing_exec TinyReal order1' order2' dt d = Ok d'.
Proof.
  intros H1 H2 E. unfold ParticleSmoothing_exec in *.
  apply bind_Ok in E as (d1 & E1 & E2).
  apply (for_each_swap _ _ _ (fun s x y s' => interaction_swap dt s s' x y) H1) in E1.
  apply (for_each_swap _ _ _ (fun s x y s' => update_swap dt s s' x y) H2) in E2.
  rewrite E1. simpl. assumption.
Qed.


(** Frame lemmas: what each kernel leaves alone. *)
Ltac frame E :=
  repeat (let a := fresh "a" in let Ea := fresh "E" in
          apply bind_Ok in E as (a & Ea & E); cbv beta in E);
  repeat match goal with a : (_ * _)%type |- _ => destruct a end;
  repeat (let a := fresh "a" in let Ea := fresh "E" in
          apply bind_Ok in E as (a & Ea & E); cbv beta in E);
  inversion E; split; reflexivity.

Lemma run_kernel_frame (d d' : ParticleData) (c : kernel_call) :
  run_kernel TinyReal d c = Ok d' -> same_configuration d d'.
Proof.
  destruct c; simpl; intros E.
  - unfold FreeSurfaceIndicationInner_interaction in E. frame E.
  - unfold LaplacianInner_loopNeighbors in E. frame E.
  - unfold ParticleSmoothing_interaction in E. frame E.
  - unfold ParticleSmoothing_update in E. frame E.
  - unfold ViscousForceFromFluid_interaction in E. frame E.
  - unfold ImposingSourceTerm_update in E. frame E.
Qed.

(** C7: no kernel writes the neighbourhood table.  After any sequence of
    kernel calls, including calls that move particles, the inner and the
    contact configuration are what they were before the sequence. *)
Theorem kernels_do_not_modify_configuration (calls : list kernel_call)
    (d d' : ParticleData) :
  run_kernels TinyReal calls d = Ok d' ->
  inner_configuration_ d' = inner_configuration_ d /\
  contact_configuration_ d' = contact_configuration_ d.
Proof.
  intros E. unfold run_kernels in E.
  apply (for_each_invariant (same_configuration d) _ _ _ _) in E; [exact E | | split; reflexivity].
  intros s x s' [H1 H2] Es. apply run_kernel_frame in Es as [H3 H4].
  split; congruence.
Qed.

Lemma loop_neighbors_not_div {S : Type} (nb : Neighborhood)
    (body : S -> nat -> outcome S) (init : S) :
  (forall s n, (n < current_size_ nb)%nat -> body s n <> DivisionByZero) ->
  loop_neighbors nb body init <> DivisionByZero.
Proof.
  intros Hbody. apply for_each_not_div. intros s n Hn. apply Hbody.
  apply elem_of_seq in Hn. lia.
Qed.



End KernelProperties.





Lemma kernels_do_not_modify_configuration_witness :
  exists d',
    ParticleDynamics.run_kernels (1 # 1000000) ParticleDynamics.example_calls
      (ParticleDynamics.pair_at_distance 0.5) = Ok d' /\
    ParticleDynamics.inner_configuration_ d'
      = ParticleDynamics.inner_configuration_ (ParticleDynamics.pair_at_distance 0.5) /\
    ParticleDynamics.contact_configuration_ d'
      = ParticleDynamics.contact_configuration_ (ParticleDynamics.pair_at_distance 0.5).
Proof.
  eexists. split; [vm_compute; reflexivity|].
  apply (kernels_do_not_modify_configuration (1 # 1000000)
           ParticleDynamics.example_calls).
  vm_compute. reflexivity.
Defined.

Lemma ParticleSmoothing_order_independent_witness :
  exists d',
    ParticleDynamics.ParticleSmoothing_exec (1 # 1000000) [0; 1]%nat [0; 1]%nat
      0.001 (ParticleDynamics.pair_at_distance 0.5) = Ok d' /\
    ParticleDynamics.ParticleSmoothing_exec (1 # 1000000) [1; 0]%nat [1; 0]%nat
      0.001 (ParticleDynamics.pair_at_distance 0.5) = Ok d'.
Proof.
  eexists. split; [vm_compute; reflexivity|].
  apply (ParticleSmoothing_order_independent (1 # 1000000) 0.001 _ _
           [0; 1]%nat [1; 0]%nat [0; 1]%nat [1; 0]%nat).
  - apply perm_swap.
  - apply perm_swap.
  - vm_compute. reflexivity.
Defined.

(** ** The order of the rebuild in the drivers *)

Section DriverProperties.
Import Driver.

Lemma quiet_lookup (t : list event) (i : nat) (e : event) :
  quiet t -> t !! i = Some e ->
  is_bounding e = false /\ is_cell_list_rebuild e = false /\
  is_configuration_rebuild e = false.
Proof.
  intros Hq E. specialize (Hq e (list_elem_of_lookup_2 _ _ _ E)).
  unfold no_rebuild_event in Hq.
  destruct (is_bounding e), (is_cell_list_rebuild e), (is_configuration_rebuild e);
    simpl in Hq; try discriminate; auto.
Qed.

(** Where the events of a rebuild sit in a step that performs the shared
    rebuild sequence once. *)
Lemma rebuild_positions (pre post : list event) (i : nat) (e : event) :
  quiet pre -> quiet post ->
  (pre ++ periodic_rebuild ++ post) !! i = Some e ->
  (is_bounding e = true -> (length pre <= i <= length pre + 1)%nat) /\
  (is_cell_list_rebuild e = true -> (length pre + 2 <= i <= length pre + 4)%nat) /\
  (is_configuration_rebuild e = true -> i = (length pre + 5)%nat) /\
  ((length pre <= i <= length pre + 5)%nat -> reads_neighbors e = false).
Proof.
  intros Hpre Hpost E.
  apply lookup_app_Some in E as [E | [Hi E]].
  - destruct (quiet_lookup _ _ _ Hpre E) as (-> & -> & ->).
    apply lookup_lt_Some in E.
    repeat split; try discriminate. lia.
  - apply lookup_app_Some in E as [E | [Hj E]].
    + assert (Hlt : (i - length pre < 6)%nat) by (apply lookup_lt_Some in E; exact E).
      destruct (i - length pre)%nat as [|[|[|[|[|[|k]]]]]] eqn:Ek; try lia;
        simpl in E; inversion E; subst e; simpl;
        repeat split; try discriminate; intros; lia.
    + destruct (quiet_lookup _ _ _ Hpost E) as (-> & -> & ->).
      simpl in Hj.
      repeat split; try discriminate. lia.
Qed.

Lemma rebuild_ordered_intro (pre post : list event) :
  quiet pre -> quiet post -> rebuild_ordered (pre ++ periodic_rebuild ++ post).
Proof.
  intros Hpre Hpost.
  pose proof (fun i e => rebuild_positions pre post i e Hpre Hpost) as Hpos.
  unfold rebuild_ordered. repeat split.
  - exists (Bounding xAxis). split; [|reflexivity].
    apply elem_of_app. right. apply elem_of_app. left.
    apply list_elem_of_In. simpl. tauto.
  - exists CellLinkedListRebuild. split; [|reflexivity].
    apply elem_of_app. right. apply elem_of_app. left.
    apply list_elem_of_In. simpl. tauto.
  - exists ConfigurationRebuild. split; [|reflexivity].
    apply elem_of_app. right. apply elem_of_app. left.
    apply list_elem_of_In. simpl. tauto.
  - intros i j ei ej Ei Ej Hi Hj.
    apply Hpos in Ei as (Hb & _). apply Hpos in Ej as (_ & Hc & _).
    specialize (Hb Hi). specialize (Hc Hj). lia.
  - intros i j ei ej Ei Ej Hi Hj.
    apply Hpos in Ei as (_ & Hc & _). apply Hpos in Ej as (_ & _ & Hr & _).
    specialize (Hc Hi). specialize (Hr Hj). lia.
  - intros i j m ei ej em Ei Ej Em Hi Hj Hm.
    apply Hpos in Ei as (Hb & _). apply Hpos in Ej as (_ & _ & Hr & _).
    apply Hpos in Em as (_ & _ & _ & Hn).
    specialize (Hb Hi). specialize (Hr Hj). apply Hn. lia.
Qed.

Lemma quiet_nil : quiet [].
Proof. intros e He. inversion He. Qed.

Lemma quiet_app (t1 t2 : list event) : quiet t1 -> quiet t2 -> quiet (t1 ++ t2).
Proof.
  intros H1 H2 e He. apply elem_of_app in He as [He | He]; auto.
Qed.

Lemma quiet_Forall (t : list event) :
  forallb no_rebuild_event t = true -> quiet t.
Proof.
  intros H e He. rewrite forallb_forall in H. apply H.
  apply list_elem_of_In. assumption.
Qed.

Lemma quiet_acoustic (n : nat) : quiet (_ ← seq 0 n; acoustic_step).
Proof.
  generalize 0%nat. induction n as [|n IH]; intros start.
  - apply quiet_nil.
  - change (seq start (S n)) with (start :: seq (S start) n).
    rewrite bind_cons.
    apply quiet_app; [apply quiet_Forall; reflexivity | apply IH].
Qed.

(** C6: in every step of the two periodic drivers (an iteration of the
    relaxation loop, a pass of the advection loop with any number of
    acoustic sub-steps) the periodic bounding comes strictly before the
    cell-linked-list rebuild, which comes strictly before the configuration
    rebuild, and nothing that reads neighbours runs between the bounding
    and the configuration rebuild. *)
Theorem periodic_rebuild_order :
  (forall ite_p : Z, rebuild_ordered (relaxation_step ite_p)) /\
  (forall (inner_ite_dt : nat) (number_of_iterations : Z),
      rebuild_ordered (integration_step inner_ite_dt number_of_iterations)).
Proof.
  split.
  - intros ite_p.
    change (relaxation_step ite_p) with
      ([] ++ periodic_rebuild ++
         ([Interaction "relaxation_inner_explicit"]
          ++ (if (ite_p =? 0)%Z
              then [Interaction "update_kinetic_energy"; Other "average_residue"]
              else [])
          ++ (if ((ite_p + 1) mod 50 =? 0)%Z
              then [Other "cout"; Interaction "update_kinetic_energy";
                    Other "average_residue"; Other "write_insert_body_to_vtp"]
              else []))).
    apply rebuild_ordered_intro; [apply quiet_nil|].
    apply quiet_app; [apply quiet_Forall; reflexivity|].
    apply quiet_app; destruct (_ =? _)%Z; apply quiet_Forall; reflexivity.
  - intros inner_ite_dt number_of_iterations.
    assert (E : integration_step inner_ite_dt number_of_iterations =
                ([Other "initialize_a_fluid_step";
                  Other "get_fluid_advection_time_step_size";
                  Interaction "update_density_by_summation";
                  Interaction "viscous_acceleration";
                  Interaction "transport_velocity_correction";
                  Interaction "viscous_force_on_cylinder"]
                 ++ (_ ← seq 0 inner_ite_dt; acoustic_step)
                 ++ (if (number_of_iterations mod 100 =? 0)%Z
                     then [Other "cout"] else []))
                ++ periodic_rebuild ++ []).
    { unfold integration_step, periodic_rebuild.
      rewrite app_nil_r, <- !app_assoc. reflexivity. }
    rewrite E.
    apply rebuild_ordered_intro; [|apply quiet_nil].
    apply quiet_app; [apply quiet_Forall; reflexivity|].
    apply quiet_app; [apply quiet_acoustic|].
    destruct (_ =? _)%Z; apply quiet_Forall; reflexivity.
Qed.
End DriverProperties.

(** ** The cell linked list and the neighbour search *)

Lemma for_each_bind {S A B : Type} (body : S -> B -> outcome S) (f : A -> list B)
    (l : list A) (st : S) :
  for_each body (l ≫= f) st = for_each (fun st x => for_each body (f x) st) l st.
Proof.
  revert st. induction l as [|x l IH]; intros st; [reflexivity|].
  rewrite bind_cons, for_each_app. simpl.
  destruct (for_each body (f x) st); simpl; auto.
Qed.

Lemma for_each_ext {S A : Type} (body body' : S -> A -> outcome S) (l : list A) (st : S) :
  (forall s x, body s x = body' s x) -> for_each body l st = for_each body' l st.
Proof.
  intros Hext. revert st. induction l as [|x l IH]; intros st; simpl; [reflexivity|].
  rewrite Hext. destruct (body' st x); simpl; auto.
Qed.

(** Success of a loop whose steps succeed or fail independently of each
    other, under an invariant of the state. *)
Lemma for_each_success {S A : Type} (I : S -> Prop) (ok : A -> Prop)
    (body : S -> A -> outcome S) (l : list A) (st : S) :
  (forall s x s', I s -> body s x = Ok s' -> I s') ->
  (forall s x, I s -> ((exists s', body s x = Ok s') <-> ok x)) ->
  I st ->
  ((exists st', for_each body l st = Ok st') <-> Forall ok l).
Proof.
  intros Hinv Hok. revert st. induction l as [|x l IH]; intros st HI; simpl.
  - split; [constructor | eauto].
  - split.
    + intros (st' & E). apply bind_Ok in E as (s1 & E1 & E2).
      constructor.
      * apply (Hok st x HI). eauto.
      * apply (IH s1); eauto.
    + intros Hall. inversion Hall as [|? ? Hx Hl]. subst.
      apply (Hok st x HI) in Hx as (s1 & E1).
      apply (IH s1) in Hl as (st' & E2); [|eauto].
      exists st'. rewrite E1. simpl. assumption.
Qed.

Lemma bind_pointwise_Permutation {A B : Type} (f g : A -> list B) (l : list A) :
  (forall x, x ∈ l -> f x ≡ₚ g x) -> l ≫= f ≡ₚ l ≫= g.
Proof.
  induction l as [|x l IH]; intros Hfg; [reflexivity|].
  rewrite !bind_cons. apply Permutation_app.
  - apply Hfg. left.
  - apply IH. intros y Hy. apply Hfg. right. assumption.
Qed.

Section MeshProperties.
Import Mesh.

(** *** The cell lists after [updateCellLists] *)

Lemma CellIndexFromPosition_ext (cll cll' : CellLinkedList) (p : Vecd) :
  mesh_lower_bound_ cll' = mesh_lower_bound_ cll ->
  grid_spacing_ cll' = grid_spacing_ cll ->
  number_of_cells_ cll' = number_of_cells_ cll ->
  CellIndexFromPosition cll' p = CellIndexFromPosition cll p.
Proof.
  intros H1 H2 H3. unfold CellIndexFromPosition. rewrite H1, H2, H3. reflexivity.
Qed.

Lemma insert_loop_spec (order : list nat) (pos : list Vecd) (cll0 cll' : CellLinkedList) :
  for_each
    (fun cll index_i =>
       pos_i ← read pos index_i;
       Ok (insert_list_data cll (CellIndexFromPosition cll pos_i) (index_i, pos_i)))
    order cll0 = Ok cll' ->
  same_mesh cll0 cll' /\
  Forall (fun index_i => is_Some (pos !! index_i)) order /\
  forall l m q,
    cell_data_lists_ cll' l m q =
    cell_data_lists_ cll0 l m q
    ++ filter (in_cell cll0 (l, m, q)) (list_data_of pos order).
Proof.
  revert cll0. induction order as [|x order IH]; intros cll0 E; simpl in E.
  - inversion E. subst. split; [repeat split|]. split; [constructor|].
    intros. simpl. rewrite app_nil_r. reflexivity.
  - apply bind_Ok in E as (cll1 & E1 & E2).
    apply bind_Ok in E1 as (p & Ep & E1). inversion E1. subst cll1. clear E1.
    apply read_Ok in Ep.
    apply IH in E2 as ((M1 & M2 & M3) & Hall & Hlists).
    split; [repeat split; assumption|].
    split; [constructor; eauto|].
    intros l m q. rewrite Hlists. unfold list_data_of. simpl. rewrite Ep. simpl.
    assert (Hcell : forall c d, in_cell (insert_list_data cll0
                       (CellIndexFromPosition cll0 p) (x, p)) c d <-> in_cell cll0 c d).
    { intros c d. unfold in_cell.
      rewrite (CellIndexFromPosition_ext cll0 _ d.2) by reflexivity. reflexivity. }
    rewrite (list_filter_iff _ _ _ (Hcell (l, m, q))).
    rewrite filter_cons. unfold in_cell at 2. simpl.
    destruct (decide ((l, m, q) = CellIndexFromPosition cll0 p)) as [Hc | Hc].
    + destruct (decide (CellIndexFromPosition cll0 p = (l, m, q))); [|congruence].
      rewrite <- app_assoc. reflexivity.
    + destruct (decide (CellIndexFromPosition cll0 p = (l, m, q))); [congruence|].
      reflexivity.
Qed.

Lemma updateCellLists_spec (order : list nat) (pos : list Vecd) (cll cll' : CellLinkedList) :
  updateCellLists order pos cll = Ok cll' ->
  same_mesh cll cll' /\
  Forall (fun index_i => is_Some (pos !! index_i)) order /\
  forall l m q,
    cell_data_lists_ cll' l m q = filter (in_cell cll (l, m, q)) (list_data_of pos order).
Proof.
  intros E. apply insert_loop_spec in E as (M & Hall & Hlists).
  split; [exact M|]. split; [exact Hall|].
  intros l m q. rewrite Hlists. simpl.
  apply list_filter_iff. intros d. unfold in_cell.
  rewrite (CellIndexFromPosition_ext cll (clear_cell_lists cll)) by reflexivity.
  reflexivity.
Qed.

Lemma updateCellLists_success (order : list nat) (pos : list Vecd) (cll : CellLinkedList) :
  Forall (fun index_i => is_Some (pos !! index_i)) order ->
  exists cll', updateCellLists order pos cll = Ok cll'.
Proof.
  intros Hall. unfold updateCellLists.
  apply (for_each_success (fun _ => True) (fun index_i => is_Some (pos !! index_i)));
    auto.
  intros s x _. unfold read. destruct (pos !! x) as [p|]; simpl.
  - split; [intros; eexists; reflexivity | intros; eexists; reflexivity].
  - split; [intros (? & ?); discriminate | intros [? ?]; discriminate].
Qed.


(** *** The scan of one particle *)

Lemma search_cells_spec (cll : CellLinkedList) (pos_i : Vecd) (index_i : nat)
    (search_depth : Z) (get_neighbor_relation : neighbor_relation)
    (neighborhood : Neighborhood) :
  search_cells cll pos_i index_i search_depth get_neighbor_relation neighborhood
  = for_each (fun nb d => get_neighbor_relation nb pos_i index_i d)
             (scanned_list_data cll pos_i search_depth) neighborhood.
Proof.
  unfold search_cells, scanned_list_data, scanned_cells.
  destruct (CellIndexFromPosition cll pos_i) as [[c0 c1] c2].
  destruct (number_of_cells_ cll) as [[n0 n1] n2].
  rewrite for_each_bind, for_each_bind. apply for_each_ext. intros s l.
  rewrite for_each_bind. apply for_each_ext. intros s' m.
  rewrite for_each_bind. apply for_each_ext. intros s'' q.
  simpl. destruct (for_each _ _ s''); reflexivity.
Qed.

(** *** The records of a neighbourhood *)

Lemma take_store_record {A : Type} (l : list A) (n : nat) (a : A) :
  take (S n) (store_record l n a) = take n l ++ [a].
Proof.
  unfold store_record. destruct (decide (n < length l)%nat) as [Hlt | Hge].
  - rewrite (take_S_r _ _ a) by (apply list_lookup_insert_eq; assumption).
    rewrite take_insert_ge by lia. reflexivity.
  - rewrite take_ge by (rewrite length_app; simpl; lia).
    rewrite take_ge by lia. reflexivity.
Qed.

Lemma neighbors_add_neighbor (nb : Neighborhood) (index_j : nat)
    (distance W_ij dW_ijV_j : Real) (e_ij : Vecd) :
  neighbors (add_neighbor nb index_j distance W_ij dW_ijV_j e_ij)
  = neighbors nb ++ [index_j].
Proof. unfold neighbors, add_neighbor. simpl. apply take_store_record. Qed.

Lemma neighbors_reset (nb : Neighborhood) : neighbors (reset_current_size nb) = [].
Proof. reflexivity. Qed.

Section InnerRelation.
Context `{LibM}.
Variables (kernel : SmoothingKernel) (Vol : list Real) (TinyReal : Real).

Let relation : neighbor_relation := NeighborBuilderInner kernel Vol TinyReal.

(** One candidate: the record is appended exactly when it is accepted. *)
Lemma NeighborBuilderInner_step (nb nb' : Neighborhood) (pos_i : Vecd)
    (index_i : nat) (d : ListData) :
  relation nb pos_i index_i d = Ok nb' ->
  neighbors nb' =
  neighbors nb ++ (filter (fun d => accepts kernel pos_i index_i d = true) [d]).*1.
Proof.
  unfold relation, NeighborBuilderInner. destruct d as [index_j pos_j].
  change (within_cutoff kernel (vec_sub pos_i pos_j) && negb (index_i =? index_j)%nat)
    with (accepts kernel pos_i index_i (index_j, pos_j)).
  destruct (accepts kernel pos_i index_i (index_j, pos_j)) eqn:Ea.
  - rewrite filter_cons_True by exact Ea.
    intros E. apply bind_Ok in E as (Vol_j & _ & E).
    apply bind_Ok in E as (e_ij & _ & E). inversion E. subst nb'.
    rewrite neighbors_add_neighbor. reflexivity.
  - rewrite filter_cons_False by (rewrite Ea; discriminate).
    intros E. inversion E. subst. simpl. rewrite app_nil_r. reflexivity.
Qed.

Lemma NeighborBuilderInner_success (nb : Neighborhood) (pos_i : Vecd)
    (index_i : nat) (d : ListData) :
  (exists nb', relation nb pos_i index_i d = Ok nb') <->
  buildable kernel Vol TinyReal pos_i index_i d.
Proof.
  unfold relation, NeighborBuilderInner, buildable, accepts.
  destruct d as [index_j pos_j]. simpl.
  destruct (within_cutoff kernel (vec_sub pos_i pos_j) && negb (index_i =? index_j)%nat).
  - split.
    + intros (nb' & E) _. apply bind_Ok in E as (Vol_j & EV & E).
      apply bind_Ok in E as (e_ij & Ee & E).
      apply read_Ok in EV. split; [eauto|].
      destruct (vec_sub pos_i pos_j) as [[dx dy] dz]. unfold vec_div in Ee.
      apply bind_Ok in Ee as (x & Ex & _). apply real_div_Ok in Ex. tauto.
    + intros Hb. destruct (Hb eq_refl) as [[Vol_j EV] Hnz].
      apply read_Ok in EV. rewrite EV. simpl.
      destruct (vec_sub pos_i pos_j) as [[dx dy] dz] eqn:Ed. unfold vec_div.
      rewrite !real_div_nonzero by assumption. simpl. eauto.
  - split; [intros _ Habs; discriminate | intros _; eauto].
Qed.

Lemma builder_loop_neighbors (L : list ListData) (nb nb' : Neighborhood)
    (pos_i : Vecd) (index_i : nat) :
  for_each (fun nb d => relation nb pos_i index_i d) L nb = Ok nb' ->
  neighbors nb' =
  neighbors nb ++ (filter (fun d => accepts kernel pos_i index_i d = true) L).*1.
Proof.
  revert nb. induction L as [|d L IH]; intros nb E; simpl in E.
  - inversion E. subst. simpl. rewrite app_nil_r. reflexivity.
  - apply bind_Ok in E as (nb1 & E1 & E2).
    apply NeighborBuilderInner_step in E1. apply IH in E2.
    rewrite E2, E1. change (d :: L) with ([d] ++ L).
    rewrite filter_app, fmap_app, app_assoc. reflexivity.
Qed.

Lemma builder_loop_success (L : list ListData) (nb : Neighborhood)
    (pos_i : Vecd) (index_i : nat) :
  (exists nb', for_each (fun nb d => relation nb pos_i index_i d) L nb = Ok nb') <->
  Forall (buildable kernel Vol TinyReal pos_i index_i) L.
Proof.
  apply (for_each_success (fun _ => True)); auto.
  intros s x _. apply NeighborBuilderInner_success.
Qed.


(** *** The search over a dynamics range *)

Variables (cll : CellLinkedList) (pos : list Vecd) (get_search_depth : nat -> Z).

Let search_body (particle_configuration : ParticleConfiguration) (index_i : nat)
  : outcome ParticleConfiguration :=
  pos_i ← read pos index_i;
  let search_depth := get_search_depth index_i in
  neighborhood ← read particle_configuration index_i;
  neighborhood' ←
    search_cells cll pos_i index_i search_depth relation neighborhood;
  write particle_configuration index_i neighborhood'.

Let searchable_here : nat -> nat -> Prop :=
  searchable kernel Vol TinyReal cll pos get_search_depth.

Lemma search_body_spec (cfg cfg' : ParticleConfiguration) (index_i : nat) :
  search_body cfg index_i = Ok cfg' ->
  exists nb nb',
    cfg !! index_i = Some nb /\ cfg' = <[index_i := nb']> cfg /\
    neighbors nb' = neighbors nb ++ found_neighbors cll kernel pos get_search_depth index_i.
Proof.
  unfold search_body. intros E.
  apply bind_Ok in E as (pos_i & Ep & E).
  apply bind_Ok in E as (nb & En & E).
  apply bind_Ok in E as (nb' & Es & E).
  apply read_Ok in Ep, En. apply write_Ok in E as [Hlt ->].
  rewrite search_cells_spec in Es. apply builder_loop_neighbors in Es.
  exists nb, nb'. repeat split; try assumption.
  unfold found_neighbors. rewrite Ep. assumption.
Qed.

Lemma search_body_success (cfg : ParticleConfiguration) (index_i : nat) :
  (exists cfg', search_body cfg index_i = Ok cfg') <-> searchable_here (length cfg) index_i.
Proof.
  unfold search_body, searchable_here, searchable. split.
  - intros (cfg' & E).
    apply bind_Ok in E as (pos_i & Ep & E).
    apply bind_Ok in E as (nb & En & E).
    apply bind_Ok in E as (nb' & Es & E).
    apply read_Ok in Ep, En. apply write_Ok in E as [Hlt ->].
    split; [assumption|]. exists pos_i. split; [assumption|].
    rewrite search_cells_spec in Es.
    apply (proj1 (builder_loop_success _ nb _ _)). eauto.
  - intros (Hlt & pos_i & Ep & Hall).
    apply read_Ok in Ep. rewrite Ep. simpl.
    destruct (lookup_lt_is_Some_2 cfg index_i Hlt) as [nb En].
    apply read_Ok in En. rewrite En. simpl.
    rewrite search_cells_spec.
    destruct (proj2 (builder_loop_success _ nb _ _) Hall) as (nb' & Es).
    rewrite Es. simpl.
    unfold write. destruct (decide _); [eauto | contradiction].
Qed.

Lemma search_body_length (cfg cfg' : ParticleConfiguration) (index_i : nat) :
  search_body cfg index_i = Ok cfg' -> length cfg' = length cfg.
Proof.
  intros E. apply search_body_spec in E as (nb & nb' & _ & -> & _).
  apply length_insert.
Qed.

Lemma search_loop_spec (dynamics_range : list nat) (cfg cfg' : ParticleConfiguration) :
  for_each search_body dynamics_range cfg = Ok cfg' ->
  length cfg' = length cfg /\
  forall index_i nb, cfg !! index_i = Some nb ->
    exists nb', cfg' !! index_i = Some nb' /\
      neighbors nb' =
      neighbors nb ++
      (x ← dynamics_range;
       if decide (x = index_i)
       then found_neighbors cll kernel pos get_search_depth index_i else []).
Proof.
  revert cfg. induction dynamics_range as [|x dynamics_range IH]; intros cfg E;
    simpl in E.
  - inversion E. subst. split; [reflexivity|].
    intros i nb Ei. exists nb. split; [assumption|]. simpl. rewrite app_nil_r.
    reflexivity.
  - apply bind_Ok in E as (cfg1 & E1 & E2).
    apply search_body_spec in E1 as (nbx & nbx' & Ex & -> & Hx).
    apply IH in E2 as (Hlen & Hrest).
    split; [rewrite Hlen; apply length_insert|].
    intros i nb Ei. rewrite bind_cons.
    destruct (decide (x = i)) as [-> | Hne].
    + rewrite Ei in Ex. inversion Ex. subst nbx.
      destruct (Hrest i nbx') as (nb' & E' & Hn).
      { apply list_lookup_insert_eq. eapply lookup_lt_Some. eassumption. }
      exists nb'. split; [assumption|]. rewrite Hn, Hx, app_assoc. reflexivity.
    + destruct (Hrest i nb) as (nb' & E' & Hn).
      { rewrite list_lookup_insert_ne by assumption. assumption. }
      exists nb'. split; [assumption|]. rewrite Hn. reflexivity.
Qed.

Lemma search_loop_success (dynamics_range : list nat) (cfg : ParticleConfiguration) :
  (exists cfg', for_each search_body dynamics_range cfg = Ok cfg') <->
  Forall (searchable_here (length cfg)) dynamics_range.
Proof.
  apply (for_each_success (fun s => length s = length cfg)).
  - intros s x s' Hs E. apply search_body_length in E. congruence.
  - intros s x Hs. rewrite <- Hs. apply search_body_success.
  - reflexivity.
Qed.

End InnerRelation.

(** *** The window of the search *)

Lemma to_int_id (z : Z) : (- 2 ^ 31 <= z < 2 ^ 31)%Z -> to_int z = z.
Proof.
  intros Hz. unfold to_int. rewrite Z.mod_small; lia.
Qed.

Lemma elem_of_int_range (lo hi z : Z) : z ∈ int_range lo hi <-> (lo <= z <= hi)%Z.
Proof.
  unfold int_range. rewrite list_elem_of_fmap. split.
  - intros (n & -> & Hn). apply elem_of_seq in Hn. lia.
  - intros Hz. exists (Z.to_nat (z - lo)). split; [lia|].
    apply elem_of_seq. lia.
Qed.

Lemma clamp_index_range (n c : Z) : (1 <= n)%Z -> (0 <= clamp_index n c <= n - 1)%Z.
Proof. unfold clamp_index. lia. Qed.

Lemma clamp_index_close (n c c' d : Z) :
  (- d <= c - c' <= d)%Z -> (- d <= clamp_index n c - clamp_index n c' <= d)%Z.
Proof. unfold clamp_index. lia. Qed.

Lemma CellIndexFromPosition_range (cll : CellLinkedList) (p : Vecd) :
  cells_fit_int cll ->
  (0 <= (CellIndexFromPosition cll p).1.1 <= (number_of_cells_ cll).1.1 - 1)%Z /\
  (0 <= (CellIndexFromPosition cll p).1.2 <= (number_of_cells_ cll).1.2 - 1)%Z /\
  (0 <= (CellIndexFromPosition cll p).2 <= (number_of_cells_ cll).2 - 1)%Z.
Proof.
  unfold cells_fit_int, CellIndexFromPosition.
  destruct p as [[x y] z]. destruct (mesh_lower_bound_ cll) as [[lx ly] lz].
  destruct (number_of_cells_ cll) as [[n0 n1] n2]. cbn [fst snd].
  intros (H0 & H1 & H2). repeat split; apply clamp_index_range; lia.
Qed.

Lemma elem_of_scanned_cells (cll : CellLinkedList) (pos_i : Vecd) (search_depth : Z)
    (l m q : Z) :
  cells_fit_int cll ->
  (l, m, q) ∈ scanned_cells cll pos_i search_depth <->
  in_window (number_of_cells_ cll).1.1 (CellIndexFromPosition cll pos_i).1.1
            search_depth l /\
  in_window (number_of_cells_ cll).1.2 (CellIndexFromPosition cll pos_i).1.2
            search_depth m /\
  in_window (number_of_cells_ cll).2 (CellIndexFromPosition cll pos_i).2
            search_depth q.
Proof.
  intros Hfit. pose proof (CellIndexFromPosition_range cll pos_i Hfit) as Hc.
  unfold cells_fit_int in Hfit. unfold scanned_cells, in_window.
  destruct (CellIndexFromPosition cll pos_i) as [[c0 c1] c2].
  destruct (number_of_cells_ cll) as [[n0 n1] n2]. cbn [fst snd] in *.
  change (2 ^ 31)%Z with 2147483648%Z in *.
  rewrite !to_int_id by (change (2 ^ 31)%Z with 2147483648%Z; lia).
  rewrite list_elem_of_bind. split.
  - intros (l' & Hin & Hl). apply elem_of_int_range in Hl.
    apply list_elem_of_bind in Hin as (m' & Hin & Hm). apply elem_of_int_range in Hm.
    apply list_elem_of_bind in Hin as (q' & Hin & Hq). apply elem_of_int_range in Hq.
    apply list_elem_of_singleton in Hin. inversion Hin. subst. lia.
  - intros (Hl & Hm & Hq). exists l. split; [|apply elem_of_int_range; lia].
    apply list_elem_of_bind. exists m. split; [|apply elem_of_int_range; lia].
    apply list_elem_of_bind. exists q. split; [|apply elem_of_int_range; lia].
    apply list_elem_of_singleton. reflexivity.
Qed.

(** *** Geometry: close particles lie in close cells *)

Lemma Qfloor_close (a b : Q) (d : Z) :
  (- inject_Z d <= a - b <= inject_Z d)%Q ->
  (- d <= Qfloor a - Qfloor b <= d)%Z.
Proof.
  intros [Hlo Hhi].
  pose proof (Qfloor_le a) as Ha1. pose proof (Qlt_floor a) as Ha2.
  pose proof (Qfloor_le b) as Hb1. pose proof (Qlt_floor b) as Hb2.
  rewrite inject_Z_plus in Ha2, Hb2.
  change (inject_Z 1) with 1%Q in *.
  assert (H1 : (inject_Z (Qfloor a) - inject_Z (Qfloor b) < inject_Z d + 1)%Q)
    by lra.
  assert (H2 : (- inject_Z d - 1 < inject_Z (Qfloor a) - inject_Z (Qfloor b))%Q)
    by lra.
  clear - H1 H2. revert H1 H2. generalize (Qfloor a) (Qfloor b). intros fa fb.
  unfold Qlt, Qminus, Qplus, Qopp, inject_Z. simpl. lia.
Qed.

Lemma cell_index_close (x y lower h : Real) (d : Z) :
  (0 < h)%Q -> (- (inject_Z d * h) <= x - y <= inject_Z d * h)%Q ->
  (- d <= Qfloor ((x - lower) / h) - Qfloor ((y - lower) / h) <= d)%Z.
Proof.
  intros Hh Hxy. apply Qfloor_close.
  assert (Ea : ((x - lower) / h * h == x - lower)%Q) by (field; lra).
  assert (Eb : ((y - lower) / h * h == y - lower)%Q) by (field; lra).
  set (a := ((x - lower) / h)%Q) in *. set (b := ((y - lower) / h)%Q) in *.
  split; nra.
Qed.

Lemma component_bound (dx dy dz r : Real) :
  (0 <= r)%Q -> (dx * dx + dy * dy + dz * dz <= r * r)%Q -> (- r <= dx <= r)%Q.
Proof. intros Hr Hd. split; nra. Qed.

(** *** The state after a rebuild *)

Lemma elem_of_list_data_of (pos : list Vecd) (order : list nat) (j : nat) (pj : Vecd) :
  (j, pj) ∈ list_data_of pos order <-> j ∈ order /\ pos !! j = Some pj.
Proof.
  unfold list_data_of. rewrite list_elem_of_omap. split.
  - intros (x & Hx & E). destruct (pos !! x) as [p|] eqn:Ep; simpl in E; [|discriminate].
    inversion E. subst. auto.
  - intros [Hj Ep]. exists j. rewrite Ep. auto.
Qed.

Lemma scanned_cells_ext (cll cll' : CellLinkedList) (p : Vecd) (search_depth : Z) :
  same_mesh cll cll' ->
  scanned_cells cll' p search_depth = scanned_cells cll p search_depth.
Proof.
  intros (M1 & M2 & M3). unfold scanned_cells.
  rewrite (CellIndexFromPosition_ext cll cll') by assumption. rewrite M3.
  reflexivity.
Qed.

Lemma in_cell_ext (cll cll' : CellLinkedList) (c : Z * Z * Z) (d : ListData) :
  same_mesh cll cll' -> in_cell cll' c d <-> in_cell cll c d.
Proof.
  intros (M1 & M2 & M3). unfold in_cell.
  rewrite (CellIndexFromPosition_ext cll cll') by assumption. reflexivity.
Qed.

Section Rebuild.
Context `{LibM}.
Variables (kernel : SmoothingKernel) (Vol : list Real) (TinyReal : Real).
Variables (pos : list Vecd) (dynamics_range : list nat) (get_search_depth : nat -> Z).

Let relation : neighbor_relation := NeighborBuilderInner kernel Vol TinyReal.

Lemma elem_of_found_neighbors (order : list nat) (cll cll' : CellLinkedList)
    (index_i j : nat) :
  updateCellLists order pos cll = Ok cll' ->
  j ∈ found_neighbors cll' kernel pos get_search_depth index_i <->
  exists pos_i pos_j,
    pos !! index_i = Some pos_i /\ pos !! j = Some pos_j /\ j ∈ order /\
    CellIndexFromPosition cll pos_j
      ∈ scanned_cells cll' pos_i (get_search_depth index_i) /\
    accepts kernel pos_i index_i (j, pos_j) = true.
Proof.
  intros E. apply updateCellLists_spec in E as (M & _ & Hlists).
  unfold found_neighbors. destruct (pos !! index_i) as [pos_i|].
  - rewrite list_elem_of_fmap. split.
    + intros ([j' pos_j] & -> & Hd). apply list_elem_of_filter in Hd as [Hacc Hd].
      unfold scanned_list_data in Hd.
      apply list_elem_of_bind in Hd as ([[l m] q] & Hd & Hc).
      cbn [fst snd] in Hd. rewrite Hlists in Hd.
      apply list_elem_of_filter in Hd as [Hcell Hd].
      apply elem_of_list_data_of in Hd as [Hj Ep].
      exists pos_i, pos_j. unfold in_cell in Hcell. cbn [fst snd] in *.
      rewrite Hcell. auto.
    + intros (pos_i' & pos_j & Ei & Ej & Hj & Hc & Hacc). inversion Ei. subst pos_i'.
      exists (j, pos_j). split; [reflexivity|].
      apply list_elem_of_filter. split; [assumption|].
      unfold scanned_list_data. apply list_elem_of_bind.
      exists (CellIndexFromPosition cll pos_j). split; [|assumption].
      destruct (CellIndexFromPosition cll pos_j) as [[l m] q] eqn:Ec.
      cbn [fst snd]. rewrite Hlists. apply list_elem_of_filter. split.
      * exact Ec.
      * apply elem_of_list_data_of. auto.
  - split; [intros Hin; inversion Hin | intros (? & ? & ? & _); discriminate].
Qed.

Lemma rebuild_spec (order : list nat) (cll cll' : CellLinkedList)
    (cfg cfg' : ParticleConfiguration) :
  rebuild order pos dynamics_range get_search_depth relation (cll, cfg)
    = Ok (cll', cfg') ->
  updateCellLists order pos cll = Ok cll' /\
  length cfg' = length cfg /\
  Forall (searchable kernel Vol TinyReal cll' pos get_search_depth (length cfg))
         dynamics_range /\
  forall index_i nb', cfg' !! index_i = Some nb' ->
    neighbors nb' =
    (x ← dynamics_range;
     if decide (x = index_i)
     then found_neighbors cll' kernel pos get_search_depth index_i else []).
Proof.
  unfold rebuild. intros E. cbn [fst snd] in E.
  apply bind_Ok in E as (cll1 & E1 & E).
  apply bind_Ok in E as (cfg1 & E2 & E). inversion E. subst cll1 cfg1. clear E.
  split; [assumption|].
  unfold updateConfiguration, searchNeighborsByParticles in E2.
  pose proof (proj1 (search_loop_success kernel Vol TinyReal cll' pos get_search_depth
                       dynamics_range (reset_current_size <$> cfg))
                    (ex_intro _ cfg' E2)) as Hok.
  apply search_loop_spec in E2 as (Hlen & Hn).
  rewrite length_fmap in Hlen, Hok.
  split; [assumption|]. split; [assumption|].
  intros i nb' Ei.
  assert (Hi : (i < length cfg)%nat) by (rewrite <- Hlen; eapply lookup_lt_Some; eauto).
  destruct (lookup_lt_is_Some_2 cfg i Hi) as [nb0 E0].
  destruct (Hn i (reset_current_size nb0)) as (nb'' & E'' & Hnb).
  { rewrite list_lookup_fmap, E0. reflexivity. }
  rewrite Ei in E''. inversion E''. subst nb''. rewrite Hnb. reflexivity.
Qed.

Lemma elem_of_rebuilt_neighbors (order : list nat) (cll cll' : CellLinkedList)
    (cfg cfg' : ParticleConfiguration) (index_i j : nat) (nb' : Neighborhood) :
  rebuild order pos dynamics_range get_search_depth relation (cll, cfg)
    = Ok (cll', cfg') ->
  cfg' !! index_i = Some nb' ->
  j ∈ neighbors nb' <->
  index_i ∈ dynamics_range /\
  j ∈ found_neighbors cll' kernel pos get_search_depth index_i.
Proof.
  intros E Ei. apply rebuild_spec in E as (_ & _ & _ & Hn).
  rewrite (Hn _ _ Ei), list_elem_of_bind. split.
  - intros (x & Hj & Hx). destruct (decide (x = index_i)) as [-> | _]; [auto|].
    inversion Hj.
  - intros [Hi Hj]. exists index_i. rewrite decide_True by reflexivity. auto.
Qed.

Lemma scanned_entries (order : list nat) (cll cll' : CellLinkedList)
    (p : Vecd) (search_depth : Z) (d : ListData) :
  updateCellLists order pos cll = Ok cll' ->
  d ∈ scanned_list_data cll' p search_depth ->
  d.1 ∈ order /\ pos !! d.1 = Some d.2.
Proof.
  intros E Hd. apply updateCellLists_spec in E as (_ & _ & Hlists).
  unfold scanned_list_data in Hd.
  apply list_elem_of_bind in Hd as ([[l m] q] & Hd & _).
  cbn [fst snd] in Hd. rewrite Hlists in Hd.
  apply list_elem_of_filter in Hd as [_ Hd]. destruct d as [j pj].
  apply elem_of_list_data_of in Hd. exact Hd.
Qed.

(** A rebuild succeeds when every particle has a position, a volume and a
    neighbourhood, and the square root is non-negative. *)
Lemma rebuild_success (order : list nat) (cll : CellLinkedList)
    (cfg : ParticleConfiguration) :
  Forall (fun index_i => is_Some (pos !! index_i)) order ->
  Forall (fun index_i => (index_i < length cfg)%nat /\ is_Some (pos !! index_i))
         dynamics_range ->
  (forall index_j, is_Some (pos !! index_j) -> is_Some (Vol !! index_j)) ->
  (forall q, 0 <= real_sqrt q)%Q -> (0 < TinyReal)%Q ->
  exists st',
    rebuild order pos dynamics_range get_search_depth relation (cll, cfg) = Ok st'.
Proof.
  intros Horder Hrange HVol Hsqrt Htiny.
  destruct (updateCellLists_success order pos cll Horder) as (cll' & Ecell).
  assert (Hok : Forall (searchable kernel Vol TinyReal cll' pos get_search_depth
                          (length (reset_current_size <$> cfg)))
                       dynamics_range).
  { rewrite length_fmap. eapply Forall_impl; [exact Hrange|].
    intros x (Hx & p & Ep). split; [assumption|]. exists p. split; [assumption|].
    apply Forall_forall. intros d Hd _.
    apply (scanned_entries _ _ _ _ _ _ Ecell) in Hd as [_ Ed].
    split; [apply HVol; eauto|].
    unfold vec_norm. specialize (Hsqrt (squaredNorm (vec_sub p d.2))). lra. }
  apply search_loop_success in Hok as (cfg' & E).
  exists (cll', cfg'). unfold rebuild. apply bind_Ok. exists cll'.
  split; [exact Ecell|]. apply bind_Ok. exists cfg'. split; [exact E | reflexivity].
Qed.
Lemma accepts_true (pos_i pos_j : Vecd) (index_i index_j : nat) :
  accepts kernel pos_i index_i (index_j, pos_j) = true <->
  (distance_sqr pos_i pos_j <= CutOffRadius kernel * CutOffRadius kernel)%Q /\
  index_i <> index_j.
Proof.
  unfold accepts, within_cutoff, distance_sqr. cbn [fst snd].
  rewrite andb_true_iff, Qle_bool_iff, negb_true_iff, Nat.eqb_neq. reflexivity.
Qed.

Lemma distance_sqr_sym (p q : Vecd) : (distance_sqr p q == distance_sqr q p)%Q.
Proof.
  destruct p as [[px py] pz], q as [[qx qy] qz].
  unfold distance_sqr, vec_sub, squaredNorm. ring.
Qed.

Lemma CellIndexFromPosition_close (cll : CellLinkedList) (p q : Vecd) (r : Real) (d : Z) :
  (0 < grid_spacing_ cll)%Q -> (0 <= r)%Q ->
  (r <= inject_Z d * grid_spacing_ cll)%Q ->
  (distance_sqr p q <= r * r)%Q ->
  let cp := CellIndexFromPosition cll p in
  let cq := CellIndexFromPosition cll q in
  (- d <= cq.1.1 - cp.1.1 <= d)%Z /\
  (- d <= cq.1.2 - cp.1.2 <= d)%Z /\
  (- d <= cq.2 - cp.2 <= d)%Z.
Proof.
  intros Hh Hr Hd Hdist. unfold CellIndexFromPosition.
  destruct p as [[px py] pz], q as [[qx qy] qz].
  destruct (mesh_lower_bound_ cll) as [[lx ly] lz].
  destruct (number_of_cells_ cll) as [[n0 n1] n2]. cbn [fst snd].
  unfold distance_sqr, vec_sub, squaredNorm in Hdist.
  assert (Hx : (- r <= px - qx <= r)%Q)
    by (apply (component_bound _ (py - qy) (pz - qz)); assumption).
  assert (Hy : (- r <= py - qy <= r)%Q)
    by (apply (component_bound _ (px - qx) (pz - qz)); [assumption | lra]).
  assert (Hz : (- r <= pz - qz <= r)%Q)
    by (apply (component_bound _ (px - qx) (py - qy)); [assumption | lra]).
  repeat split; apply clamp_index_close, cell_index_close; try assumption; lra.
Qed.

(** One direction of the symmetry: a particle within the cutoff is found. *)
Lemma neighbor_found (order : list nat) (cll cll' : CellLinkedList)
    (cfg cfg' : ParticleConfiguration) (P Q : nat) (posP posQ : Vecd) :
  rebuild order pos dynamics_range get_search_depth relation (cll, cfg)
    = Ok (cll', cfg') ->
  cells_fit_int cll -> (0 < grid_spacing_ cll)%Q ->
  (0 <= CutOffRadius kernel)%Q ->
  (CutOffRadius kernel <= inject_Z (get_search_depth P) * grid_spacing_ cll)%Q ->
  P ∈ dynamics_range -> Q ∈ order -> P <> Q ->
  pos !! P = Some posP -> pos !! Q = Some posQ ->
  (distance_sqr posP posQ <= CutOffRadius kernel * CutOffRadius kernel)%Q ->
  exists nbP, cfg' !! P = Some nbP /\ Q ∈ neighbors nbP.
Proof.
  intros E Hfit Hh Hr Hdepth HP HQ Hne EP EQ Hdist.
  pose proof (rebuild_spec _ _ _ _ _ E) as (Ecell & Hlen & Hok & _).
  assert (HPlt : (P < length cfg')%nat).
  { rewrite Hlen. rewrite Forall_forall in Hok. apply (Hok P HP). }
  destruct (lookup_lt_is_Some_2 cfg' P HPlt) as [nbP EnbP].
  exists nbP. split; [assumption|].
  apply (elem_of_rebuilt_neighbors _ _ _ _ _ _ _ _ E EnbP). split; [assumption|].
  apply (elem_of_found_neighbors _ _ _ _ _ Ecell).
  exists posP, posQ. repeat split; try assumption.
  - pose proof (updateCellLists_spec _ _ _ _ Ecell) as (M & _ & _).
    rewrite (scanned_cells_ext cll cll') by assumption.
    pose proof (CellIndexFromPosition_range cll posQ Hfit) as (R0 & R1 & R2).
    pose proof (CellIndexFromPosition_close cll posP posQ _ _ Hh Hr Hdepth Hdist)
      as (C0 & C1 & C2).
    cbn zeta in C0, C1, C2.
    destruct (CellIndexFromPosition cll posQ) as [[l m] q]. cbn [fst snd] in *.
    apply elem_of_scanned_cells; [assumption|]. unfold in_window. lia.
  - apply accepts_true. auto.
Qed.

(** C1: no false positives.  After a rebuild ([updateCellLists] followed by
    [updateConfiguration]) on a static particle configuration, a particle
    [P] whose distance from [Q] exceeds the cutoff radius is not among the
    neighbours of [Q].  Distances are compared through their squares. *)
Theorem no_false_positives (order : list nat) (cll cll' : CellLinkedList)
    (cfg cfg' : ParticleConfiguration) (P Q : nat) (posP posQ : Vecd)
    (nbQ : Neighborhood) :
  rebuild order pos dynamics_range get_search_depth relation (cll, cfg)
    = Ok (cll', cfg') ->
  (0 <= CutOffRadius kernel)%Q ->
  pos !! P = Some posP -> pos !! Q = Some posQ ->
  (CutOffRadius kernel * CutOffRadius kernel < distance_sqr posQ posP)%Q ->
  cfg' !! Q = Some nbQ ->
  P ∉ neighbors nbQ.
Proof.
  intros E _ EP EQ Hfar EnbQ Hin.
  apply (elem_of_rebuilt_neighbors _ _ _ _ _ _ _ _ E EnbQ) in Hin as [_ Hin].
  pose proof (rebuild_spec _ _ _ _ _ E) as (Ecell & _).
  apply (elem_of_found_neighbors _ _ _ _ _ Ecell) in Hin
    as (posQ' & posP' & EQ' & EP' & _ & _ & Hacc).
  rewrite EQ in EQ'. rewrite EP in EP'. inversion EQ'. inversion EP'. subst.
  apply accepts_true in Hacc as [Hnear _]. lra.
Qed.

(** C2: neighbour membership is symmetric.  After a rebuild on a static
    configuration, two distinct particles within the cutoff radius of each
    other are each in the other's neighbourhood, provided the mesh is well
    formed and the cutoff radius fits into the search window. *)
Theorem neighbors_symmetric (order : list nat) (cll cll' : CellLinkedList)
    (cfg cfg' : ParticleConfiguration) (P Q : nat) (posP posQ : Vecd) :
  rebuild order pos dynamics_range get_search_depth relation (cll, cfg)
    = Ok (cll', cfg') ->
  cells_fit_int cll -> (0 < grid_spacing_ cll)%Q ->
  (0 <= CutOffRadius kernel)%Q ->
  (forall index_i,
      CutOffRadius kernel <= inject_Z (get_search_depth index_i) * grid_spacing_ cll)%Q ->
  P ∈ order -> Q ∈ order -> P ∈ dynamics_range -> Q ∈ dynamics_range ->
  P <> Q ->
  pos !! P = Some posP -> pos !! Q = Some posQ ->
  (distance_sqr posP posQ <= CutOffRadius kernel * CutOffRadius kernel)%Q ->
  exists nbP nbQ,
    cfg' !! P = Some nbP /\ cfg' !! Q = Some nbQ /\
    Q ∈ neighbors nbP /\ P ∈ neighbors nbQ.
Proof.
  intros E Hfit Hh Hr Hdepth HPo HQo HPr HQr Hne EP EQ Hdist.
  destruct (neighbor_found order cll cll' cfg cfg' P Q posP posQ)
    as (nbP & EnbP & HQ); auto.
  destruct (neighbor_found order cll cll' cfg cfg' Q P posQ posP)
    as (nbQ & EnbQ & HP); auto.
  { rewrite distance_sqr_sym. assumption. }
  exists nbP, nbQ. auto.
Qed.

(** C3: the search scans exactly the cells of the window around the
    particle's cell that lie in the domain.  Every scanned index is between
    [0] and [number_of_cells - 1] and at most [search_depth] away from the
    particle's own cell index on each axis, so no cell on the opposite side
    of the domain is visited; the neighbour relation sees the entries of
    these cells and nothing else. *)
Theorem search_window_is_clamped (cll : CellLinkedList) (pos_i : Vecd)
    (index_i : nat) (search_depth : Z) (get_neighbor_relation : neighbor_relation)
    (neighborhood : Neighborhood) :
  cells_fit_int cll ->
  search_cells cll pos_i index_i search_depth get_neighbor_relation neighborhood
  = for_each (fun nb d => get_neighbor_relation nb pos_i index_i d)
      (c ← scanned_cells cll pos_i search_depth;
       cell_data_lists_ cll c.1.1 c.1.2 c.2)
      neighborhood /\
  forall l m q,
    (l, m, q) ∈ scanned_cells cll pos_i search_depth <->
    in_window (number_of_cells_ cll).1.1 (CellIndexFromPosition cll pos_i).1.1
              search_depth l /\
    in_window (number_of_cells_ cll).1.2 (CellIndexFromPosition cll pos_i).1.2
              search_depth m /\
    in_window (number_of_cells_ cll).2 (CellIndexFromPosition cll pos_i).2
              search_depth q.
Proof.
  intros Hfit. split.
  - apply search_cells_spec.
  - intros l m q. apply elem_of_scanned_cells. assumption.
Qed.

Lemma found_neighbors_Permutation (cll1 cll2 : CellLinkedList) (index_i : nat) :
  same_mesh cll1 cll2 ->
  (forall l m q, cell_data_lists_ cll2 l m q ≡ₚ cell_data_lists_ cll1 l m q) ->
  (forall p d, scanned_list_data cll2 p d ≡ₚ scanned_list_data cll1 p d) /\
  found_neighbors cll2 kernel pos get_search_depth index_i
  ≡ₚ found_neighbors cll1 kernel pos get_search_depth index_i.
Proof.
  intros M Hlists.
  assert (Hscan : forall p d, scanned_list_data cll2 p d ≡ₚ scanned_list_data cll1 p d).
  { intros p d. unfold scanned_list_data.
    rewrite (scanned_cells_ext cll1 cll2) by assumption.
    apply bind_pointwise_Permutation. intros c _. apply Hlists. }
  split; [exact Hscan|].
  unfold found_neighbors. destruct (pos !! index_i) as [pos_i|]; [|reflexivity].
  rewrite Hscan. reflexivity.
Qed.

(** C4: rebuilding is idempotent on neighbour sets.  After one rebuild, a
    second rebuild of the unmoved particles succeeds and gives every
    particle the same neighbour indices up to order, with the same number of
    records, whatever the order in which the cell lists are filled and
    whatever the configuration held before the first rebuild. *)
Theorem rebuild_idempotent (order1 order2 : list nat) (cll0 cll1 : CellLinkedList)
    (cfg0 cfg1 : ParticleConfiguration) :
  Permutation order1 order2 ->
  rebuild order1 pos dynamics_range get_search_depth relation (cll0, cfg0)
    = Ok (cll1, cfg1) ->
  exists cll2 cfg2,
    rebuild order2 pos dynamics_range get_search_depth relation (cll1, cfg1)
      = Ok (cll2, cfg2) /\
    length cfg2 = length cfg1 /\
    forall index_i nb1, cfg1 !! index_i = Some nb1 ->
      exists nb2, cfg2 !! index_i = Some nb2 /\ neighbors nb2 ≡ₚ neighbors nb1.
Proof.
  intros Hperm E1.
  pose proof (rebuild_spec _ _ _ _ _ E1) as (Ecell1 & Hlen1 & Hok1 & Hn1).
  pose proof (updateCellLists_spec _ _ _ _ Ecell1) as (M1 & Hpos1 & Hlists1).
  (* the second pass over the cell lists *)
  destruct (updateCellLists_success order2 pos cll1) as (cll2 & Ecell2).
  { rewrite <- Hperm. assumption. }
  pose proof (updateCellLists_spec _ _ _ _ Ecell2) as (M2 & _ & Hlists2).
  assert (Hlists : forall l m q,
             cell_data_lists_ cll2 l m q ≡ₚ cell_data_lists_ cll1 l m q).
  { intros l m q. rewrite Hlists1, Hlists2.
    rewrite (list_filter_iff _ _ _ (fun d => in_cell_ext cll0 cll1 (l, m, q) d M1)).
    unfold list_data_of. rewrite Hperm. reflexivity. }
  (* the second pass over the configuration *)
  assert (Hok2 : Forall (searchable kernel Vol TinyReal cll2 pos get_search_depth
                           (length (reset_current_size <$> cfg1)))
                        dynamics_range).
  { rewrite length_fmap, Hlen1. eapply Forall_impl; [exact Hok1|].
    intros x (Hx & p & Ep & Hb). split; [assumption|]. exists p. split; [assumption|].
    rewrite (proj1 (found_neighbors_Permutation cll1 cll2 x M2 Hlists)). assumption. }
  apply search_loop_success in Hok2 as (cfg2 & E2).
  assert (Er : rebuild order2 pos dynamics_range get_search_depth relation (cll1, cfg1)
               = Ok (cll2, cfg2)).
  { unfold rebuild. apply bind_Ok. exists cll2. split; [exact Ecell2|].
    apply bind_Ok. exists cfg2. split; [exact E2 | reflexivity]. }
  exists cll2, cfg2. split; [assumption|].
  pose proof (rebuild_spec _ _ _ _ _ Er) as (_ & Hlen2 & _ & Hn2).
  split; [assumption|].
  intros i nb1 Ei.
  assert (Hi : (i < length cfg2)%nat)
    by (rewrite Hlen2; eapply lookup_lt_Some; eauto).
  destruct (lookup_lt_is_Some_2 cfg2 i Hi) as [nb2 E2i].
  exists nb2. split; [assumption|].
  rewrite (Hn1 _ _ Ei), (Hn2 _ _ E2i).
  apply bind_pointwise_Permutation. intros x _.
  destruct (decide (x = i)); [|reflexivity].
  apply found_neighbors_Permutation; assumption.
Qed.

End Rebuild.
End MeshProperties.

(** *** The three-particle scenario *)

Lemma no_false_positives_witness :
  exists cll' cfg' nb0 nb1,
    Mesh.scenario_rebuild [0; 1; 2]%nat Mesh.scenario_start = Ok (cll', cfg') /\
    (cfg' !! 0%nat = Some nb0) /\ (cfg' !! 1%nat = Some nb1) /\
    (2%nat ∉ neighbors nb0) /\ (2%nat ∉ neighbors nb1).
Proof.
  eexists _, _, _, _.
  split; [vm_compute; reflexivity|].
  split; [reflexivity|]. split; [reflexivity|]. split.
  - eapply (@no_false_positives ExactLibM Mesh.scenario_kernel [1; 1; 1]%Q
             (1 # 1000000) Mesh.scenario_pos [0; 1; 2]%nat (fun _ => 1%Z)
             [0; 1; 2]%nat Mesh.scenario_mesh _
             Mesh.scenario_start.2 _ 2%nat 0%nat (0, 2.0, 0)%Q (0, 0, 0)%Q).
    + vm_compute. reflexivity.
    + vm_compute. discriminate.
    + reflexivity.
    + reflexivity.
    + vm_compute. reflexivity.
    + reflexivity.
  - eapply (@no_false_positives ExactLibM Mesh.scenario_kernel [1; 1; 1]%Q
             (1 # 1000000) Mesh.scenario_pos [0; 1; 2]%nat (fun _ => 1%Z)
             [0; 1; 2]%nat Mesh.scenario_mesh _
             Mesh.scenario_start.2 _ 2%nat 1%nat (0, 2.0, 0)%Q (0, 0.5, 0)%Q).
    + vm_compute. reflexivity.
    + vm_compute. discriminate.
    + reflexivity.
    + reflexivity.
    + vm_compute. reflexivity.
    + reflexivity.
Defined.

Lemma neighbors_symmetric_witness :
  exists cll' cfg' nb0 nb1,
    Mesh.scenario_rebuild [0; 1; 2]%nat Mesh.scenario_start = Ok (cll', cfg') /\
    (cfg' !! 0%nat = Some nb0) /\ (cfg' !! 1%nat = Some nb1) /\
    (1%nat ∈ neighbors nb0) /\ (0%nat ∈ neighbors nb1).
Proof.
  assert (E : exists cll' cfg',
             Mesh.scenario_rebuild [0; 1; 2]%nat Mesh.scenario_start = Ok (cll', cfg')).
  { eexists _, _. vm_compute. reflexivity. }
  destruct E as (cll' & cfg' & E).
  destruct (@neighbors_symmetric ExactLibM Mesh.scenario_kernel [1; 1; 1]%Q
              (1 # 1000000) Mesh.scenario_pos [0; 1; 2]%nat (fun _ => 1%Z)
              [0; 1; 2]%nat Mesh.scenario_mesh cll'
              Mesh.scenario_start.2 cfg' 0%nat 1%nat (0, 0, 0)%Q (0, 0.5, 0)%Q)
    as (nb0 & nb1 & E0 & E1 & H01 & H10).
  - exact E.
  - unfold Mesh.cells_fit_int. simpl. lia.
  - reflexivity.
  - vm_compute. discriminate.
  - intros index_i. vm_compute. discriminate.
  - apply list_elem_of_In. simpl. tauto.
  - apply list_elem_of_In. simpl. tauto.
  - apply list_elem_of_In. simpl. tauto.
  - apply list_elem_of_In. simpl. tauto.
  - discriminate.
  - reflexivity.
  - reflexivity.
  - vm_compute. discriminate.
  - exists cll', cfg', nb0, nb1. auto.
Defined.

Lemma search_window_is_clamped_witness :
  ((1, 4, 0)%Z ∈ Mesh.scanned_cells Mesh.scenario_mesh (0, 2.0, 0)%Q 1) /\
  ((1, 3, -1)%Z ∉ Mesh.scanned_cells Mesh.scenario_mesh (0, 2.0, 0)%Q 1) /\
  ((1, 3, 1)%Z ∉ Mesh.scanned_cells Mesh.scenario_mesh (0, 2.0, 0)%Q 1).
Proof.
  assert (Hfit : Mesh.cells_fit_int Mesh.scenario_mesh)
    by (unfold Mesh.cells_fit_int; simpl; lia).
  destruct (search_window_is_clamped Mesh.scenario_mesh (0, 2.0, 0)%Q 2 1
              (fun nb _ _ _ => Ok nb) Mesh.empty_neighborhood Hfit) as [_ Hwindow].
  split; [|split].
  - apply Hwindow. vm_compute. repeat split; discriminate.
  - intros Hin. apply Hwindow in Hin. vm_compute in Hin.
    destruct Hin as (_ & _ & (Hq & _) & _). apply Hq. reflexivity.
  - intros Hin. apply Hwindow in Hin. vm_compute in Hin.
    destruct Hin as (_ & _ & (_ & Hq) & _). apply Hq. reflexivity.
Defined.

Lemma rebuild_idempotent_witness :
  exists cll1 cfg1,
    Mesh.scenario_rebuild [0; 1; 2]%nat Mesh.scenario_start = Ok (cll1, cfg1) /\
    exists cll2 cfg2,
      Mesh.scenario_rebuild [2; 1; 0]%nat (cll1, cfg1) = Ok (cll2, cfg2) /\
      length cfg2 = length cfg1 /\
      forall index_i nb1, cfg1 !! index_i = Some nb1 ->
        exists nb2, cfg2 !! index_i = Some nb2 /\ neighbors nb2 ≡ₚ neighbors nb1.
Proof.
  eexists _, _. split; [vm_compute; reflexivity|].
  apply (@rebuild_idempotent ExactLibM Mesh.scenario_kernel [1; 1; 1]%Q
           (1 # 1000000) Mesh.scenario_pos [0; 1; 2]%nat (fun _ => 1%Z)
           [0; 1; 2]%nat [2; 1; 0]%nat Mesh.scenario_mesh _ Mesh.scenario_start.2 _).
  - apply (Permutation_rev [0; 1; 2]%nat).
  - vm_compute. reflexivity.
Defined.
(** ** Further properties of the code *)

(** An invariant of the loop body over the elements of the list is an
    invariant of the loop. *)
Lemma for_each_invariant_in {S A : Type} (P : S -> Prop) (body : S -> A -> outcome S)
    (l : list A) (st st' : S) :
  (forall s x s', x ∈ l -> P s -> body s x = Ok s' -> P s') ->
  P st -> for_each body l st = Ok st' -> P st'.
Proof.
  revert st. induction l as [|x l IH]; intros st Hbody HP E; simpl in E.
  - inversion E. subst. assumption.
  - apply bind_Ok in E as (s1 & E1 & E2).
    apply (IH s1).
    + intros s y s' Hy. apply Hbody. right. assumption.
    + apply (Hbody st x s1); [left | assumption | assumption].
    + assumption.
Qed.

(** An invariant of the body of the neighbour loop, over the records in
    use, is an invariant of the loop. *)
Lemma loop_neighbors_invariant {S : Type} (P : S -> Prop) (nb : Neighborhood)
    (body : S -> nat -> outcome S) (init st' : S) :
  (forall s n s', (n < current_size_ nb)%nat -> P s -> body s n = Ok s' -> P s') ->
  P init -> ParticleDynamics.loop_neighbors nb body init = Ok st' -> P st'.
Proof.
  intros Hbody. unfold ParticleDynamics.loop_neighbors. apply for_each_invariant_in.
  intros s n s' Hn. apply Hbody. apply elem_of_seq in Hn. lia.
Qed.

Lemma vec_div_Ok (a v : Vecd) (s : Real) :
  vec_div a s = Ok v <->
  ~ (s == 0)%Q /\ v = (a.1.1 / s, a.1.2 / s, a.2 / s)%Q.
Proof.
  destruct a as [[ax ay] az]. unfold vec_div. simpl. split.
  - intros E. apply bind_Ok in E as (x & Ex & E). apply bind_Ok in E as (y & Ey & E).
    apply bind_Ok in E as (z & Ez & E).
    apply real_div_Ok in Ex as [Hs ->]. apply real_div_Ok in Ey as [_ ->].
    apply real_div_Ok in Ez as [_ ->]. inversion E. auto.
  - intros [Hs ->]. rewrite !real_div_nonzero by assumption. reflexivity.
Qed.

(** *** The search of one particle and of a range *)

Section SearchProperties.
Import Mesh.

Lemma int_range_NoDup (lo hi : Z) : NoDup (int_range lo hi).
Proof.
  unfold int_range. apply NoDup_fmap_2_strong; [|apply NoDup_seq].
  intros a b _ _ E. lia.
Qed.

Lemma int_range_length (lo hi : Z) :
  length (int_range lo hi) = Z.to_nat (hi - lo + 1).
Proof. unfold int_range. rewrite length_fmap, length_seq. reflexivity. Qed.

Lemma bind_length_le {A B : Type} (f : A -> list B) (l : list A) (m : nat) :
  (forall x, x ∈ l -> (length (f x) <= m)%nat) ->
  (length (l ≫= f) <= length l * m)%nat.
Proof.
  induction l as [|x l IH]; intros Hf; [simpl; lia|].
  rewrite bind_cons, length_app. simpl.
  assert (length (f x) <= m)%nat by (apply Hf; left).
  assert (length (l ≫= f) <= length l * m)%nat.
  { apply IH. intros y Hy. apply Hf. right. assumption. }
  lia.
Qed.

Lemma window_length (c n search_depth : Z) :
  (0 <= search_depth)%Z ->
  (length (int_range (Z.max (c - search_depth) 0) (Z.min (c + search_depth) (n - 1)))
   <= Z.to_nat (2 * search_depth + 1))%nat.
Proof. intros Hd. rewrite int_range_length. lia. Qed.

Lemma scanned_cells_NoDup (cll : CellLinkedList) (pos_i : Vecd) (search_depth : Z) :
  NoDup (scanned_cells cll pos_i search_depth).
Proof.
  unfold scanned_cells.
  destruct (CellIndexFromPosition cll pos_i) as [[c0 c1] c2].
  destruct (number_of_cells_ cll) as [[n0 n1] n2].
  apply NoDup_bind; [| |apply int_range_NoDup].
  - intros l1 l2 y _ _ H1 H2.
    apply list_elem_of_bind in H1 as (m1 & H1 & _).
    apply list_elem_of_bind in H1 as (q1 & H1 & _).
    apply list_elem_of_bind in H2 as (m2 & H2 & _).
    apply list_elem_of_bind in H2 as (q2 & H2 & _).
    apply list_elem_of_singleton in H1, H2. congruence.
  - intros l _. apply NoDup_bind; [| |apply int_range_NoDup].
    + intros m1 m2 y _ _ H1 H2.
      apply list_elem_of_bind in H1 as (q1 & H1 & _).
      apply list_elem_of_bind in H2 as (q2 & H2 & _).
      apply list_elem_of_singleton in H1, H2. congruence.
    + intros m _. apply NoDup_bind; [| |apply int_range_NoDup].
      * intros q1 q2 y _ _ H1 H2.
        apply list_elem_of_singleton in H1, H2. congruence.
      * intros q _. apply NoDup_singleton.
Qed.

Lemma scanned_cells_length (cll : CellLinkedList) (pos_i : Vecd) (search_depth : Z) :
  (0 <= search_depth)%Z ->
  (Z.of_nat (length (scanned_cells cll pos_i search_depth))
   <= (2 * search_depth + 1) ^ 3)%Z.
Proof.
  intros Hd. unfold scanned_cells.
  destruct (CellIndexFromPosition cll pos_i) as [[c0 c1] c2].
  destruct (number_of_cells_ cll) as [[n0 n1] n2].
  set (w := Z.to_nat (2 * search_depth + 1)).
  match goal with |- (Z.of_nat (length (?l ≫= ?f)) <= _)%Z =>
    assert (Hlen : (length (l ≫= f) <= length l * (w * (w * 1)))%nat)
  end.
  { apply bind_length_le. intros l _.
    etransitivity; [apply (bind_length_le _ _ (w * 1))|].
    - intros m _. etransitivity; [apply (bind_length_le _ _ 1)|].
      + intros q _. simpl. lia.
      + apply Nat.mul_le_mono_r. apply window_length. assumption.
    - apply Nat.mul_le_mono_r. apply window_length. assumption. }
  pose proof (window_length (to_int c0) (to_int n0) search_depth Hd) as H0.
  fold w in H0.
  assert (Hw : Z.of_nat w = (2 * search_depth + 1)%Z) by (unfold w; lia).
  rewrite <- Hw.
  assert (length (int_range (Z.max (to_int c0 - search_depth) 0)
             (Z.min (to_int c0 + search_depth) (to_int n0 - 1))) * (w * (w * 1))
          <= w * (w * (w * 1)))%nat by (apply Nat.mul_le_mono_r; assumption).
  change (Z.of_nat w ^ 3)%Z with (Z.of_nat w * (Z.of_nat w * (Z.of_nat w * 1)))%Z.
  nia.
Qed.

(** X1: for a non-negative search depth, the three nested cell loops of
    [searchNeighborsByParticles] hand the entries of every cell they reach to
    the neighbour relation, reach no cell twice, and reach at most
    [(2 * search_depth + 1) ^ 3] cells for one particle. *)
Theorem search_scans_each_cell_once (cll : CellLinkedList) (pos_i : Vecd)
    (index_i : nat) (search_depth : Z) (get_neighbor_relation : neighbor_relation)
    (neighborhood : Neighborhood) :
  (0 <= search_depth)%Z ->
  search_cells cll pos_i index_i search_depth get_neighbor_relation neighborhood
  = for_each (fun nb d => get_neighbor_relation nb pos_i index_i d)
      (c ← scanned_cells cll pos_i search_depth;
       cell_data_lists_ cll c.1.1 c.1.2 c.2)
      neighborhood /\
  NoDup (scanned_cells cll pos_i search_depth) /\
  (Z.of_nat (length (scanned_cells cll pos_i search_depth))
   <= (2 * search_depth + 1) ^ 3)%Z.
Proof.
  intros Hd. split; [apply search_cells_spec|].
  split; [apply scanned_cells_NoDup | apply scanned_cells_length; assumption].
Qed.

(** One particle's pass of the search. *)
Lemma search_pass_Ok (cll : CellLinkedList) (pos : list Vecd)
    (get_search_depth : nat -> Z) (get_neighbor_relation : neighbor_relation)
    (cfg cfg' : ParticleConfiguration) (index_i : nat) :
  (pos_i ← read pos index_i;
   neighborhood ← read cfg index_i;
   neighborhood' ←
     search_cells cll pos_i index_i (get_search_depth index_i)
                  get_neighbor_relation neighborhood;
   write cfg index_i neighborhood') = Ok cfg' <->
  exists pos_i neighborhood neighborhood',
    pos !! index_i = Some pos_i /\ cfg !! index_i = Some neighborhood /\
    search_cells cll pos_i index_i (get_search_depth index_i)
                 get_neighbor_relation neighborhood = Ok neighborhood' /\
    cfg' = <[index_i := neighborhood']> cfg.
Proof.
  split.
  - intros E. apply bind_Ok in E as (pos_i & E1 & E).
    apply bind_Ok in E as (nb & E2 & E). apply bind_Ok in E as (nb' & E3 & E).
    apply read_Ok in E1, E2. apply write_Ok in E as [_ ->].
    exists pos_i, nb, nb'. auto.
  - intros (pos_i & nb & nb' & E1 & E2 & E3 & ->).
    apply read_Ok in E1 as E1'. rewrite E1'. simpl.
    apply read_Ok in E2 as E2'. rewrite E2'. simpl. rewrite E3. simpl.
    apply write_Ok. split; [|reflexivity].
    apply lookup_lt_Some in E2. assumption.
Qed.

(** X2: [searchNeighborsByParticles] writes the neighbourhoods of the
    particles of its dynamics range only: the table keeps its size, and the
    neighbourhood of every particle outside the range is left as it was. *)
Theorem search_leaves_other_particles (cll : CellLinkedList) (pos : list Vecd)
    (dynamics_range : list nat) (get_search_depth : nat -> Z)
    (get_neighbor_relation : neighbor_relation)
    (particle_configuration particle_configuration' : ParticleConfiguration) :
  searchNeighborsByParticles cll pos dynamics_range particle_configuration
    get_search_depth get_neighbor_relation = Ok particle_configuration' ->
  length particle_configuration' = length particle_configuration /\
  forall index_j, index_j ∉ dynamics_range ->
    particle_configuration' !! index_j = particle_configuration !! index_j.
Proof.
  unfold searchNeighborsByParticles. intros E.
  apply (for_each_invariant_in
           (fun cfg => length cfg = length particle_configuration /\
                       forall index_j, index_j ∉ dynamics_range ->
                         cfg !! index_j = particle_configuration !! index_j)
           _ _ _ _) in E; [assumption| |auto].
  intros cfg index_i cfg' Hin [Hlen Hframe] Ebody.
  apply search_pass_Ok in Ebody as (pos_i & nb & nb' & _ & _ & _ & ->).
  split; [rewrite length_insert; assumption|].
  intros index_j Hj. rewrite list_lookup_insert_ne; [auto|].
  intros ->. contradiction.
Qed.

(** X3: the result of [searchNeighborsByParticles] does not depend on the
    order in which the particles of the dynamics range are visited, for any
    neighbour relation: a search that succeeds in one order succeeds in every
    other order with the same table. *)
Theorem search_independent_of_order (cll : CellLinkedList) (pos : list Vecd)
    (dynamics_range dynamics_range' : list nat) (get_search_depth : nat -> Z)
    (get_neighbor_relation : neighbor_relation)
    (particle_configuration particle_configuration' : ParticleConfiguration) :
  dynamics_range ≡ₚ dynamics_range' ->
  searchNeighborsByParticles cll pos dynamics_range particle_configuration
    get_search_depth get_neighbor_relation = Ok particle_configuration' ->
  searchNeighborsByParticles cll pos dynamics_range' particle_configuration
    get_search_depth get_neighbor_relation = Ok particle_configuration'.
Proof.
  unfold searchNeighborsByParticles. intros Hperm.
  apply for_each_swap; [|assumption].
  intros cfg x y cfg' E.
  apply bind_Ok in E as (cfg1 & Ex & Ey).
  destruct (decide (x = y)) as [-> | Hxy].
  { rewrite Ex. exact Ey. }
  apply search_pass_Ok in Ex as (px & nbx & nbx' & Px & Nx & Sx & ->).
  apply search_pass_Ok in Ey as (py & nby & nby' & Py & Ny & Sy & ->).
  rewrite list_lookup_insert_ne in Ny by assumption.
  apply bind_Ok. exists (<[y := nby']> cfg). split.
  - apply search_pass_Ok. exists py, nby, nby'. auto.
  - apply search_pass_Ok. exists px, nbx, nbx'.
    rewrite list_lookup_insert_ne by congruence.
    repeat split; try assumption.
    apply list_insert_insert_ne. congruence.
Qed.

End SearchProperties.

Lemma search_scans_each_cell_once_witness :
  NoDup (Mesh.scanned_cells Mesh.scenario_mesh (0, 0, 0)%Q 1) /\
  (Z.of_nat (length (Mesh.scanned_cells Mesh.scenario_mesh (0, 0, 0)%Q 1)) <= 27)%Z.
Proof.
  apply (search_scans_each_cell_once Mesh.scenario_mesh (0, 0, 0)%Q 0 1
           (fun nb _ _ _ => Ok nb) Mesh.empty_neighborhood).
  lia.
Defined.

Lemma search_leaves_other_particles_witness :
  exists cfg',
    SearchScenario.scenario_search [0; 1]%nat Mesh.scenario_start.2 = Ok cfg' /\
    length cfg' = 3%nat /\
    cfg' !! 2%nat = Some Mesh.stale_neighborhood.
Proof.
  assert (E : exists cfg',
             SearchScenario.scenario_search [0; 1]%nat Mesh.scenario_start.2 = Ok cfg').
  { eexists. vm_compute. reflexivity. }
  destruct E as (cfg' & E). exists cfg'. split; [exact E|].
  destruct (search_leaves_other_particles _ _ _ _ _ _ _ E) as [Hlen Hframe].
  split; [rewrite Hlen; reflexivity|].
  rewrite Hframe; [reflexivity|].
  intros Hin. apply list_elem_of_In in Hin. simpl in Hin.
  destruct Hin as [Hin | [Hin | []]]; discriminate.
Defined.

Lemma search_independent_of_order_witness :
  exists cfg',
    SearchScenario.scenario_search [0; 1; 2]%nat Mesh.scenario_start.2 = Ok cfg' /\
    SearchScenario.scenario_search [2; 0; 1]%nat Mesh.scenario_start.2 = Ok cfg'.
Proof.
  eexists. split; [vm_compute; reflexivity|].
  apply (search_independent_of_order SearchScenario.scenario_cells
           Mesh.scenario_pos [0; 1; 2]%nat [2; 0; 1]%nat).
  - change [2; 0; 1]%nat with ([2] ++ [0; 1])%nat.
    change [0; 1; 2]%nat with ([0; 1] ++ [2])%nat. apply Permutation_app_comm.
  - vm_compute. reflexivity.
Defined.

(** *** Kernels over the neighbourhood table *)

Section KernelSums.
Import ParticleDynamics.

(** X4: [FreeSurfaceIndicationInner::interaction] stores a non-negative
    position divergence when, over the neighbour records in use, the
    kernel-gradient weights are non-positive and the distances
    non-negative. *)
Theorem position_divergence_nonneg (d d' : ParticleData) (index_i : nat) (dt : Real) :
  FreeSurfaceIndicationInner_interaction d index_i dt = Ok d' ->
  (forall inner_neighborhood n dW r,
     inner_configuration_ d !! index_i = Some inner_neighborhood ->
     (n < current_size_ inner_neighborhood)%nat ->
     dW_ijV_j_ inner_neighborhood !! n = Some dW ->
     r_ij_ inner_neighborhood !! n = Some r ->
     (dW <= 0 /\ 0 <= r)%Q) ->
  exists pos_div, pos_div_ d' !! index_i = Some pos_div /\ (0 <= pos_div)%Q.
Proof.
  unfold FreeSurfaceIndicationInner_interaction. intros E Hsign.
  apply bind_Ok in E as (nb & Enb & E). apply read_Ok in Enb.
  apply bind_Ok in E as (pos_div & Eloop & E).
  apply bind_Ok in E as (pos_div' & Ew & E).
  apply write_Ok in Ew as [Hlt ->]. inversion E. subst d'. clear E.
  exists pos_div. split; [simpl; apply list_lookup_insert_eq; assumption|].
  revert Eloop.
  apply (loop_neighbors_invariant (fun s : Real => (0 <= s)%Q)); [|apply Qle_refl].
  intros s n s' Hn Hs Ebody.
  apply bind_Ok in Ebody as (dW & EdW & Ebody). apply read_Ok in EdW.
  apply bind_Ok in Ebody as (r & Er & Ebody). apply read_Ok in Er.
  inversion Ebody. subst s'.
  destruct (Hsign nb n dW r Enb Hn EdW Er) as [HdW Hr]. nra.
Qed.

(** X5: [LaplacianInner::loopNeighbors] stores zero for a particle whose
    input variable has the same value as that of each of its neighbours in
    use, whatever the coefficient function, the weights and the distances. *)
Theorem laplacian_of_constant_field (d d' : ParticleData) (index_i : nat)
    (coefficient : nat -> nat -> Real) (c : Real) :
  LaplacianInner_loopNeighbors d index_i coefficient = Ok d' ->
  (forall in_i, in_variable_ d !! index_i = Some in_i -> (in_i == c)%Q) ->
  (forall neighborhood n index_j in_j,
     inner_configuration_ d !! index_i = Some neighborhood ->
     (n < current_size_ neighborhood)%nat ->
     j_ neighborhood !! n = Some index_j ->
     in_variable_ d !! index_j = Some in_j -> (in_j == c)%Q) ->
  exists out, out_variable_ d' !! index_i = Some out /\ (out == 0)%Q.
Proof.
  unfold LaplacianInner_loopNeighbors. intros E Hi Hj.
  apply bind_Ok in E as (nb & Enb & E). apply read_Ok in Enb.
  apply bind_Ok in E as (sum & Eloop & E).
  apply bind_Ok in E as (out' & Ew & E).
  apply write_Ok in Ew as [Hlt ->]. inversion E. subst d'. clear E.
  exists sum. split; [simpl; apply list_lookup_insert_eq; assumption|].
  revert Eloop.
  apply (loop_neighbors_invariant (fun s : Real => (s == 0)%Q)); [|reflexivity].
  intros s n s' Hn Hs Ebody.
  apply bind_Ok in Ebody as (index_j & Ej & Ebody). apply read_Ok in Ej.
  apply bind_Ok in Ebody as (in_i & Ei & Ebody). apply read_Ok in Ei.
  apply bind_Ok in Ebody as (in_j & Einj & Ebody). apply read_Ok in Einj.
  apply bind_Ok in Ebody as (dW & EdW & Ebody).
  apply bind_Ok in Ebody as (r & Er & Ebody).
  apply bind_Ok in Ebody as (term & Eterm & Ebody).
  apply real_div_Ok in Eterm as [Hr ->]. inversion Ebody. subst s'.
  rewrite Hs, (Hi in_i Ei), (Hj nb n index_j in_j Enb Hn Ej Einj).
  unfold Qdiv. ring.
Qed.

(** X7: [ParticleSmoothing::interaction] keeps the sign of the smoothed
    field: when the kernel weights are non-negative and [TinyReal] is
    positive, it stores a value that is not negative for a field without
    negative values, and a value that is not positive for a field without
    positive values. *)
Theorem smoothing_keeps_sign (TinyReal : Real) (d d' : ParticleData)
    (index_i : nat) (dt : Real) :
  ParticleSmoothing_interaction TinyReal d index_i dt = Ok d' ->
  (0 < TinyReal)%Q -> (0 <= W0_ d)%Q ->
  (forall inner_neighborhood n W_ij,
     inner_configuration_ d !! index_i = Some inner_neighborhood ->
     (n < current_size_ inner_neighborhood)%nat ->
     W_ij_ inner_neighborhood !! n = Some W_ij -> (0 <= W_ij)%Q) ->
  (Forall (fun smoothed_j => (0 <= smoothed_j)%Q) (smoothed_ d) ->
   exists value, temp_ d' !! index_i = Some value /\ (0 <= value)%Q) /\
  (Forall (fun smoothed_j => (smoothed_j <= 0)%Q) (smoothed_ d) ->
   exists value, temp_ d' !! index_i = Some value /\ (value <= 0)%Q).
Proof.
  unfold ParticleSmoothing_interaction. intros E Htiny HW0 HW.
  apply bind_Ok in E as (smoothed_i & Ei & E). apply read_Ok in Ei.
  apply bind_Ok in E as (nb & Enb & E). apply read_Ok in Enb.
  apply bind_Ok in E as ([summation weight] & Eloop & E).
  apply bind_Ok in E as (value & Ediv & E). apply real_div_Ok in Ediv as [Hden ->].
  apply bind_Ok in E as (temp' & Ew & E).
  apply write_Ok in Ew as [Hlt ->]. inversion E. subst d'. clear E.
  split; intros Hsign;
    (eexists; split; [simpl; apply list_lookup_insert_eq; assumption|]);
    pose proof (Forall_lookup_1 _ _ _ _ Hsign Ei) as Hsi; simpl in Hsi.
  - assert (Hinv : (0 <= weight /\ 0 <= summation)%Q).
    { revert Eloop.
      apply (loop_neighbors_invariant
               (fun st : Real * Real => (0 <= st.2 /\ 0 <= st.1)%Q)).
      - intros [s w] n s' Hn (Hw & Hs) Ebody. simpl in *.
        apply bind_Ok in Ebody as (index_j & Ej & Ebody).
        apply bind_Ok in Ebody as (W_ij & EW & Ebody). apply read_Ok in EW.
        apply bind_Ok in Ebody as (smoothed_j & Esj & Ebody). apply read_Ok in Esj.
        inversion Ebody. subst s'. simpl.
        pose proof (HW nb n W_ij Enb Hn EW) as HWn.
        pose proof (Forall_lookup_1 _ _ _ _ Hsign Esj) as Hsj. simpl in Hsj.
        nra.
      - simpl. nra. }
    destruct Hinv as (Hw & Hs).
    apply Qle_shift_div_l; lra.
  - assert (Hinv : (0 <= weight /\ summation <= 0)%Q).
    { revert Eloop.
      apply (loop_neighbors_invariant
               (fun st : Real * Real => (0 <= st.2 /\ st.1 <= 0)%Q)).
      - intros [s w] n s' Hn (Hw & Hs) Ebody. simpl in *.
        apply bind_Ok in Ebody as (index_j & Ej & Ebody).
        apply bind_Ok in Ebody as (W_ij & EW & Ebody). apply read_Ok in EW.
        apply bind_Ok in Ebody as (smoothed_j & Esj & Ebody). apply read_Ok in Esj.
        inversion Ebody. subst s'. simpl.
        pose proof (HW nb n W_ij Enb Hn EW) as HWn.
        pose proof (Forall_lookup_1 _ _ _ _ Hsign Esj) as Hsj. simpl in Hsj.
        nra.
      - simpl. nra. }
    destruct Hinv as (Hw & Hs).
    apply Qle_shift_div_r; lra.
Qed.

(** X11: [ViscousForceFromFluid::interaction] stores a zero force for a
    solid particle whose average velocity is the velocity of each of its
    fluid neighbours in use. *)
Theorem no_viscous_force_at_fluid_velocity (d d' : ParticleData) (index_i : nat)
    (dt : Real) :
  ViscousForceFromFluid_interaction d index_i dt = Ok d' ->
  (forall k configuration_k contact_neighborhood n index_j vel_n_k vel_ave_i vel_j,
     contact_configuration_ d !! k = Some configuration_k ->
     configuration_k !! index_i = Some contact_neighborhood ->
     (n < current_size_ contact_neighborhood)%nat ->
     j_ contact_neighborhood !! n = Some index_j ->
     contact_vel_n_ d !! k = Some vel_n_k ->
     vel_n_k !! index_j = Some vel_j ->
     vel_ave_ d !! index_i = Some vel_ave_i ->
     vec_eq vel_j vel_ave_i) ->
  exists force, force_from_fluid_ d' !! index_i = Some force /\ vec_eq force vec_zero.
Proof.
  unfold ViscousForceFromFluid_interaction. intros E Hvel.
  apply bind_Ok in E as (Vol_i & EVol & E).
  apply bind_Ok in E as (vel_ave_i & Eave & E). apply read_Ok in Eave.
  apply bind_Ok in E as (force & Eloop & E).
  apply bind_Ok in E as (force' & Ew & E).
  apply write_Ok in Ew as [Hlt ->]. inversion E. subst d'. clear E.
  exists force. split; [simpl; apply list_lookup_insert_eq; assumption|].
  revert Eloop.
  apply (for_each_invariant (fun f : Vecd => vec_eq f vec_zero));
    [|repeat split; reflexivity].
  intros f k f' Hf Ebody.
  apply bind_Ok in Ebody as (mu_k & Emu & Ebody).
  apply bind_Ok in Ebody as (h_k & Eh & Ebody).
  apply bind_Ok in Ebody as (vel_n_k & Evk & Ebody). apply read_Ok in Evk.
  apply bind_Ok in Ebody as (cfg_k & Ecfg & Ebody). apply read_Ok in Ecfg.
  apply bind_Ok in Ebody as (nb & Enb & Ebody). apply read_Ok in Enb.
  revert Ebody.
  apply (loop_neighbors_invariant (fun f : Vecd => vec_eq f vec_zero)); [|assumption].
  clear f Hf. intros f n f'' Hn Hf Ebody.
  apply bind_Ok in Ebody as (index_j & Ej & Ebody). apply read_Ok in Ej.
  apply bind_Ok in Ebody as (vel_j & Evj & Ebody). apply read_Ok in Evj.
  apply bind_Ok in Ebody as (r & Er & Ebody).
  apply bind_Ok in Ebody as (vd & Evd & Ebody). apply vec_div_Ok in Evd as [Hden ->].
  apply bind_Ok in Ebody as (dW & EdW & Ebody).
  inversion Ebody. subst f''. clear Ebody.
  pose proof (Hvel k cfg_k nb n index_j vel_n_k vel_ave_i vel_j
                Ecfg Enb Hn Ej Evk Evj Eave) as Heq.
  destruct f as [[f1 f2] f3], vel_ave_i as [[a1 a2] a3], vel_j as [[b1 b2] b3].
  unfold vec_eq in *. simpl in *.
  destruct Hf as (Hf1 & Hf2 & Hf3), Heq as (H1 & H2 & H3).
  rewrite Hf1, Hf2, Hf3, H1, H2, H3.
  repeat split; unfold Qdiv; ring.
Qed.

End KernelSums.

Lemma position_divergence_nonneg_witness :
  exists d' pos_div,
    ParticleDynamics.FreeSurfaceIndicationInner_interaction
      (ParticleDynamics.pair_at_distance 0.5) 0 0.001 = Ok d' /\
    ParticleDynamics.pos_div_ d' !! 0%nat = Some pos_div /\ (0 <= pos_div)%Q.
Proof.
  assert (E : exists d',
             ParticleDynamics.FreeSurfaceIndicationInner_interaction
               (ParticleDynamics.pair_at_distance 0.5) 0 0.001 = Ok d').
  { eexists. vm_compute. reflexivity. }
  destruct E as (d' & E).
  destruct (position_divergence_nonneg _ _ _ _ E) as (pos_div & Hpos & Hle).
  - intros nb n dW r Enb Hn EdW Er. injection Enb as <-. simpl in Hn.
    destruct n as [|n]; [|lia]. injection EdW as <-. injection Er as <-.
    split; discriminate.
  - exists d', pos_div. auto.
Defined.

Lemma laplacian_of_constant_field_witness :
  exists d' out,
    ParticleDynamics.LaplacianInner_loopNeighbors (Operators.uniform_pair 0.5) 0
      (fun _ _ => 1%Q) = Ok d' /\
    ParticleDynamics.out_variable_ d' !! 0%nat = Some out /\ (out == 0)%Q.
Proof.
  assert (E : exists d',
             ParticleDynamics.LaplacianInner_loopNeighbors
               (Operators.uniform_pair 0.5) 0 (fun _ _ => 1%Q) = Ok d').
  { eexists. vm_compute. reflexivity. }
  destruct E as (d' & E).
  destruct (laplacian_of_constant_field _ _ _ _ 3%Q E) as (out & Hout & Hzero).
  - intros in_i Ei. injection Ei as <-. reflexivity.
  - intros nb n index_j in_j Enb Hn Ej Ein. injection Enb as <-. simpl in Hn.
    destruct n as [|n]; [|lia]. injection Ej as <-. injection Ein as <-. reflexivity.
  - exists d', out. auto.
Defined.

Lemma smoothing_keeps_sign_witness :
  exists d' value,
    ParticleDynamics.ParticleSmoothing_interaction (1 # 1000000)
      (ParticleDynamics.pair_at_distance 0.5) 0 0.001 = Ok d' /\
    ParticleDynamics.temp_ d' !! 0%nat = Some value /\ (0 <= value)%Q.
Proof.
  assert (E : exists d',
             ParticleDynamics.ParticleSmoothing_interaction (1 # 1000000)
               (ParticleDynamics.pair_at_distance 0.5) 0 0.001 = Ok d').
  { eexists. vm_compute. reflexivity. }
  destruct E as (d' & E).
  destruct (smoothing_keeps_sign _ _ _ _ _ E) as (Hnonneg & _).
  - reflexivity.
  - discriminate.
  - intros nb n W_ij Enb Hn EW. injection Enb as <-. simpl in Hn.
    destruct n as [|n]; [|lia]. injection EW as <-. discriminate.
  - destruct Hnonneg as (value & Hvalue & Hbound).
    + repeat constructor; discriminate.
    + exists d', value. auto.
Defined.

Lemma no_viscous_force_at_fluid_velocity_witness :
  exists d' force,
    ParticleDynamics.ViscousForceFromFluid_interaction (Operators.uniform_pair 0.5)
      0 0.001 = Ok d' /\
    ParticleDynamics.force_from_fluid_ d' !! 0%nat = Some force /\
    vec_eq force vec_zero.
Proof.
  assert (E : exists d',
             ParticleDynamics.ViscousForceFromFluid_interaction
               (Operators.uniform_pair 0.5) 0 0.001 = Ok d').
  { eexists. vm_compute. reflexivity. }
  destruct E as (d' & E).
  destruct (no_viscous_force_at_fluid_velocity _ _ _ _ E) as (force & Hforce & Hzero).
  - intros k cfg_k nb n index_j vel_n_k vel_ave_i vel_j Ecfg Enb Hn Ej Evk Evj Eave.
    destruct k as [|k]; [|destruct k; discriminate Ecfg].
    injection Ecfg as <-. injection Enb as <-. simpl in Hn.
    destruct n as [|n]; [|lia]. injection Ej as <-. injection Evk as <-.
    injection Evj as <-. injection Eave as <-. repeat split; reflexivity.
  - exists d', force. auto.
Defined.

(** *** The Laplacian with a contact relation *)

Section ContactLaplacian.
Import ParticleDynamics Operators.






End ContactLaplacian.


(** *** The steady-state check *)

Section SteadyCheckProperties.
Import SteadyCheck.

Lemma reduce_Ok (this this' : SteadySolutionCheck) (index_i : nat) (dt : Real)
    (steady : bool) :
  reduce this index_i dt = Ok (steady, this') <->
  exists variable_i variable_temp_i,
    variable_ this !! index_i = Some variable_i /\
    variable_temp_ this !! index_i = Some variable_temp_i /\
    this' = {| steady_reference_ := steady_reference_ this;
               variable_ := variable_ this;
               variable_temp_ := <[index_i := variable_i]> (variable_temp_ this) |} /\
    steady = checkSteady this (variable_i - variable_temp_i)%Q.
Proof.
  unfold reduce, checkSteady. split.
  - intros E. apply bind_Ok in E as (v & Ev & E). apply read_Ok in Ev.
    apply bind_Ok in E as (t & Et & E). apply read_Ok in Et.
    apply bind_Ok in E as (temp' & Ew & E). apply write_Ok in Ew as [Hlt ->].
    simpl in E. inversion E. subst.
    exists v, t. auto.
  - intros (v & t & Ev & Et & -> & ->).
    assert (Ew : write (variable_temp_ this) index_i v
                 = Ok (<[index_i := v]> (variable_temp_ this))).
    { apply write_Ok. split; [|reflexivity]. apply lookup_lt_Some in Et. assumption. }
    apply read_Ok in Ev, Et. unfold Real in *.
    rewrite Ev. simpl. rewrite Et. simpl. rewrite Ew. reflexivity.
Qed.

(** X9: [SteadySolutionCheck::reduce] remembers the value it has checked: a
    call that follows a call for the same particle, with the variable
    unchanged in between, changes nothing, and it reports the particle as
    steady exactly when the reference is not zero; with a zero reference
    the check does not report a steady particle even then. *)
Theorem unchanged_variable_is_steady (this this' : SteadySolutionCheck)
    (index_i : nat) (dt dt' : Real) (steady : bool) :
  reduce this index_i dt = Ok (steady, this') ->
  reduce this' index_i dt' = Ok (negb (Qeq_bool (steady_reference_ this) 0), this').
Proof.
  intros E. apply reduce_Ok in E as (v & t & Ev & Et & -> & _).
  apply reduce_Ok. exists v, v. simpl.
  split; [assumption|]. split.
  { apply list_lookup_insert_eq. apply lookup_lt_Some in Et. assumption. }
  split.
  { rewrite list_insert_insert_eq. reflexivity. }
  unfold checkSteady. simpl.
  destruct (Qeq_bool (steady_reference_ this) 0); [reflexivity|]. simpl.
  symmetry. apply Qlt_bool_true.
  assert (Hz : ((v - v) * (v - v) / steady_reference_ this / steady_reference_ this
                == 0)%Q) by (unfold Qdiv; ring).
  rewrite Hz. reflexivity.
Qed.


End SteadyCheckProperties.

Lemma unchanged_variable_is_steady_witness :
  (exists steady this',
     SteadyCheck.reduce (SteadyCheck.new_SteadySolutionCheck [1; 2]%Q 1) 0 0.001
     = Ok (steady, this') /\
     SteadyCheck.reduce this' 0 0.001 = Ok (true, this')) /\
  (exists steady this',
     SteadyCheck.reduce (SteadyCheck.new_SteadySolutionCheck [1; 2]%Q 0) 0 0.001
     = Ok (steady, this') /\
     SteadyCheck.reduce this' 0 0.001 = Ok (false, this')).
Proof.
  split.
  - assert (E : exists steady this',
               SteadyCheck.reduce (SteadyCheck.new_SteadySolutionCheck [1; 2]%Q 1)
                 0 0.001 = Ok (steady, this')).
    { eexists _, _. vm_compute. reflexivity. }
    destruct E as (steady & this' & E). exists steady, this'. split; [exact E|].
    apply (unchanged_variable_is_steady _ _ _ _ _ _ E).
  - assert (E : exists steady this',
               SteadyCheck.reduce (SteadyCheck.new_SteadySolutionCheck [1; 2]%Q 0)
                 0 0.001 = Ok (steady, this')).
    { eexists _, _. vm_compute. reflexivity. }
    destruct E as (steady & this' & E). exists steady, this'. split; [exact E|].
    apply (unchanged_variable_is_steady _ _ _ _ _ _ E).
Defined.


(** *** The average velocity of a solid particle *)

Section AverageVelocity.
Import FSI.
Variable Eps : Real.

Lemma UpdateAverageVelocityAndAcceleration_Ok (d d' : AverageVelocityData)
    (index_i : nat) (dt : Real) :
  UpdateAverageVelocityAndAcceleration_update Eps d index_i dt = Ok d' ->
  exists pos_i pos_temp_i vel_ave_i,
    pos_ d !! index_i = Some pos_i /\ pos_temp_ d !! index_i = Some pos_temp_i /\
    vel_ave_ d !! index_i = Some vel_ave_i /\
    ~ (dt + Eps == 0)%Q /\
    (index_i < length (acc_ave_ d))%nat /\
    let updated_vel_ave :=
      (((pos_i.1.1 - pos_temp_i.1.1) / (dt + Eps),
        (pos_i.1.2 - pos_temp_i.1.2) / (dt + Eps),
        (pos_i.2 - pos_temp_i.2) / (dt + Eps))%Q : Vecd) in
    d' = {| pos_ := pos_ d; pos_temp_ := pos_temp_ d;
            vel_ave_ := <[index_i := updated_vel_ave]> (vel_ave_ d);
            acc_ave_ :=
              <[index_i := ((updated_vel_ave.1.1 - vel_ave_i.1.1) / (dt + Eps),
                            (updated_vel_ave.1.2 - vel_ave_i.1.2) / (dt + Eps),
                            (updated_vel_ave.2 - vel_ave_i.2) / (dt + Eps))%Q]>
                (acc_ave_ d) |}.
Proof.
  unfold UpdateAverageVelocityAndAcceleration_update. intros E.
  apply bind_Ok in E as (p & Ep & E). apply read_Ok in Ep.
  apply bind_Ok in E as (p0 & Ep0 & E). apply read_Ok in Ep0.
  apply bind_Ok in E as (v & Ev & E). apply vec_div_Ok in Ev as [Hden ->].
  apply bind_Ok in E as (v0 & Ev0 & E). apply read_Ok in Ev0.
  apply bind_Ok in E as (a & Ea & E). apply vec_div_Ok in Ea as [_ ->].
  apply bind_Ok in E as (acc' & Ew & E). apply write_Ok in Ew as [Hlt ->].
  apply bind_Ok in E as (vel' & Ew & E). apply write_Ok in Ew as [_ ->].
  inversion E. subst d'. exists p, p0, v0.
  destruct p as [[px py] pz], p0 as [[qx qy] qz], v0 as [[vx vy] vz].
  simpl. auto 10.
Qed.

(** X12: with a positive [dt + Eps], the average velocity
    [UpdateAverageVelocityAndAcceleration::update] stores never points
    against the displacement of the particle since [InitializeDisplacement]
    stored its position: their scalar product is not negative. *)
Theorem average_velocity_along_displacement (d d' : AverageVelocityData)
    (index_i : nat) (dt : Real) (pos_i pos_temp_i : Vecd) :
  UpdateAverageVelocityAndAcceleration_update Eps d index_i dt = Ok d' ->
  pos_ d !! index_i = Some pos_i ->
  pos_temp_ d !! index_i = Some pos_temp_i ->
  (0 < dt + Eps)%Q ->
  exists vel_ave_i',
    vel_ave_ d' !! index_i = Some vel_ave_i' /\
    (0 <= vec_dot vel_ave_i' (vec_sub pos_i pos_temp_i))%Q.
Proof.
  intros E Hp Hp0 Hh.
  apply UpdateAverageVelocityAndAcceleration_Ok in E
    as (p & p0 & v0 & Ep & Ep0 & Ev0 & Hden & Hlt & ->).
  unfold Vecd, Real in *.
  assert (p = pos_i) by congruence. assert (p0 = pos_temp_i) by congruence.
  subst p p0.
  eexists. split.
  { simpl. apply list_lookup_insert_eq. apply lookup_lt_Some in Ev0. assumption. }
  destruct pos_i as [[px py] pz], pos_temp_i as [[qx qy] qz].
  unfold vec_dot, vec_sub. simpl. unfold Real in *.
  assert (Hsq : forall a : Q, (0 <= a / (dt + Eps) * a)%Q).
  { intros a.
    assert (E : (a / (dt + Eps) * a == a * a / (dt + Eps))%Q) by (field; assumption).
    rewrite E. apply Qle_shift_div_l; [assumption|]. nra. }
  pose proof (Hsq (px - qx)%Q). pose proof (Hsq (py - qy)%Q). pose proof (Hsq (pz - qz)%Q).
  lra.
Qed.

(** X13: with a positive [Eps] and a non-negative time step,
    [UpdateAverageVelocityAndAcceleration::update] never divides by zero,
    a zero time step included. *)
Theorem average_velocity_guard (d : AverageVelocityData) (index_i : nat) (dt : Real) :
  (0 < Eps)%Q -> (0 <= dt)%Q ->
  UpdateAverageVelocityAndAcceleration_update Eps d index_i dt <> DivisionByZero.
Proof.
  intros HEps Hdt. unfold UpdateAverageVelocityAndAcceleration_update.
  assert (Hden : ~ (dt + Eps == 0)%Q) by lra.
  apply bind_not_div; [apply read_not_div | intros pos_i _].
  apply bind_not_div; [apply read_not_div | intros pos_temp_i _].
  apply bind_not_div; [apply vec_div_not_div; assumption | intros v _].
  apply bind_not_div; [apply read_not_div | intros vel_ave_i _].
  apply bind_not_div; [apply vec_div_not_div; assumption | intros a _].
  apply bind_not_div; [apply write_not_div | intros acc' _].
  apply bind_not_div; [apply write_not_div | discriminate].
Qed.

(** X14: a particle that has not moved since [InitializeDisplacement::update]
    stored its position gets the average velocity zero from
    [UpdateAverageVelocityAndAcceleration::update]. *)
Theorem particle_at_rest_has_no_average_velocity (d d1 d2 : AverageVelocityData)
    (index_i : nat) (dt dt' : Real) :
  InitializeDisplacement_update d index_i dt = Ok d1 ->
  UpdateAverageVelocityAndAcceleration_update Eps d1 index_i dt' = Ok d2 ->
  exists vel_ave_i', vel_ave_ d2 !! index_i = Some vel_ave_i' /\
                     vec_eq vel_ave_i' vec_zero.
Proof.
  unfold InitializeDisplacement_update. intros E1 E2.
  apply bind_Ok in E1 as (p & Ep & E1). apply read_Ok in Ep.
  apply bind_Ok in E1 as (temp' & Ew & E1). apply write_Ok in Ew as [Hlt ->].
  inversion E1. subst d1. clear E1.
  apply UpdateAverageVelocityAndAcceleration_Ok in E2
    as (p' & p0 & v0 & Ep' & Ep0 & Ev0 & Hden & _ & ->).
  simpl in *. rewrite list_lookup_insert_eq in Ep0 by assumption.
  unfold Vecd, Real in *.
  assert (p' = p) by congruence. assert (p0 = p) by congruence. subst p' p0.
  eexists. split.
  { apply list_lookup_insert_eq. apply lookup_lt_Some in Ev0. assumption. }
  destruct p as [[px py] pz]. unfold vec_eq. simpl. unfold Real in *.
  repeat split; field; assumption.
Qed.

End AverageVelocity.

Lemma average_velocity_along_displacement_witness :
  exists d' vel_ave_i',
    FSI.UpdateAverageVelocityAndAcceleration_update (1 # 1000000) FSI.moved_particle
      0 0.5 = Ok d' /\
    FSI.vel_ave_ d' !! 0%nat = Some vel_ave_i' /\
    (0 <= vec_dot vel_ave_i' (vec_sub (1, 2, 3)%Q (0, 0, 0)%Q))%Q.
Proof.
  assert (E : exists d',
             FSI.UpdateAverageVelocityAndAcceleration_update (1 # 1000000)
               FSI.moved_particle 0 0.5 = Ok d').
  { eexists. vm_compute. reflexivity. }
  destruct E as (d' & E).
  destruct (average_velocity_along_displacement _ _ _ _ _ (1, 2, 3)%Q (0, 0, 0)%Q
              E eq_refl eq_refl)
    as (v & Hv & Hdot).
  - reflexivity.
  - exists d', v. auto.
Defined.

Lemma average_velocity_guard_witness :
  FSI.UpdateAverageVelocityAndAcceleration_update (1 # 1000000) FSI.moved_particle 0 0
  <> DivisionByZero.
Proof.
  apply (average_velocity_guard (1 # 1000000) FSI.moved_particle 0 0).
  - reflexivity.
  - discriminate.
Defined.

Lemma particle_at_rest_has_no_average_velocity_witness :
  exists d1 d2 vel_ave_i',
    FSI.InitializeDisplacement_update FSI.moved_particle 0 0.5 = Ok d1 /\
    FSI.UpdateAverageVelocityAndAcceleration_update (1 # 1000000) d1 0 0.5 = Ok d2 /\
    FSI.vel_ave_ d2 !! 0%nat = Some vel_ave_i' /\ vec_eq vel_ave_i' vec_zero.
Proof.
  assert (E1 : exists d1,
             FSI.InitializeDisplacement_update FSI.moved_particle 0 0.5 = Ok d1).
  { eexists. vm_compute. reflexivity. }
  destruct E1 as (d1 & E1).
  assert (E2 : exists d2,
             FSI.UpdateAverageVelocityAndAcceleration_update (1 # 1000000) d1 0 0.5
             = Ok d2).
  { vm_compute in E1. injection E1 as <-. eexists. vm_compute. reflexivity. }
  destruct E2 as (d2 & E2).
  destruct (particle_at_rest_has_no_average_velocity _ _ _ _ _ _ _ E1 E2)
    as (v & Hv & Hzero).
  exists d1, d2, v. auto.
Defined.

(** *** Free-surface kernels *)

Section FluidSurfaceProperties.
Import ParticleDynamics FluidSurface.

Lemma checkNearPreviousFreeSurface_spec (d d' : FluidSurfaceData) (index_i : nat) :
  checkNearPreviousFreeSurface d index_i = Ok d' ->
  (d' = d /\ near_surface (previous_surface_indicator_ d) d index_i) \/
  (exists pos_div',
     d' = set_particles_ (set_pos_div_ pos_div' (particles_ d)) d /\
     pos_div' !! index_i = Some (2.0 * threshold_by_dimensions_ d)%Q).
Proof.
  unfold checkNearPreviousFreeSurface. intros E.
  apply bind_Ok in E as (previous_i & Ep & E). apply read_Ok in Ep.
  destruct (previous_i =? 1)%Z eqn:Hprev; simpl in E.
  { apply Z.eqb_eq in Hprev. subst previous_i. inversion E. subst d'.
    left. split; [reflexivity|]. left. assumption. }
  apply bind_Ok in E as (nb & Enb & E). apply read_Ok in Enb.
  apply bind_Ok in E as (is_near & Eloop & E).
  destruct is_near; simpl in E.
  - inversion E. subst d'. left. split; [reflexivity|]. right.
    assert (Hex : true = true ->
                  exists n index_j, (n < current_size_ nb)%nat /\
                    j_ nb !! n = Some index_j /\
                    previous_surface_indicator_ d !! index_j = Some 1%Z).
    { revert Eloop.
      apply (loop_neighbors_invariant
               (fun flag : bool =>
                  flag = true ->
                  exists n index_j, (n < current_size_ nb)%nat /\
                    j_ nb !! n = Some index_j /\
                    previous_surface_indicator_ d !! index_j = Some 1%Z));
        [|discriminate].
      intros flag n flag' Hn Hflag Ebody.
      apply bind_Ok in Ebody as (index_j & Ej & Ebody). apply read_Ok in Ej.
      apply bind_Ok in Ebody as (previous_j & Epj & Ebody). apply read_Ok in Epj.
      inversion Ebody. subst flag'.
      destruct (previous_j =? 1)%Z eqn:Hj.
      - apply Z.eqb_eq in Hj. subst previous_j. intros _. exists n, index_j. auto.
      - assumption. }
    destruct (Hex eq_refl) as (n & index_j & Hn & Ej & Epj).
    exists nb, n, index_j. auto.
  - apply bind_Ok in E as (pos_div' & Ew & E). apply write_Ok in Ew as [Hlt ->].
    inversion E. subst d'. right. eexists. split; [reflexivity|].
    apply list_lookup_insert_eq. assumption.
Qed.

(** X15: after [SpatialTemporalFreeSurfaceIdentification::interaction], with
    a non-negative threshold, a particle whose position divergence is below
    the threshold was a surface particle at the previous identification or
    has a neighbour in use that was one, whatever the interaction of the
    template parameter computed. *)
Theorem new_surface_particle_is_near_previous_surface
    (base_interaction : FluidSurfaceData -> nat -> Real -> outcome FluidSurfaceData)
    (d d' : FluidSurfaceData) (index_i : nat) (dt : Real) (pos_div : Real) :
  SpatialTemporalFreeSurfaceIdentification_interaction base_interaction d index_i dt
  = Ok d' ->
  (0 <= threshold_by_dimensions_ d')%Q ->
  pos_div_ (particles_ d') !! index_i = Some pos_div ->
  (pos_div < threshold_by_dimensions_ d')%Q ->
  near_surface (previous_surface_indicator_ d') d' index_i.
Proof.
  unfold SpatialTemporalFreeSurfaceIdentification_interaction.
  intros E Hthreshold Hpos Hlt.
  apply bind_Ok in E as (d1 & _ & E).
  apply bind_Ok in E as (pos_div1 & E1 & E). apply read_Ok in E1.
  destruct (Qlt_bool pos_div1 (threshold_by_dimensions_ d1)) eqn:Hcmp.
  - apply checkNearPreviousFreeSurface_spec in E
      as [[-> Hnear] | (pos_div' & -> & Hset)].
    + assumption.
    + simpl in *. unfold Real in *. rewrite Hset in Hpos. injection Hpos as <-. lra.
  - inversion E. subst d'. apply Qlt_bool_false in Hcmp.
    unfold Real in *. rewrite E1 in Hpos. injection Hpos as <-. lra.
Qed.

Lemma find_surface_neighbor_spec (indicator : list Z) (nb : Neighborhood)
    (ns : list nat) (found : bool) :
  find_surface_neighbor indicator nb ns = Ok found ->
  (found = true <->
   exists n index_j, n ∈ ns /\ j_ nb !! n = Some index_j /\
                     indicator !! index_j = Some 1%Z).
Proof.
  revert found. induction ns as [|n ns IH]; intros found E; simpl in E.
  - inversion E. subst found. split; [discriminate|].
    intros (n & index_j & Hn & _). inversion Hn.
  - apply bind_Ok in E as (index_j & Ej & E). apply read_Ok in Ej.
    apply bind_Ok in E as (indicator_j & Eind & E). apply read_Ok in Eind.
    destruct (indicator_j =? 1)%Z eqn:Hj.
    + apply Z.eqb_eq in Hj. subst indicator_j. inversion E. subst found.
      split; [|reflexivity]. intros _. exists n, index_j.
      split; [left | auto].
    + apply Z.eqb_neq in Hj. rewrite (IH found E). split.
      * intros (n' & j' & Hn' & Hj' & Hi'). exists n', j'.
        split; [right; assumption | auto].
      * intros (n' & j' & Hn' & Hj' & Hi'). exists n', j'.
        apply elem_of_cons in Hn' as [-> | Hn']; [|auto].
        exfalso. apply Hj. congruence.
Qed.

(** The two outcomes of [isNearSurface]. *)
Lemma isNearSurface_cases (d : FluidSurfaceData) (index_i : nat)
    (is_near_surface : bool) :
  isNearSurface d index_i = Ok is_near_surface ->
  (is_near_surface = true /\ near_surface (surface_indicator_ d) d index_i) \/
  (is_near_surface = false /\ ~ near_surface (surface_indicator_ d) d index_i).
Proof.
  unfold isNearSurface, near_surface. intros E.
  apply bind_Ok in E as (indicator_i & Ei & E). apply read_Ok in Ei.
  destruct (indicator_i =? 1)%Z eqn:Hi; simpl in E.
  - apply Z.eqb_eq in Hi. subst indicator_i. inversion E. left. auto.
  - apply Z.eqb_neq in Hi.
    apply bind_Ok in E as (nb & Enb & E). apply read_Ok in Enb.
    pose proof (find_surface_neighbor_spec _ _ _ _ E) as Hfind.
    destruct is_near_surface.
    + left. split; [reflexivity|].
      destruct (proj1 Hfind eq_refl) as (n & index_j & Hn & Hj & Hind).
      right. exists nb, n, index_j.
      apply elem_of_seq in Hn. repeat split; try assumption. lia.
    + right. split; [reflexivity|].
      intros [Hself | (nb' & n & index_j & Enb' & Hn & Hj & Hind)].
      * apply Hi. congruence.
      * assert (nb' = nb) by congruence. subst nb'.
        assert (Hfound : false = true); [|discriminate].
        apply Hfind. exists n, index_j.
        split; [apply elem_of_seq; lia | auto].
Qed.

(** X16: [DensitySummationFreeStream::isNearSurface], whose loop leaves at
    the first hit, returns true exactly when the particle is a surface
    particle or one of its neighbours in use is. *)
Theorem isNearSurface_finds_surface_neighbors (d : FluidSurfaceData) (index_i : nat)
    (is_near_surface : bool) :
  isNearSurface d index_i = Ok is_near_surface ->
  (is_near_surface = true <-> near_surface (surface_indicator_ d) d index_i).
Proof.
  intros E.
  destruct (isNearSurface_cases d index_i is_near_surface E)
    as [[-> Hnear] | [-> Hfar]].
  - split; [intros _; exact Hnear | reflexivity].
  - split; [discriminate | intros Hnear; contradiction].
Qed.

(** X17: [DensitySummationFreeStream::update] reinitialises the density as
    [DensitySummationFreeSurface::update] does exactly for a particle whose
    summation density is below the reference density and which is a surface
    particle or next to one; every other particle gets its summation
    density. *)
Theorem free_stream_density (ReinitializedDensity : Real -> Real -> Real -> Real)
    (d d' : FluidSurfaceData) (index_i : nat) (dt : Real) (rho_sum_i : Real) :
  DensitySummationFreeStream_update ReinitializedDensity d index_i dt = Ok d' ->
  rho_sum_ d !! index_i = Some rho_sum_i ->
  ((rho_sum_i < rho0_ d)%Q /\ near_surface (surface_indicator_ d) d index_i ->
   DensitySummationFreeSurface_update ReinitializedDensity d index_i dt = Ok d') /\
  (~ ((rho_sum_i < rho0_ d)%Q /\ near_surface (surface_indicator_ d) d index_i) ->
   d' = set_rho_ (<[index_i := rho_sum_i]> (rho_ d)) d).
Proof.
  unfold DensitySummationFreeStream_update, DensitySummationFreeSurface_update.
  intros E Hsum.
  apply bind_Ok in E as (s & Es & E). apply read_Ok in Es.
  unfold Real in *. assert (s = rho_sum_i) by congruence. subst s.
  apply bind_Ok in E as (reinitialize & Ecnd & E).
  assert (Hcnd : reinitialize = true <->
                 (rho_sum_i < rho0_ d)%Q /\
                 near_surface (surface_indicator_ d) d index_i).
  { destruct (Qlt_bool rho_sum_i (rho0_ d)) eqn:Hcmp.
    - apply Qlt_bool_true in Hcmp.
      destruct (isNearSurface_cases _ _ _ Ecnd) as [[-> Hnear] | [-> Hfar]].
      + tauto.
      + split; [discriminate | intros [_ Hnear]; contradiction].
    - apply Qlt_bool_false in Hcmp. inversion Ecnd. subst reinitialize.
      split; [discriminate|]. intros [Hlt _]. lra. }
  destruct reinitialize.
  - split.
    + intros _. apply read_Ok in Es. rewrite Es. simpl. exact E.
    + intros Hnot. exfalso. apply Hnot. apply Hcnd. reflexivity.
  - apply bind_Ok in E as (rho' & Ew & E). apply write_Ok in Ew as [Hlt ->].
    inversion E. subst d'. split.
    + intros Hyes. apply Hcnd in Hyes. discriminate.
    + reflexivity.
Qed.

(** X18: [SurfaceTensionAccelerationInner::interaction] leaves the prior
    acceleration of a particle that is not a surface particle as it is. *)
Theorem no_surface_tension_off_the_surface (Dimensions TinyReal : Real)
    (d d' : FluidSurfaceData) (index_i : nat) (dt : Real) (indicator_i : Z)
    (acc_prior_i : Vecd) :
  SurfaceTensionAccelerationInner_interaction Dimensions TinyReal d index_i dt = Ok d' ->
  surface_indicator_ d !! index_i = Some indicator_i -> indicator_i <> 1%Z ->
  acc_prior_ d !! index_i = Some acc_prior_i ->
  exists acc_prior_i',
    acc_prior_ d' !! index_i = Some acc_prior_i' /\ vec_eq acc_prior_i' acc_prior_i.
Proof.
  unfold SurfaceTensionAccelerationInner_interaction. intros E Hind Hne Hacc.
  apply bind_Ok in E as (n_i & _ & E).
  apply bind_Ok in E as (s_i & Es & E). apply read_Ok in Es.
  assert (s_i = indicator_i) by congruence. subst s_i.
  apply Z.eqb_neq in Hne. rewrite Hne in E. simpl in E.
  apply bind_Ok in E as (k & Ek & E). apply real_div_Ok in Ek as [Hden ->].
  apply bind_Ok in E as (color_grad_i & _ & E).
  apply bind_Ok in E as (Vol_i & _ & E).
  apply bind_Ok in E as (mass_i & _ & E).
  apply bind_Ok in E as (change & Ec & E). apply vec_div_Ok in Ec as [Hmass ->].
  apply bind_Ok in E as (a & Ea & E). apply read_Ok in Ea.
  assert (a = acc_prior_i) by congruence. subst a.
  apply bind_Ok in E as (acc' & Ew & E). apply write_Ok in Ew as [Hlt ->].
  inversion E. subst d'. eexists. split.
  { simpl. apply list_lookup_insert_eq. assumption. }
  destruct acc_prior_i as [[a1 a2] a3], color_grad_i as [[c1 c2] c3].
  unfold vec_eq. simpl. unfold Real in *.
  repeat split; unfold Qdiv; ring.
Qed.

Lemma ABS_positive (a : Real) : (0 < a)%Q -> ~ (ABS a == 0)%Q.
Proof.
  intros Ha. unfold ABS. destruct (Qlt_bool a 0) eqn:E.
  - apply Qlt_bool_true in E. lra.
  - lra.
Qed.

(** X19: [SurfaceTensionAccelerationInner::interaction] never divides by
    zero when [TinyReal] is positive, the mass of the particle is not zero
    and, over the neighbour records in use, the kernel-gradient weights are
    non-positive and the distances non-negative. *)
Theorem surface_tension_guard (Dimensions TinyReal : Real) (d : FluidSurfaceData)
    (index_i : nat) (dt : Real) :
  (0 < TinyReal)%Q ->
  (forall mass_i, mass_ d !! index_i = Some mass_i -> ~ (mass_i == 0)%Q) ->
  (forall inner_neighborhood n dW r,
     inner_configuration_ (particles_ d) !! index_i = Some inner_neighborhood ->
     (n < current_size_ inner_neighborhood)%nat ->
     dW_ijV_j_ inner_neighborhood !! n = Some dW ->
     r_ij_ inner_neighborhood !! n = Some r ->
     (dW <= 0 /\ 0 <= r)%Q) ->
  SurfaceTensionAccelerationInner_interaction Dimensions TinyReal d index_i dt
  <> DivisionByZero.
Proof.
  intros Htiny Hmass Hsign. unfold SurfaceTensionAccelerationInner_interaction.
  apply bind_not_div; [apply read_not_div | intros n_i _].
  apply bind_not_div; [apply read_not_div | intros indicator_i _].
  apply bind_not_div.
  - destruct (indicator_i =? 1)%Z; [|discriminate].
    apply bind_not_div; [apply read_not_div | intros nb _].
    apply loop_neighbors_not_div. intros [curvature pos_div] n _.
    apply bind_not_div; [apply read_not_div | intros index_j _].
    apply bind_not_div; [apply read_not_div | intros indicator_j _].
    destruct (indicator_j =? 1)%Z; [|discriminate].
    apply bind_not_div; [apply read_not_div | intros n_j _].
    apply bind_not_div; [apply read_not_div | intros dW _].
    apply bind_not_div; [apply read_not_div | intros e_ij _].
    apply bind_not_div; [apply read_not_div | discriminate].
  - intros [curvature pos_div] Eacc.
    assert (Hpos : (0 <= pos_div)%Q).
    { destruct (indicator_i =? 1)%Z.
      - apply bind_Ok in Eacc as (nb & Enb & Eloop). apply read_Ok in Enb.
        revert Eloop.
        apply (loop_neighbors_invariant
                 (fun st : Real * Real => (0 <= st.2)%Q) nb _ (0%Q, 0%Q)
                 (curvature, pos_div)); [|simpl; lra].
        intros [c p] n st' Hn Hp Ebody. simpl in Hp.
        apply bind_Ok in Ebody as (index_j & _ & Ebody).
        apply bind_Ok in Ebody as (indicator_j & _ & Ebody).
        destruct (indicator_j =? 1)%Z.
        + apply bind_Ok in Ebody as (n_j & _ & Ebody).
          apply bind_Ok in Ebody as (dW & EdW & Ebody). apply read_Ok in EdW.
          apply bind_Ok in Ebody as (e_ij & _ & Ebody).
          apply bind_Ok in Ebody as (r & Er & Ebody). apply read_Ok in Er.
          inversion Ebody. subst st'. simpl.
          destruct (Hsign nb n dW r Enb Hn EdW Er). nra.
        + inversion Ebody. subst st'. assumption.
      - inversion Eacc. lra. }
    rewrite real_div_nonzero by (apply ABS_positive; lra). simpl.
    apply bind_not_div; [apply read_not_div | intros color_grad_i _].
    apply bind_not_div; [apply read_not_div | intros Vol_i _].
    apply bind_not_div; [apply read_not_div | intros mass_i Em].
    apply read_Ok in Em.
    apply bind_not_div; [apply vec_div_not_div; auto | intros change _].
    apply bind_not_div; [apply read_not_div | intros acc_prior_i _].
    apply bind_not_div; [apply write_not_div | discriminate].
Qed.

End FluidSurfaceProperties.

Lemma new_surface_particle_is_near_previous_surface_witness :
  exists d',
    FluidSurface.SpatialTemporalFreeSurfaceIdentification_interaction
      FluidSurface.FreeSurfaceIndicationInner_base FluidSurface.surface_pair 0 0.001
    = Ok d' /\
    FluidSurface.near_surface (FluidSurface.previous_surface_indicator_ d') d' 0.
Proof.
  eexists. split; [vm_compute; reflexivity|].
  eapply (new_surface_particle_is_near_previous_surface
            FluidSurface.FreeSurfaceIndicationInner_base FluidSurface.surface_pair
            _ 0 0.001 1%Q).
  - vm_compute. reflexivity.
  - discriminate.
  - reflexivity.
  - reflexivity.
Defined.

Lemma isNearSurface_finds_surface_neighbors_witness :
  FluidSurface.near_surface
    (FluidSurface.surface_indicator_ FluidSurface.surface_pair)
    FluidSurface.surface_pair 0.
Proof.
  apply (isNearSurface_finds_surface_neighbors FluidSurface.surface_pair 0 true).
  - vm_compute. reflexivity.
  - reflexivity.
Defined.

Lemma free_stream_density_witness :
  exists d',
    FluidSurface.DensitySummationFreeStream_update
      FluidSurface.example_ReinitializedDensity FluidSurface.bulk_pair 0 0.001 = Ok d' /\
    d' = FluidSurface.set_rho_ (<[0%nat := 0.9%Q]> (FluidSurface.rho_ FluidSurface.bulk_pair))
           FluidSurface.bulk_pair.
Proof.
  assert (E : exists d',
             FluidSurface.DensitySummationFreeStream_update
               FluidSurface.example_ReinitializedDensity FluidSurface.bulk_pair 0 0.001
             = Ok d').
  { eexists. vm_compute. reflexivity. }
  destruct E as (d' & E). exists d'. split; [exact E|].
  apply (free_stream_density _ _ _ _ _ 0.9%Q E eq_refl).
  intros [_ Hnear].
  assert (Ecase : FluidSurface.isNearSurface FluidSurface.bulk_pair 0 = Ok false).
  { vm_compute. reflexivity. }
  destruct (isNearSurface_cases _ _ _ Ecase) as [[Htrue _] | [_ Hfar]];
    [discriminate | contradiction].
Defined.

Lemma no_surface_tension_off_the_surface_witness :
  exists d' acc_prior_i',
    FluidSurface.SurfaceTensionAccelerationInner_interaction 3 (1 # 1000000)
      FluidSurface.bulk_pair 0 0.001 = Ok d' /\
    FluidSurface.acc_prior_ d' !! 0%nat = Some acc_prior_i' /\
    vec_eq acc_prior_i' (0, -1, 0)%Q.
Proof.
  assert (E : exists d',
             FluidSurface.SurfaceTensionAccelerationInner_interaction 3 (1 # 1000000)
               FluidSurface.bulk_pair 0 0.001 = Ok d').
  { eexists. vm_compute. reflexivity. }
  destruct E as (d' & E).
  destruct (no_surface_tension_off_the_surface _ _ _ _ _ _ 0%Z (0, -1, 0)%Q E)
    as (a & Ha & Heq).
  - reflexivity.
  - discriminate.
  - reflexivity.
  - exists d', a. auto.
Defined.

Lemma surface_tension_guard_witness :
  FluidSurface.SurfaceTensionAccelerationInner_interaction 3 (1 # 1000000)
    FluidSurface.surface_pair 1 0.001 <> DivisionByZero.
Proof.
  apply surface_tension_guard.
  - reflexivity.
  - intros mass_i Em. injection Em as <-. discriminate.
  - intros nb n dW r Enb Hn EdW Er. injection Enb as <-. simpl in Hn.
    destruct n as [|n]; [|lia]. injection EdW as <-. injection Er as <-.
    split; discriminate.
Defined.

(** *** The evolution of the diffusion coefficient *)

Section HeatSourceProperties.
Import CoefficientEvolution HeatSourceSteady.






Lemma explicit_interaction_frame (d d' : DissipationData) (index_i : nat) (dt : Real) :
  CoefficientEvolutionExplicitTem_interaction d index_i dt = Ok d' ->
  eta_ (evolution_ d') = eta_ (evolution_ d).
Proof.
  unfold CoefficientEvolutionExplicitTem_interaction. intros E.
  repeat (apply bind_Ok in E as (? & _ & E)). inversion E. reflexivity.
Qed.

Lemma with_wall_interaction_frame (d d' : DissipationData) (index_i : nat) (dt : Real) :
  CoefficientEvolutionWithWallExplicitTem_interaction d index_i dt = Ok d' ->
  eta_ (evolution_ d') = eta_ (evolution_ d).
Proof.
  unfold CoefficientEvolutionWithWallExplicitTem_interaction. intros E.
  apply bind_Ok in E as (d1 & E1 & E). apply explicit_interaction_frame in E1.
  repeat (apply bind_Ok in E as (? & _ & E)). inversion E. simpl. assumption.
Qed.

Lemma update_frame (fl : Real -> Real) (Eps : Real)
    (this this' : CoefficientEvolutionExplicitTem) (index_i : nat) (dt : Real) :
  update fl Eps this index_i dt = Ok this' ->
  length (eta_ this') = length (eta_ this) /\
  forall k, k <> index_i -> eta_ this' !! k = eta_ this !! k.
Proof.
  unfold update. intros E.
  apply bind_Ok in E as (rate & _ & E).
  apply bind_Ok in E as (eta_i & _ & E).
  apply bind_Ok in E as (theta & _ & E).
  apply bind_Ok in E as (eta' & Ew & E). apply write_Ok in Ew as [_ ->].
  inversion E. subst this'. simpl. clear E. split.
  - apply length_insert.
  - intros k Hk. apply list_lookup_insert_ne. congruence.
Qed.

(** X21: a pass of [coefficient_evolution_with_wall_tem], the interaction
    of [CoefficientEvolutionWithWallExplicitTem] over the particles of
    [order1] followed by its update over the particles of [order2], writes
    the diffusion coefficient of no particle outside [order2]: the
    interaction leaves the whole coefficient field as it is, an update
    writes the coefficient of its own particle only, and the field keeps its
    length, whatever the rounding of the operations. *)
Theorem coefficient_evolution_writes_updated_particles (fl : Real -> Real) (Eps : Real)
    (order1 order2 : list nat) (dt : Real) (d d' : DissipationData) :
  coefficient_evolution_with_wall_tem fl Eps order1 order2 dt d = Ok d' ->
  length (eta_ (evolution_ d')) = length (eta_ (evolution_ d)) /\
  forall k, k ∉ order2 -> eta_ (evolution_ d') !! k = eta_ (evolution_ d) !! k.
Proof.
  unfold coefficient_evolution_with_wall_tem. intros E.
  apply bind_Ok in E as (d1 & E1 & E2).
  assert (H1 : eta_ (evolution_ d1) = eta_ (evolution_ d)).
  { revert E1.
    apply (for_each_invariant
             (fun s => eta_ (evolution_ s) = eta_ (evolution_ d))); [|reflexivity].
    intros s i s' Hs Ei. apply with_wall_interaction_frame in Ei. congruence. }
  rewrite <- H1. revert E2.
  apply (for_each_invariant_in
           (fun s => length (eta_ (evolution_ s)) = length (eta_ (evolution_ d1)) /\
                     forall k, k ∉ order2 ->
                       eta_ (evolution_ s) !! k = eta_ (evolution_ d1) !! k)).
  - intros s i s' Hi [Hlen Hs] Ei. unfold CoefficientEvolutionExplicitTem_update in Ei.
    apply bind_Ok in Ei as (ev' & Eu & Ei). inversion Ei. subst s'. simpl.
    apply update_frame in Eu as [Hlen' Hframe]. split; [congruence|].
    intros k Hk. rewrite Hframe; [auto|]. intros ->. contradiction.
  - split; reflexivity.
Qed.

Lemma residue_evaluation_bound (M : Real) (control : LearningControl)
    (residue_max residue_ave : Real) :
  (equation_residue_max control <= M \/
   equation_residue_max control <= allowed_equation_residue)%Q ->
  (equation_residue_max (residue_evaluation control residue_max residue_ave) <= M \/
   equation_residue_max (residue_evaluation control residue_max residue_ave)
   <= allowed_equation_residue)%Q.
Proof.
  intros Hinv. unfold residue_evaluation.
  destruct (Qlt_bool (equation_residue_max control) residue_max) eqn:H1; simpl.
  - destruct (Qlt_bool allowed_equation_residue residue_max) eqn:H2; simpl.
    + assumption.
    + apply Qlt_bool_false in H2. right. assumption.
  - apply Qlt_bool_false in H1. destruct Hinv as [Hinv | Hinv]; [left | right]; lra.
Qed.

(** X22: over any number of passes of the learning loop of
    heat_source_steady.cpp and whatever the residues measured, the recorded
    maximum residue [equation_residue_max] never ends above both its value
    before the passes and the allowed residue. *)
Theorem accepted_residue_is_bounded (measured : list (Real * Real))
    (control : LearningControl) :
  (equation_residue_max (residue_evaluations measured control)
   <= equation_residue_max control \/
   equation_residue_max (residue_evaluations measured control)
   <= allowed_equation_residue)%Q.
Proof.
  unfold residue_evaluations.
  assert (G : forall c,
             (equation_residue_max c <= equation_residue_max control \/
              equation_residue_max c <= allowed_equation_residue)%Q ->
             (equation_residue_max
                (foldl (fun c m => residue_evaluation c m.1 m.2) c measured)
              <= equation_residue_max control \/
              equation_residue_max
                (foldl (fun c m => residue_evaluation c m.1 m.2) c measured)
              <= allowed_equation_residue)%Q).
  { induction measured as [|m measured IH]; intros c Hc; simpl; [assumption|].
    apply IH. apply residue_evaluation_bound. assumption. }
  apply G. left. apply Qle_refl.
Qed.

End HeatSourceProperties.


Lemma coefficient_evolution_writes_updated_particles_witness :
  exists d',
    HeatSourceSteady.coefficient_evolution_with_wall_tem binary64 binary64_epsilon
      [0; 1]%nat [0]%nat 0.0001 HeatSourceSteady.diffusion_pair = Ok d' /\
    CoefficientEvolution.eta_ (HeatSourceSteady.evolution_ d') !! 1%nat = Some 1%Q /\
    CoefficientEvolution.eta_ (HeatSourceSteady.evolution_ d') !! 0%nat <> Some 1%Q.
Proof.
  assert (E : exists d',
             HeatSourceSteady.coefficient_evolution_with_wall_tem binary64
               binary64_epsilon [0; 1]%nat [0]%nat 0.0001
               HeatSourceSteady.diffusion_pair = Ok d').
  { eexists. vm_compute. reflexivity. }
  destruct E as (d' & E). exists d'. split; [exact E|].
  split.
  - destruct (coefficient_evolution_writes_updated_particles _ _ _ _ _ _ _ E)
      as [_ Hframe].
    etrans; [apply (Hframe 1%nat) | reflexivity].
    intros Hin. apply list_elem_of_singleton in Hin. discriminate.
  - vm_compute in E. inversion E. subst d'. vm_compute. discriminate.
Defined.

(** *** The return mapping of the plastic solid *)

Section PlasticityFrame.
Import Plasticity.
Context `{LibM} {Matd : Type} `{EigenMatd Matd}.
Variable OneOverDimensions : Real.

(** X23: [PlasticConstitutiveRelation] writes the hardening parameter and
    the inverse plastic strain of particle [index_i] only: both arrays keep
    their size, and the entries of every other particle are left as they
    were. *)
Theorem constitutive_relation_touches_one_particle (this this' : HardeningPlasticSolid Matd)
    (F stress : Matd) (index_i : nat) (dt : Real) :
  PlasticConstitutiveRelation OneOverDimensions this F index_i dt = Ok (stress, this') ->
  length (hardening_parameter_ this') = length (hardening_parameter_ this) /\
  length (inverse_plastic_strain_ this') = length (inverse_plastic_strain_ this) /\
  forall index_j, index_j <> index_i ->
    hardening_parameter_ this' !! index_j = hardening_parameter_ this !! index_j /\
    inverse_plastic_strain_ this' !! index_j = inverse_plastic_strain_ this !! index_j.
Proof.
  unfold PlasticConstitutiveRelation. intros E.
  apply bind_Ok in E as (ips_i & _ & E).
  apply bind_Ok in E as (hardening_i & _ & E).
  apply bind_Ok in E as ([[hardening' dev'] be'] & Erelaxed & E).
  apply bind_Ok in E as (ips' & Ew & E). apply write_Ok in Ew as [_ ->].
  inversion E. subst this'. simpl. clear E.
  assert (Hhard : hardening' = hardening_parameter_ this \/
                  exists v, hardening' = <[index_i := v]> (hardening_parameter_ this)).
  { match type of Erelaxed with (if ?c then _ else _) = _ => destruct c end.
    - apply bind_Ok in Erelaxed as (inc & _ & Erelaxed).
      apply bind_Ok in Erelaxed as (h' & Ew & Erelaxed).
      apply write_Ok in Ew as [_ ->]. inversion Erelaxed. eauto.
    - inversion Erelaxed. auto. }
  split; [|split].
  - destruct Hhard as [-> | (v & ->)]; [reflexivity | apply length_insert].
  - apply length_insert.
  - intros index_j Hne. split.
    + destruct Hhard as [-> | (v & ->)]; [reflexivity|].
      apply list_lookup_insert_ne. congruence.
    + apply list_lookup_insert_ne. congruence.
Qed.

End PlasticityFrame.

Lemma constitutive_relation_touches_one_particle_witness :
  exists stress this',
    @Plasticity.PlasticConstitutiveRelation ExactLibM Plasticity.Mat2d
        (Plasticity.Mat2dOps ExactLibM) 0.5
        Plasticity.two_particle_solid Plasticity.simple_shear 0 0.001
      = Ok (stress, this') /\
    length (Plasticity.hardening_parameter_ this') = 2%nat /\
    length (Plasticity.inverse_plastic_strain_ this') = 2%nat /\
    Plasticity.hardening_parameter_ this' !! 1%nat = Some 0.25%Q /\
    Plasticity.inverse_plastic_strain_ this' !! 1%nat
      = Some (Plasticity.mkMat2d 2 0 0 0.5) /\
    Plasticity.hardening_parameter_ this' !! 0%nat <> Some 0%Q /\
    Plasticity.inverse_plastic_strain_ this' !! 0%nat
      <> Some (Plasticity.mkMat2d 1 0 0 1).
Proof.
  assert (E : exists stress this',
             @Plasticity.PlasticConstitutiveRelation ExactLibM Plasticity.Mat2d
                 (Plasticity.Mat2dOps ExactLibM) 0.5
                 Plasticity.two_particle_solid Plasticity.simple_shear 0 0.001
             = Ok (stress, this')).
  { eexists _, _. vm_compute. reflexivity. }
  destruct E as (stress & this' & E). exists stress, this'. split; [exact E|].
  destruct (constitutive_relation_touches_one_particle _ _ _ _ _ _ _ E)
    as (H1 & H2 & H3).
  destruct (H3 1%nat) as [H4 H5]; [discriminate|].
  split; [etrans; [exact H1 | reflexivity]|].
  split; [etrans; [exact H2 | reflexivity]|].
  split; [etrans; [exact H4 | reflexivity]|].
  split; [etrans; [exact H5 | reflexivity]|].
  vm_compute in E. inversion E. subst this'. split; vm_compute; discriminate.
Defined.

(** *** The drivers without periodic conditions *)

Section NonPeriodicDrivers.
Import Driver RelaxationDriver.

Lemma observe_trace_app (moves : event -> bool) (t1 t2 : list event) (st : table_state) :
  observe_trace moves st (t1 ++ t2)
  = match observe_trace moves st t1 with
    | Some st' => observe_trace moves st' t2
    | None => None
    end.
Proof.
  revert st. induction t1 as [|e t1 IH]; intros st; simpl; [reflexivity|].
  destruct (observe moves st e); [apply IH | reflexivity].
Qed.

Lemma cylinder_relaxation_step_rebuilds (ite_p : Z) :
  observe_trace cylinder_relaxation_moves TableRebuilt (cylinder_relaxation_step ite_p)
  = Some TableRebuilt.
Proof.
  unfold cylinder_relaxation_step.
  destruct ((ite_p + 1) mod 200 =? 0)%Z; reflexivity.
Qed.

(** X24: in the particle-relaxation branch of 2d_flow_around_cylinder.cpp,
    whatever the number of passes of the loop, every call that reads the
    neighbourhood table finds a table that was rebuilt from cell lists
    rebuilt after the last call that moved particles, and the branch ends
    with such a table. *)
Theorem cylinder_relaxation_reads_rebuilt_table (iterations : nat) :
  observe_trace cylinder_relaxation_moves Moved (cylinder_relaxation iterations)
  = Some TableRebuilt.
Proof.
  unfold cylinder_relaxation. rewrite observe_trace_app.
  change (observe_trace cylinder_relaxation_moves Moved cylinder_relaxation_setup)
    with (Some TableRebuilt).
  cbv beta iota. rewrite observe_trace_app.
  assert (G : forall start,
             observe_trace cylinder_relaxation_moves TableRebuilt
               (ite_p ← seq start iterations;
                cylinder_relaxation_step (Z.of_nat ite_p))
             = Some TableRebuilt).
  { induction iterations as [|n IH]; intros start; [reflexivity|].
    change (seq start (S n)) with (start :: seq (S start) n).
    rewrite bind_cons, observe_trace_app, cylinder_relaxation_step_rebuilds.
    apply IH. }
  rewrite G. reflexivity.
Qed.

End NonPeriodicDrivers.

Section ContactDriverProperties.
Import ContactDriver.

(** X25: in every pass of the inner loop of shell_shell_collision_bugFix.cpp,
    the cell linked list of [upperPlate] is updated before the configuration
    of [wall_upperPlate_contact], whose contact body it is; the
    configuration of [upperPlate_contact] is updated before the cell linked
    list of its contact body [wall_boundary] is, and not after it. *)
Theorem contact_rebuild_order (ite : Z) :
  precedes (collision_step ite) (UpdateCellLinkedList "upperPlate")
           (UpdateConfiguration "wall_upperPlate_contact") /\
  precedes (collision_step ite) (UpdateConfiguration "upperPlate_contact")
           (UpdateCellLinkedList "wall_boundary") /\
  ~ precedes (collision_step ite) (UpdateCellLinkedList "wall_boundary")
             (UpdateConfiguration "upperPlate_contact").
Proof.
  unfold collision_step, precedes. split; [|split].
  - destruct (ite mod 100 =? 0)%Z.
    + exists 17%nat, 20%nat. repeat split. lia.
    + exists 16%nat, 19%nat. repeat split. lia.
  - destruct (ite mod 100 =? 0)%Z.
    + exists 18%nat, 19%nat. repeat split. lia.
    + exists 17%nat, 18%nat. repeat split. lia.
  - intros (i & j & Hi & Hj & Hlt).
    destruct (ite mod 100 =? 0)%Z; simpl in Hi, Hj;
      repeat (first [discriminate Hi | destruct i as [|i]; simpl in Hi]);
      repeat (first [discriminate Hj | destruct j as [|j]; simpl in Hj]);
      lia.
Qed.

End ContactDriverProperties.

(** *** The steady heat-flux case *)

Section HeatFluxProperties.
Import HeatFluxSteady.

(** X26: the three regions [WallBoundaryInitialCondition::update] of
    heat_flux_steady.cpp tests exclude one another, so a wall particle gets
    the value of the one region it lies in, and [-0.0] outside all three; the
    heat flux is written for the particles of the heat-flux region only. *)
Theorem wall_boundary_regions (d d' : WallBoundaryData) (index_i : nat) (dt : Real)
    (pos_i : Vecd) :
  WallBoundaryInitialCondition_update d index_i dt = Ok d' ->
  pos_ d !! index_i = Some pos_i ->
  species_n_phi_ d' !! index_i
  = Some (if left_temperature_region pos_i then left_temperature
          else if right_temperature_region pos_i then right_temperature
          else if heat_flux_region pos_i then 400%Q
          else (- 0.0)%Q) /\
  (left_temperature_region pos_i && right_temperature_region pos_i = false) /\
  (left_temperature_region pos_i && heat_flux_region pos_i = false) /\
  (right_temperature_region pos_i && heat_flux_region pos_i = false) /\
  heat_flux_ d'
  = (if heat_flux_region pos_i then <[index_i := heat_flux]> (heat_flux_ d)
     else heat_flux_ d).
Proof.
  unfold WallBoundaryInitialCondition_update. intros E Hpos.
  apply bind_Ok in E as (phi0 & Ew0 & E). apply write_Ok in Ew0 as [Hlt ->].
  apply bind_Ok in E as (p & Ep & E). apply read_Ok in Ep.
  unfold Vecd, Real in *. assert (p = pos_i) by congruence. subst p.
  assert (Hbounds : (region_bound 0.4 <= region_bound 0.6)%Q).
  { apply Qle_bool_iff. vm_compute. reflexivity. }
  assert (Hregion : forall lo hi x y' cmp,
            (if cmp : bool then Qlt_bool H y' else Qlt_bool y' 0)
            && Qlt_bool lo x && Qlt_bool x hi = true ->
            (if cmp then H < y' else y' < 0)%Q /\ (lo < x < hi)%Q).
  { intros lo hi x y' cmp Hr.
    apply andb_true_iff in Hr as [Hr H3]. apply andb_true_iff in Hr as [H1 H2].
    apply Qlt_bool_true in H2, H3.
    destruct cmp; apply Qlt_bool_true in H1; auto. }
  assert (Hlr : left_temperature_region pos_i && right_temperature_region pos_i = false).
  { destruct (left_temperature_region pos_i) eqn:Hl; [|reflexivity].
    destruct (right_temperature_region pos_i) eqn:Hr; [|reflexivity].
    apply (Hregion _ _ _ _ true) in Hl. apply (Hregion _ _ _ _ true) in Hr.
    exfalso. lra. }
  assert (Hlf : left_temperature_region pos_i && heat_flux_region pos_i = false).
  { destruct (left_temperature_region pos_i) eqn:Hl; [|reflexivity].
    destruct (heat_flux_region pos_i) eqn:Hf; [|reflexivity].
    apply (Hregion _ _ _ _ true) in Hl. apply (Hregion _ _ _ _ false) in Hf.
    unfold H in *. exfalso. lra. }
  assert (Hrf : right_temperature_region pos_i && heat_flux_region pos_i = false).
  { destruct (right_temperature_region pos_i) eqn:Hr; [|reflexivity].
    destruct (heat_flux_region pos_i) eqn:Hf; [|reflexivity].
    apply (Hregion _ _ _ _ true) in Hr. apply (Hregion _ _ _ _ false) in Hf.
    unfold H in *. exfalso. lra. }
  assert (Hw : forall (phi phi' : list Q) (v : Q),
            write phi index_i v = Ok phi' -> phi' = <[index_i := v]> phi).
  { intros phi phi' v Ew. apply write_Ok in Ew as [_ ->]. reflexivity. }
  destruct (left_temperature_region pos_i), (right_temperature_region pos_i),
           (heat_flux_region pos_i); try discriminate; simpl in E.
  - apply bind_Ok in E as (phi1 & E1 & E). apply Hw in E1. subst phi1.
    inversion E. subst d'. simpl. repeat split.
    apply list_lookup_insert_eq. rewrite length_insert. assumption.
  - apply bind_Ok in E as (phi1 & E1 & E). apply Hw in E1. subst phi1.
    inversion E. subst d'. simpl. repeat split.
    apply list_lookup_insert_eq. rewrite length_insert. assumption.
  - apply bind_Ok in E as (flux' & E1 & E). apply write_Ok in E1 as [_ ->].
    apply bind_Ok in E as (phi1 & E1 & E). apply Hw in E1. subst phi1.
    inversion E. subst d'. simpl. repeat split.
    apply list_lookup_insert_eq. rewrite length_insert. assumption.
  - inversion E. subst d'. simpl. repeat split.
    apply list_lookup_insert_eq. assumption.
Qed.

(** X27: the time-stepping loop of heat_flux_steady.cpp makes no pass:
    [maximum_residual_T] is initialised to zero, which is not above the
    tolerance the loop condition tests, whatever the restart step and
    whatever the reductions would have measured. *)
Theorem time_stepping_never_steps (fuel : nat) (residual : Z -> Real)
    (restart_step : Z) :
  time_stepping fuel residual restart_step = [].
Proof. unfold time_stepping. destruct fuel; reflexivity. Qed.

End HeatFluxProperties.

Lemma wall_boundary_regions_witness :
  (exists d',
     HeatFluxSteady.WallBoundaryInitialCondition_update HeatFluxSteady.wall_particles
       2 0.001 = Ok d' /\
     HeatFluxSteady.species_n_phi_ d' !! 2%nat = Some 400%Q /\
     HeatFluxSteady.heat_flux_ d' !! 2%nat = Some HeatFluxSteady.heat_flux) /\
  (exists d',
     HeatFluxSteady.WallBoundaryInitialCondition_update HeatFluxSteady.wall_particles
       4 0.001 = Ok d' /\
     HeatFluxSteady.species_n_phi_ d' !! 4%nat = Some (- 0.0)%Q).
Proof.
  split.
  - assert (E : exists d',
               HeatFluxSteady.WallBoundaryInitialCondition_update
                 HeatFluxSteady.wall_particles 2 0.001 = Ok d').
    { eexists. vm_compute. reflexivity. }
    destruct E as (d' & E). exists d'. split; [exact E|].
    destruct (wall_boundary_regions _ _ _ _ (0.5, -0.0078125, 0)%Q E eq_refl)
      as (Hphi & _ & _ & _ & Hflux).
    split; [exact Hphi | rewrite Hflux; reflexivity].
  - assert (E : exists d',
               HeatFluxSteady.WallBoundaryInitialCondition_update
                 HeatFluxSteady.wall_particles 4 0.001 = Ok d').
    { eexists. vm_compute. reflexivity. }
    destruct E as (d' & E). exists d'. split; [exact E|].
    destruct (wall_boundary_regions _ _ _ _ (binary64 0.7, 1.0078125, 0)%Q E eq_refl)
      as (Hphi & _).
    exact Hphi.
Defined.
